(** * Application-command registry, diff engine, synchronizer and dispatcher

    A shallow embedding of [disnake/ext/commands/interaction_bot_base.py]:
    the registry of locally declared application commands, the diff of a
    local command list against a remote snapshot, the synchronization pass
    built on it, and the routing of inbound interactions.

    Python dictionaries keep insertion order, and that order is observable
    here (bucket order, payload order, first match of a loop), so a [dict]
    is an association list whose keys are pairwise distinct.  Methods that
    mutate the bot return the new state; a method that can raise returns a
    [py_result], and the state it had reached when it raised; what a
    coroutine does to the outside is the list of its [effect]s, in order.
    Collaborators that live outside this module (the transport, the
    structural comparison, the invocation of a command) are parameters. *)

From Stdlib Require Import List String ZArith Bool Lia Permutation.
Import ListNotations.

Set Implicit Arguments.
Set Default Proof Using "Type".

(** ** Equality of hashable Python values *)

Class PyEq (K : Type) := {
  py_eqb : K -> K -> bool;
  py_eqb_eq : forall x y : K, py_eqb x y = true <-> x = y
}.

Lemma py_eqb_refl {K} `{PyEq K} (x : K) : py_eqb x x = true.
Proof. apply py_eqb_eq; reflexivity. Qed.

Lemma py_eqb_neq {K} `{PyEq K} (x y : K) : py_eqb x y = false <-> x <> y.
Proof.
  split.
  - intros E Heq. apply py_eqb_eq in Heq. congruence.
  - intros N. destruct (py_eqb x y) eqn:E; [|reflexivity].
    apply py_eqb_eq in E. contradiction.
Qed.

Lemma py_eq_dec {K} `{PyEq K} (x y : K) : {x = y} + {x <> y}.
Proof.
  destruct (py_eqb x y) eqn:E.
  - left. now apply py_eqb_eq.
  - right. now apply py_eqb_neq.
Defined.

#[export] Instance PyEq_string : PyEq string :=
  {| py_eqb := String.eqb; py_eqb_eq := String.eqb_eq |}.

#[export] Instance PyEq_Z : PyEq Z :=
  {| py_eqb := Z.eqb; py_eqb_eq := Z.eqb_eq |}.

Definition option_eqb {A} (eqb : A -> A -> bool) (x y : option A) : bool :=
  match x, y with
  | None, None => true
  | Some a, Some b => eqb a b
  | _, _ => false
  end.

Lemma option_eqb_eq {A} `{PyEq A} (x y : option A) :
  option_eqb py_eqb x y = true <-> x = y.
Proof.
  destruct x as [a|], y as [b|]; simpl; try (split; congruence).
  rewrite py_eqb_eq. split; congruence.
Qed.

#[export] Instance PyEq_option {A} `{PyEq A} : PyEq (option A) :=
  {| py_eqb := option_eqb py_eqb; py_eqb_eq := option_eqb_eq |}.

Definition pair_eqb {A B} (ea : A -> A -> bool) (eb : B -> B -> bool)
    (x y : A * B) : bool :=
  ea (fst x) (fst y) && eb (snd x) (snd y).

Lemma pair_eqb_eq {A B} `{PyEq A} `{PyEq B} (x y : A * B) :
  pair_eqb py_eqb py_eqb x y = true <-> x = y.
Proof.
  destruct x as [a b], y as [a' b']; unfold pair_eqb; simpl.
  rewrite andb_true_iff, !py_eqb_eq. split.
  - intros [-> ->]; reflexivity.
  - intros E; inversion E; auto.
Qed.

#[export] Instance PyEq_pair {A B} `{PyEq A} `{PyEq B} : PyEq (A * B) :=
  {| py_eqb := pair_eqb py_eqb py_eqb; py_eqb_eq := pair_eqb_eq |}.

(** ** Insertion-ordered dictionaries *)

Module PyDict.
Section Ops.
Context {K V : Type} `{PyEq K}.

Definition dict := list (K * V).

Definition keys (d : dict) : list K := map fst d.
Definition values (d : dict) : list V := map snd d.

(** [d.get(k)] *)
Fixpoint get (d : dict) (k : K) : option V :=
  match d with
  | [] => None
  | (k', v) :: r => if py_eqb k' k then Some v else get r k
  end.

(** [d[k] = v]: an existing key keeps its position, a new one goes last. *)
Fixpoint set (d : dict) (k : K) (v : V) : dict :=
  match d with
  | [] => [(k, v)]
  | (k', v') :: r =>
      if py_eqb k' k then (k', v) :: r else (k', v') :: set r k v
  end.

(** [d.pop(k, None)], with the dictionary that is left. *)
Fixpoint pop (d : dict) (k : K) : option V * dict :=
  match d with
  | [] => (None, [])
  | (k', v) :: r =>
      if py_eqb k' k then (Some v, r)
      else let (res, r') := pop r k in (res, (k', v) :: r')
  end.

(** [k in d] *)
Definition contains (d : dict) (k : K) : bool :=
  match get d k with Some _ => true | None => false end.

(** [{f(x): x for x in l}] *)
Definition of_list (f : V -> K) (l : list V) : dict :=
  fold_left (fun d x => set d (f x) x) l [].

(** Every key is held once. *)
Definition wf (d : dict) : Prop := NoDup (keys d).

End Ops.
Arguments dict : clear implicits.
End PyDict.


(** ** Data model *)

Inductive ApplicationCommandType := chat_input | user | message.

Definition type_eqb (a b : ApplicationCommandType) : bool :=
  match a, b with
  | chat_input, chat_input | user, user | message, message => true
  | _, _ => false
  end.

Lemma type_eqb_eq a b : type_eqb a b = true <-> a = b.
Proof. destruct a, b; simpl; split; congruence. Qed.

#[export] Instance PyEq_type : PyEq ApplicationCommandType :=
  {| py_eqb := type_eqb; py_eqb_eq := type_eqb_eq |}.

(** Modelled from the spec: the class [ApplicationCommand]
    (disnake/app_commands.py) is not among the sources.  It is the spec's
    CommandDescriptor: name, type, remote identity (absent until assigned),
    the externally visible fields the structural comparison reads, and the
    always-synced marker [_always_synced] that the source reads and writes. *)
Record ApplicationCommand := {
  name : string;
  type : ApplicationCommandType;
  id : option Z;
  description : string;
  options : list string;
  default_member_permissions : option Z;
  _always_synced : bool
}.

(** The key [(cmd.name, cmd.type)] of the diff engine. *)
Definition name_and_type (cmd : ApplicationCommand)
  : string * ApplicationCommandType := (name cmd, type cmd).

Definition set_always_synced (cmd : ApplicationCommand) : ApplicationCommand :=
  {| name := name cmd; type := type cmd; id := id cmd;
     description := description cmd; options := options cmd;
     default_member_permissions := default_member_permissions cmd;
     _always_synced := true |}.

(** An invokable command as the registry holds it: the command body, the
    guilds it is declared for and its [auto_sync] switch.  Its [name] and
    [type] are those of the body. *)
Record InvokableApplicationCommand := {
  body : ApplicationCommand;
  guild_ids : option (list Z);
  auto_sync : bool
}.

Definition cmd_name (c : InvokableApplicationCommand) : string := name (body c).
Definition cmd_type (c : InvokableApplicationCommand) : ApplicationCommandType :=
  type (body c).

(** What can stand in the [name] slot of a registry key: a [str], or the
    object [itertools.chain[0]] that [get_app_command] puts there. *)
Inductive name_value :=
| Str (s : string)
| ChainAlias.

Definition name_value_eqb (a b : name_value) : bool :=
  match a, b with
  | Str s, Str s' => String.eqb s s'
  | ChainAlias, ChainAlias => true
  | _, _ => false
  end.

Lemma name_value_eqb_eq a b : name_value_eqb a b = true <-> a = b.
Proof.
  destruct a as [s|], b as [s'|]; simpl; try (split; congruence).
  rewrite String.eqb_eq. split; congruence.
Qed.

#[export] Instance PyEq_name_value : PyEq name_value :=
  {| py_eqb := name_value_eqb; py_eqb_eq := name_value_eqb_eq |}.

(** [class AppCommandMetadata(NamedTuple)]: name, guild_id, type. *)
Record AppCommandMetadata := {
  meta_name : name_value;
  meta_guild_id : option Z;
  meta_type : ApplicationCommandType
}.

Definition meta_eqb (a b : AppCommandMetadata) : bool :=
  py_eqb (meta_name a) (meta_name b)
  && py_eqb (meta_guild_id a) (meta_guild_id b)
  && py_eqb (meta_type a) (meta_type b).

Lemma meta_eqb_eq a b : meta_eqb a b = true <-> a = b.
Proof.
  destruct a as [n g t], b as [n' g' t']; unfold meta_eqb; simpl meta_name;
    simpl meta_guild_id; simpl meta_type.
  rewrite !andb_true_iff, !py_eqb_eq. split.
  - intros [[-> ->] ->]; reflexivity.
  - intros E; inversion E; auto.
Qed.

#[export] Instance PyEq_meta : PyEq AppCommandMetadata :=
  {| py_eqb := meta_eqb; py_eqb_eq := meta_eqb_eq |}.

(** Exceptions the embedded code raises, catches or lets through. *)
Inductive py_exn :=
| TypeError
| CommandRegistrationError (name : string) (guild_id : option Z)
| HTTPException
| CommandError
| CheckFailure
| OtherException.

Inductive py_result (A : Type) :=
| Returned (a : A)
| Raised (e : py_exn).
Arguments Returned {A} a.
Arguments Raised {A} e.

(** ** Command registry *)

(** [self._all_app_commands] *)
Definition Registry := PyDict.dict AppCommandMetadata InvokableApplicationCommand.

(** Truth value of an optional sequence: [None] and the empty one are false. *)
Definition truthy_seq {A} (l : option (list A)) : bool :=
  match l with
  | Some (_ :: _) => true
  | _ => false
  end.

(** Truth value of an optional integer: [None] and [0] are false. *)
Definition truthy_int (g : option Z) : bool :=
  match g with
  | Some z => negb (z =? 0)%Z
  | None => false
  end.

(** Modelled from the spec: [disnake.utils.get] (disnake/utils.py is not
    among the sources), called on the registry with [name], [type] and
    [guild_id]: the first key whose three attributes equal the wanted
    values, [None] when there is none.  Iterating a dictionary yields its
    keys. *)
Definition utils_get (reg : Registry) (n : string)
    (t : ApplicationCommandType) (g : option Z) : option AppCommandMetadata :=
  find (fun m => py_eqb (meta_name m) (Str n) && py_eqb (meta_type m) t
                 && py_eqb (meta_guild_id m) g)
       (PyDict.keys reg).

Definition metadata (n : string) (g : option Z) (t : ApplicationCommandType)
  : AppCommandMetadata :=
  {| meta_name := Str n; meta_guild_id := g; meta_type := t |}.

(** The loop [for guild_id in command.guild_ids] of the three [add_*]
    methods.  The dictionary is updated in place, so what was inserted
    before a raise stays inserted. *)
Fixpoint register_in_guilds (reg : Registry) (cmd : InvokableApplicationCommand)
    (gs : list Z) : Registry * py_result unit :=
  match gs with
  | [] => (reg, Returned tt)
  | guild_id :: rest =>
      match utils_get reg (cmd_name cmd) (cmd_type cmd) (Some guild_id) with
      | Some _ =>
          (reg, Raised (CommandRegistrationError (cmd_name cmd) (Some guild_id)))
      | None =>
          register_in_guilds
            (PyDict.set reg (metadata (cmd_name cmd) (Some guild_id) (cmd_type cmd)) cmd)
            cmd rest
      end
  end.

(** The part the three [add_*] methods share, after their [isinstance]
    test: a key tuple is never empty, so the result of [utils.get] is true
    exactly when a key was found.  ([body.localize(self.i18n)] fills
    localization tables and touches neither the registry nor a field read
    here.) *)
Definition register (reg : Registry) (cmd : InvokableApplicationCommand)
  : Registry * py_result unit :=
  if truthy_seq (guild_ids cmd) then
    register_in_guilds reg cmd
      (match guild_ids cmd with Some gs => gs | None => [] end)
  else
    match utils_get reg (cmd_name cmd) (cmd_type cmd) None with
    | Some _ => (reg, Raised (CommandRegistrationError (cmd_name cmd) None))
    | None =>
        (PyDict.set reg (metadata (cmd_name cmd) None (cmd_type cmd)) cmd,
         Returned tt)
    end.

(** [isinstance(command, InvokableSlashCommand)] and its siblings: the
    class of an invokable command fixes the type of its body. *)
Definition add_slash_command (reg : Registry)
    (slash_command : InvokableApplicationCommand) : Registry * py_result unit :=
  if negb (py_eqb (cmd_type slash_command) chat_input)
  then (reg, Raised TypeError)
  else register reg slash_command.

Definition add_user_command (reg : Registry)
    (user_command : InvokableApplicationCommand) : Registry * py_result unit :=
  if negb (py_eqb (cmd_type user_command) user)
  then (reg, Raised TypeError)
  else register reg user_command.

Definition add_message_command (reg : Registry)
    (message_command : InvokableApplicationCommand) : Registry * py_result unit :=
  if negb (py_eqb (cmd_type message_command) message)
  then (reg, Raised TypeError)
  else register reg message_command.

(** [remove_slash_command]: a false [guild_id] ([None] or [0]) addresses the
    global key. *)
Definition remove_slash_command (reg : Registry) (n : string)
    (guild_id : option Z) : Registry * option InvokableApplicationCommand :=
  let meta :=
    if truthy_int guild_id then metadata n guild_id chat_input
    else metadata n None chat_input in
  let (command, reg') := PyDict.pop reg meta in
  match command with
  | None => (reg', None)
  | Some c => (reg', Some c)
  end.

Definition remove_user_command (reg : Registry) (n : string)
    (guild_id : option Z) : Registry * option InvokableApplicationCommand :=
  let meta := metadata n guild_id user in
  let (command, reg') := PyDict.pop reg meta in
  match command with
  | None => (reg', None)
  | Some c => (reg', Some c)
  end.

Definition remove_message_command (reg : Registry) (n : string)
    (guild_id : option Z) : Registry * option InvokableApplicationCommand :=
  let meta := metadata n guild_id message in
  let (command, reg') := PyDict.pop reg meta in
  match command with
  | None => (reg', None)
  | Some c => (reg', Some c)
  end.

(** [chain[0]] inside [get_app_command]: no local [chain] is bound there, so
    the name is the module's [from itertools import chain].  From Python 3.9
    on the class can be subscripted and [chain[0]] is a generic alias, an
    object that is hashable and equal to no string; before 3.9 the
    subscription raises [TypeError]. *)
Definition chain_getitem_0 (py39 : bool) : py_result name_value :=
  if py39 then Returned ChainAlias else Raised TypeError.

(** [get_app_command(name, type, guild_id=...)]; [name] is a [str], so the
    [isinstance] guard passes. *)
Definition get_app_command (py39 : bool) (reg : Registry) (n : string)
    (t : ApplicationCommandType) (guild_id : option Z)
  : py_result (option InvokableApplicationCommand) :=
  match chain_getitem_0 py39 with
  | Raised e => Raised e
  | Returned key_name =>
      let command :=
        PyDict.get reg {| meta_name := key_name; meta_guild_id := guild_id;
                          meta_type := t |} in
      match command with
      | None => Returned None
      | Some c => Returned (Some c)
      end
  end.

(** The keys [register] writes: names in the registry are strings. *)
Definition str_keyed (reg : Registry) : Prop :=
  forall m, In m (PyDict.keys reg) -> exists s, meta_name m = Str s.

(** ** Diff engine *)

(** [class _Diff(TypedDict)] *)
Record _Diff := {
  no_changes : list ApplicationCommand;
  upsert : list ApplicationCommand;
  edit : list ApplicationCommand;
  delete : list ApplicationCommand
}.

Definition CommandMap := PyDict.dict (string * ApplicationCommandType) ApplicationCommand.

(** Remote snapshots: commands by remote id, and such a table per guild. *)
Definition Snapshot := PyDict.dict (option Z) ApplicationCommand.

Record ConnectionState := {
  _global_application_commands : Snapshot;
  _guild_application_commands : PyDict.dict (option Z) Snapshot
}.

(** [class ApplicationCommandSyncFlags] (disnake/ext/commands/flags.py),
    the switches the source reads. *)
Record ApplicationCommandSyncFlags := {
  sync_commands : bool;
  sync_commands_debug : bool;
  global_commands : bool;
  guild_commands : bool;
  allow_command_deletion : bool
}.

(** The state of [InteractionBotBase] inside a [disnake.Client]. *)
Record Bot := {
  _command_sync : ApplicationCommandSyncFlags;
  _sync_queued : bool;
  _test_guilds : option (list Z);
  _all_app_commands : Registry;
  _is_closed : bool;
  loop_is_closed : bool;
  _connection : ConnectionState
}.

Definition with_connection (bot : Bot) (conn : ConnectionState) : Bot :=
  {| _command_sync := _command_sync bot; _sync_queued := _sync_queued bot;
     _test_guilds := _test_guilds bot; _all_app_commands := _all_app_commands bot;
     _is_closed := _is_closed bot; loop_is_closed := loop_is_closed bot;
     _connection := conn |}.

Definition with_registry (bot : Bot) (reg : Registry) : Bot :=
  {| _command_sync := _command_sync bot; _sync_queued := _sync_queued bot;
     _test_guilds := _test_guilds bot; _all_app_commands := reg;
     _is_closed := _is_closed bot; loop_is_closed := loop_is_closed bot;
     _connection := _connection bot |}.

(** An inbound interaction: [data.id], [data.type] ([None] for a type that
    is none of the three), [guild_id]. *)
Record Interaction := {
  data_id : Z;
  data_type : option ApplicationCommandType;
  interaction_guild_id : option Z
}.

(** What a run does to the outside, in order. *)
Inductive effect :=
| BulkOverwriteGlobal (payload : list ApplicationCommand)
| BulkOverwriteGuild (guild_id : option Z) (payload : list ApplicationCommand)
| SyncWarningGlobal (e : py_exn)
| SyncWarningGuild (guild_id : Z) (e : py_exn)
| SendMessage (content : string) (ephemeral : bool)
| Dispatch (event_name : string)
| Invoke (command : InvokableApplicationCommand)
| DispatchError (command : InvokableApplicationCommand) (exc : py_exn).

Section Engine.

(** [ApplicationCommand.need_sync] (disnake/app_commands.py) is not among
    the sources: the structural comparison is a parameter. *)
Variable need_sync : ApplicationCommand -> ApplicationCommand -> bool.

(** The transport: what the platform answers to a bulk overwrite. *)
Variable http_bulk_upsert_global :
  list ApplicationCommand -> py_result (list ApplicationCommand).
Variable http_bulk_upsert_guild :
  option Z -> list ApplicationCommand -> py_result (list ApplicationCommand).

(** The collaborators of the dispatcher. *)
Variable send_message : Interaction -> string -> bool -> py_result unit.
Variable application_command_can_run : Interaction -> py_result bool.
Variable invoke : InvokableApplicationCommand -> Interaction -> py_result unit.
Variable dispatch_error :
  InvokableApplicationCommand -> Interaction -> py_exn -> py_result unit.

(** Body of [for name_and_type, new_cmd in new_cmds.items()]. *)
Definition diff_new_step (old_cmds : CommandMap) (diff : _Diff)
    (item : (string * ApplicationCommandType) * ApplicationCommand) : _Diff :=
  let (name_and_type, new_cmd) := item in
  match PyDict.get old_cmds name_and_type with
  | None =>
      {| no_changes := no_changes diff; upsert := upsert diff ++ [new_cmd];
         edit := edit diff; delete := delete diff |}
  | Some old_cmd =>
      if _always_synced new_cmd then
        {| no_changes := no_changes diff ++ [old_cmd]; upsert := upsert diff;
           edit := edit diff; delete := delete diff |}
      else if need_sync new_cmd old_cmd then
        {| no_changes := no_changes diff; upsert := upsert diff;
           edit := edit diff ++ [new_cmd]; delete := delete diff |}
      else
        {| no_changes := no_changes diff ++ [new_cmd]; upsert := upsert diff;
           edit := edit diff; delete := delete diff |}
  end.

(** Body of [for name_and_type, old_cmd in old_cmds.items()]. *)
Definition diff_old_step (new_cmds : CommandMap) (diff : _Diff)
    (item : (string * ApplicationCommandType) * ApplicationCommand) : _Diff :=
  let (name_and_type, old_cmd) := item in
  if negb (PyDict.contains new_cmds name_and_type) then
    {| no_changes := no_changes diff; upsert := upsert diff;
       edit := edit diff; delete := delete diff ++ [old_cmd] |}
  else diff.

Definition _app_commands_diff (new_commands old_commands : list ApplicationCommand)
  : _Diff :=
  let new_cmds := PyDict.of_list name_and_type new_commands in
  let old_cmds := PyDict.of_list name_and_type old_commands in
  let diff := {| no_changes := []; upsert := []; edit := []; delete := [] |} in
  let diff := fold_left (diff_new_step old_cmds) new_cmds diff in
  fold_left (diff_old_step new_cmds) old_cmds diff.

(** ** Synchronizer *)

(** [if not cmd.auto_sync: cmd.body._always_synced = True] *)
Definition mark_always_synced (cmd : InvokableApplicationCommand)
  : InvokableApplicationCommand :=
  if auto_sync cmd then cmd
  else {| body := set_always_synced (body cmd); guild_ids := guild_ids cmd;
          auto_sync := auto_sync cmd |}.

(** [cmd.guild_ids or test_guilds] *)
Definition guild_ids_or (a b : option (list Z)) : option (list Z) :=
  if truthy_seq a then a else b.

Definition GuildCommands := PyDict.dict Z (list ApplicationCommand).

(** [guilds[guild_id] = [cmd.body]] for a new guild, [append] otherwise. *)
Definition guilds_append (guilds : GuildCommands) (guild_id : Z)
    (b : ApplicationCommand) : GuildCommands :=
  match PyDict.get guilds guild_id with
  | None => PyDict.set guilds guild_id [b]
  | Some l => PyDict.set guilds guild_id (l ++ [b])
  end.

Definition ordered_step (test_guilds : option (list Z))
    (acc : list ApplicationCommand * GuildCommands)
    (cmd : InvokableApplicationCommand)
  : list ApplicationCommand * GuildCommands :=
  let (global_cmds, guilds) := acc in
  match guild_ids_or (guild_ids cmd) test_guilds with
  | None => (global_cmds ++ [body cmd], guilds)
  | Some gids =>
      (global_cmds,
       fold_left (fun g guild_id => guilds_append g guild_id (body cmd)) gids guilds)
  end.

(** [_ordered_unsynced_commands]: the marker is written into the command
    objects the registry holds, then the bodies are sorted by scope.  A
    command registered for several guilds is met once per key. *)
Definition _ordered_unsynced_commands (reg : Registry)
    (test_guilds : option (list Z))
  : Registry * (list ApplicationCommand * GuildCommands) :=
  let reg' := map (fun kv => (fst kv, mark_always_synced (snd kv))) reg in
  (reg', fold_left (ordered_step test_guilds) (PyDict.values reg') ([], [])).

(** Modelled from the spec: [Client.bulk_overwrite_global_commands] and
    [Client.bulk_overwrite_guild_commands] (disnake/client.py and
    disnake/state.py are not among the sources), the spec's
    [bulk_replace_commands(scope, list) -> list<RemoteCommand> | fails].
    The call goes to the transport; the command list it returns becomes
    the RemoteSnapshot of the scope, the mapping from remote id to remote
    command; a failure leaves the snapshot as it was. *)
Definition bulk_overwrite_global_commands (conn : ConnectionState)
    (payload : list ApplicationCommand)
  : ConnectionState * py_result (list ApplicationCommand) :=
  match http_bulk_upsert_global payload with
  | Returned commands =>
      ({| _global_application_commands := PyDict.of_list id commands;
          _guild_application_commands := _guild_application_commands conn |},
       Returned commands)
  | Raised e => (conn, Raised e)
  end.

Definition bulk_overwrite_guild_commands (conn : ConnectionState)
    (guild_id : option Z) (payload : list ApplicationCommand)
  : ConnectionState * py_result (list ApplicationCommand) :=
  match http_bulk_upsert_guild guild_id payload with
  | Returned commands =>
      ({| _global_application_commands := _global_application_commands conn;
          _guild_application_commands :=
            PyDict.set (_guild_application_commands conn) guild_id
                       (PyDict.of_list id commands) |},
       Returned commands)
  | Raised e => (conn, Raised e)
  end.

(** [diff["no_changes"] += diff["delete"]; diff["delete"].clear()] *)
Definition keep_deleted (diff : _Diff) : _Diff :=
  {| no_changes := no_changes diff ++ delete diff; upsert := upsert diff;
     edit := edit diff; delete := [] |}.

(** The guard of the global path: [if not allow_command_deletion]. *)
Definition global_policy (flags : ApplicationCommandSyncFlags) (diff : _Diff)
  : _Diff :=
  if negb (allow_command_deletion flags) then keep_deleted diff else diff.

(** The guard of the guild path: [if allow_command_deletion]. *)
Definition guild_policy (flags : ApplicationCommandSyncFlags) (diff : _Diff)
  : _Diff :=
  if allow_command_deletion flags then keep_deleted diff else diff.

Definition nonempty {A} (l : list A) : bool :=
  match l with [] => false | _ :: _ => true end.

(** [bool(diff["upsert"]) or bool(diff["edit"]) or bool(diff["delete"])] *)
Definition update_required (diff : _Diff) : bool :=
  nonempty (upsert diff) || nonempty (edit diff) || nonempty (delete diff).

(** [diff["no_changes"] + diff["edit"] + diff["upsert"]] *)
Definition to_send (diff : _Diff) : list ApplicationCommand :=
  no_changes diff ++ edit diff ++ upsert diff.

Definition global_diff (bot : Bot) (global_cmds : list ApplicationCommand)
  : _Diff :=
  global_policy (_command_sync bot)
    (_app_commands_diff global_cmds
       (PyDict.values (_global_application_commands (_connection bot)))).

(** The global branch of [_sync_application_commands].  Debug logging is
    left out: it reads the diff and changes nothing. *)
Definition sync_global (bot : Bot) (global_cmds : list ApplicationCommand)
  : Bot * list effect :=
  let diff := global_diff bot global_cmds in
  if update_required diff then
    let (conn, res) := bulk_overwrite_global_commands (_connection bot) (to_send diff) in
    match res with
    | Returned _ => (with_connection bot conn, [BulkOverwriteGlobal (to_send diff)])
    | Raised e =>
        (with_connection bot conn,
         [BulkOverwriteGlobal (to_send diff); SyncWarningGlobal e])
    end
  else (bot, []).

(** [self._connection._guild_application_commands.get(guild_id, {})] *)
Definition current_guild_cmds (conn : ConnectionState) (guild_id : Z) : Snapshot :=
  match PyDict.get (_guild_application_commands conn) (Some guild_id) with
  | Some s => s
  | None => []
  end.

Definition guild_diff (bot : Bot) (guild_id : Z) (cmds : list ApplicationCommand)
  : _Diff :=
  guild_policy (_command_sync bot)
    (_app_commands_diff cmds
       (PyDict.values (current_guild_cmds (_connection bot) guild_id))).

(** One turn of [for guild_id, cmds in guild_cmds.items()]. *)
Definition sync_guild (acc : Bot * list effect)
    (item : Z * list ApplicationCommand) : Bot * list effect :=
  let (bot, trace) := acc in
  let (guild_id, cmds) := item in
  let diff := guild_diff bot guild_id cmds in
  if update_required diff then
    let (conn, res) :=
      bulk_overwrite_guild_commands (_connection bot) (Some guild_id) (to_send diff) in
    match res with
    | Returned _ =>
        (with_connection bot conn,
         trace ++ [BulkOverwriteGuild (Some guild_id) (to_send diff)])
    | Raised e =>
        (with_connection bot conn,
         trace ++ [BulkOverwriteGuild (Some guild_id) (to_send diff);
                   SyncWarningGuild guild_id e])
    end
  else (bot, trace).

(** The two branches of [_sync_application_commands]: global scope first,
    then the guilds in the order of [guild_cmds]. *)
Definition sync_scopes (bot : Bot) (global_cmds : list ApplicationCommand)
    (guild_cmds : GuildCommands) : Bot * list effect :=
  let (bot, trace) :=
    if global_commands (_command_sync bot) then sync_global bot global_cmds
    else (bot, []) in
  if guild_commands (_command_sync bot)
  then fold_left sync_guild guild_cmds (bot, trace)
  else (bot, trace).

Definition _sync_application_commands (bot : Bot) : Bot * list effect :=
  if negb (sync_commands (_command_sync bot)) || _is_closed bot || loop_is_closed bot
  then (bot, [])
  else
    let '(reg, (global_cmds, guild_cmds)) :=
      _ordered_unsynced_commands (_all_app_commands bot) (_test_guilds bot) in
    sync_scopes (with_registry bot reg) global_cmds guild_cmds.

(** ** Dispatcher *)

(** Modelled from the spec: [Client.get_global_command] and
    [Client.get_guild_command] (disnake/client.py is not among the
    sources): lookup by remote-assigned id in the global snapshot, and in
    the snapshot of the given guild. *)
Definition get_global_command (bot : Bot) (command_id : Z)
  : option ApplicationCommand :=
  PyDict.get (_global_application_commands (_connection bot)) (Some command_id).

Definition get_guild_command (bot : Bot) (guild_id : option Z) (command_id : Z)
  : option ApplicationCommand :=
  match PyDict.get (_guild_application_commands (_connection bot)) guild_id with
  | Some granula => PyDict.get granula (Some command_id)
  | None => None
  end.

(** [try: ... except disnake.HTTPException: pass] *)
Definition except_http_pass {A} (r : py_result A) : py_result unit :=
  match r with
  | Returned _ => Returned tt
  | Raised HTTPException => Returned tt
  | Raised e => Raised e
  end.

(** [except errors.CommandError]: [CheckFailure] derives from it. *)
Definition is_command_error (e : py_exn) : bool :=
  match e with
  | CommandError | CheckFailure => true
  | _ => false
  end.

Definition just_synced_notice : string :=
  "This command has just been synced. More information about this: https://docs.disnake.dev/en/latest/ext/commands/additional_info.html#app-command-sync.".

Definition event_name_of (t : option ApplicationCommandType) : option string :=
  match t with
  | Some chat_input => Some "slash_command"%string
  | Some user => Some "user_command"%string
  | Some message => Some "message_command"%string
  | None => None
  end.

(** The corrective branch for a command id no snapshot knows. *)
Definition resync_unknown (bot : Bot) (interaction : Interaction)
  : Bot * list effect * py_result unit :=
  let (conn, res) :=
    bulk_overwrite_guild_commands (_connection bot)
      (interaction_guild_id interaction) [] in
  let bot := with_connection bot conn in
  let trace := [BulkOverwriteGuild (interaction_guild_id interaction) []] in
  match except_http_pass res with
  | Raised e => (bot, trace, Raised e)
  | Returned _ =>
      let trace := trace ++ [SendMessage just_synced_notice true] in
      match except_http_pass (send_message interaction just_synced_notice true) with
      | Raised e => (bot, trace, Raised e)
      | Returned _ => (bot, trace, Returned tt)
      end
  end.

(** The [try] block of the invocation and its [except errors.CommandError]. *)
Definition invoke_guarded (event_name : string)
    (app_command : InvokableApplicationCommand) (interaction : Interaction)
  : list effect * py_result unit :=
  let (trace, res) :=
    match application_command_can_run interaction with
    | Raised e => ([], Raised e)
    | Returned true =>
        match invoke app_command interaction with
        | Raised e => ([Invoke app_command], Raised e)
        | Returned _ =>
            ([Invoke app_command;
              Dispatch (event_name ++ "_completion")%string], Returned tt)
        end
    | Returned false => ([], Raised CheckFailure)
    end in
  match res with
  | Raised exc =>
      if is_command_error exc
      then (trace ++ [DispatchError app_command exc],
            dispatch_error app_command interaction exc)
      else (trace, Raised exc)
  | Returned _ => (trace, Returned tt)
  end.

(** The routing part: first registered command whose body carries the id. *)
Definition route (bot : Bot) (interaction : Interaction)
  : Bot * list effect * py_result unit :=
  let app_command :=
    find (fun command => py_eqb (id (body command)) (Some (data_id interaction)))
         (PyDict.values (_all_app_commands bot)) in
  match event_name_of (data_type interaction), app_command with
  | Some event_name, Some command =>
      let (trace, res) := invoke_guarded event_name command interaction in
      (bot, Dispatch event_name :: trace, res)
  | _, _ => (bot, [], Returned tt)
  end.

Definition process_application_commands (bot : Bot) (interaction : Interaction)
  : Bot * list effect * py_result unit :=
  if sync_commands (_command_sync bot) && negb (_sync_queued bot) then
    let known_command := get_global_command bot (data_id interaction) in
    let known_command :=
      match known_command with
      | None => get_guild_command bot (interaction_guild_id interaction)
                                  (data_id interaction)
      | Some c => Some c
      end in
    match known_command with
    | None => resync_unknown bot interaction
    | Some _ => route bot interaction
    end
  else route bot interaction.

End Engine.

(** ** Reachable registries and sample data *)

(** The registries the registration API can build from the empty one. *)
Inductive reachable : Registry -> Prop :=
| reach_empty : reachable []
| reach_add_slash reg cmd :
    reachable reg -> reachable (fst (add_slash_command reg cmd))
| reach_add_user reg cmd :
    reachable reg -> reachable (fst (add_user_command reg cmd))
| reach_add_message reg cmd :
    reachable reg -> reachable (fst (add_message_command reg cmd))
| reach_remove_slash reg n g :
    reachable reg -> reachable (fst (remove_slash_command reg n g))
| reach_remove_user reg n g :
    reachable reg -> reachable (fst (remove_user_command reg n g))
| reach_remove_message reg n g :
    reachable reg -> reachable (fst (remove_message_command reg n g)).

(** The scopes a command is declared for: its guilds, or the global one. *)
Definition scopes (cmd : InvokableApplicationCommand) : list (option Z) :=
  if truthy_seq (guild_ids cmd)
  then map Some (match guild_ids cmd with Some gs => gs | None => [] end)
  else [None].

Definition key_of (cmd : InvokableApplicationCommand) (g : option Z)
  : AppCommandMetadata := metadata (cmd_name cmd) g (cmd_type cmd).

(** The registry after the guild loop went through [gs] without a raise. *)
Definition inserted (reg : Registry) (cmd : InvokableApplicationCommand)
    (gs : list Z) : Registry :=
  fold_left (fun r g => PyDict.set r (key_of cmd (Some g)) cmd) gs reg.

(** Modelled from the spec: the structural comparison behind [need_sync]
    (disnake/app_commands.py is not among the sources): two commands are
    equal iff every externally visible field matches (description, options,
    permissions); a difference asks for a sync. *)
Definition visible_eqb (a b : ApplicationCommand) : bool :=
  String.eqb (description a) (description b)
  && (if list_eq_dec string_dec (options a) (options b) then true else false)
  && py_eqb (default_member_permissions a) (default_member_permissions b).

Definition structural_need_sync (a b : ApplicationCommand) : bool :=
  negb (visible_eqb a b).

Definition command_body (n : string) (t : ApplicationCommandType)
    (d : string) (i : option Z) : ApplicationCommand :=
  {| name := n; type := t; id := i; description := d; options := [];
     default_member_permissions := None; _always_synced := false |}.

Definition command (n : string) (t : ApplicationCommandType)
    (gs : option (list Z)) : InvokableApplicationCommand :=
  {| body := command_body n t "" None; guild_ids := gs; auto_sync := true |}.

(** ** The buckets in closed form *)

Section Buckets.
Variable need_sync : ApplicationCommand -> ApplicationCommand -> bool.
Variables new_cmds old_cmds : CommandMap.

Definition upsert_of (item : (string * ApplicationCommandType) * ApplicationCommand)
  : list ApplicationCommand :=
  match PyDict.get old_cmds (fst item) with
  | None => [snd item]
  | Some _ => []
  end.

Definition edit_of (item : (string * ApplicationCommandType) * ApplicationCommand)
  : list ApplicationCommand :=
  match PyDict.get old_cmds (fst item) with
  | None => []
  | Some old_cmd =>
      if _always_synced (snd item) then []
      else if need_sync (snd item) old_cmd then [snd item] else []
  end.

Definition no_changes_of (item : (string * ApplicationCommandType) * ApplicationCommand)
  : list ApplicationCommand :=
  match PyDict.get old_cmds (fst item) with
  | None => []
  | Some old_cmd =>
      if _always_synced (snd item) then [old_cmd]
      else if need_sync (snd item) old_cmd then [] else [snd item]
  end.

Definition delete_of (item : (string * ApplicationCommandType) * ApplicationCommand)
  : list ApplicationCommand :=
  if PyDict.contains new_cmds (fst item) then [] else [snd item].

End Buckets.

(** Both deletion guards are [keep_deleted] under a condition. *)
Definition apply_keep (keep : bool) (diff : _Diff) : _Diff :=
  if keep then keep_deleted diff else diff.

(** Two states of the bot that differ at most in the snapshots. *)
Definition same_config (bot bot' : Bot) : Prop :=
  _command_sync bot' = _command_sync bot
  /\ _all_app_commands bot' = _all_app_commands bot
  /\ _test_guilds bot' = _test_guilds bot
  /\ _is_closed bot' = _is_closed bot
  /\ loop_is_closed bot' = loop_is_closed bot.

(** Two states of the bot that differ at most in the guild snapshots. *)
Definition same_setup (bot bot' : Bot) : Prop :=
  same_config bot bot'
  /\ _global_application_commands (_connection bot')
     = _global_application_commands (_connection bot).

(** ** Observing a synchronization pass *)

Inductive scope :=
| GlobalScope
| GuildScope (guild_id : Z).

(** The payloads of the bulk-overwrite calls a trace holds for a scope. *)
Definition pushes_of (s : scope) (e : effect) : list (list ApplicationCommand) :=
  match e, s with
  | BulkOverwriteGlobal payload, GlobalScope => [payload]
  | BulkOverwriteGuild (Some g') payload, GuildScope g =>
      if (g' =? g)%Z then [payload] else []
  | _, _ => []
  end.

Definition pushes_for (s : scope) (trace : list effect)
  : list (list ApplicationCommand) :=
  flat_map (pushes_of s) trace.

Section Platform.
Variable need_sync : ApplicationCommand -> ApplicationCommand -> bool.
Variable http_bulk_upsert_global :
  list ApplicationCommand -> py_result (list ApplicationCommand).
Variable http_bulk_upsert_guild :
  option Z -> list ApplicationCommand -> py_result (list ApplicationCommand).

(** The platform kept what it was sent: command by command the answer has
    the key of what was sent and does not need a sync against it, and the
    remote ids it assigned are distinct. *)
Definition stored (payload commands : list ApplicationCommand) : Prop :=
  Forall2 (fun p r => name_and_type r = name_and_type p /\ need_sync p r = false)
          payload commands
  /\ NoDup (map id commands).

(** Every bulk overwrite succeeds and is answered with what was stored. *)
Definition faithful_platform : Prop :=
  (forall payload, exists commands,
      http_bulk_upsert_global payload = Returned commands
      /\ stored payload commands)
  /\ (forall g payload, exists commands,
      http_bulk_upsert_guild g payload = Returned commands
      /\ stored payload commands).

(** A scope is settled when its diff asks for no update. *)
Definition global_settled (bot : Bot) (global_cmds : list ApplicationCommand)
  : Prop :=
  update_required (global_diff need_sync bot global_cmds) = false.

Definition guild_settled (bot : Bot) (item : Z * list ApplicationCommand)
  : Prop :=
  update_required (guild_diff need_sync bot (fst item) (snd item)) = false.

End Platform.

(** A platform for the concrete checks: it stores the payload and numbers
    the commands from 1 in payload order. *)
Definition with_id (i : Z) (cmd : ApplicationCommand) : ApplicationCommand :=
  {| name := name cmd; type := type cmd; id := Some i;
     description := description cmd; options := options cmd;
     default_member_permissions := default_member_permissions cmd;
     _always_synced := _always_synced cmd |}.

Fixpoint number_from (i : Z) (l : list ApplicationCommand)
  : list ApplicationCommand :=
  match l with
  | [] => []
  | c :: r => with_id i c :: number_from (i + 1) r
  end.

Definition echo_global (payload : list ApplicationCommand)
  : py_result (list ApplicationCommand) := Returned (number_from 1 payload).

Definition echo_guild (g : option Z) (payload : list ApplicationCommand)
  : py_result (list ApplicationCommand) := Returned (number_from 1 payload).

Definition flags_of (deletion : bool) : ApplicationCommandSyncFlags :=
  {| sync_commands := true; sync_commands_debug := false;
     global_commands := true; guild_commands := true;
     allow_command_deletion := deletion |}.

Definition bot_of (deletion : bool) (reg : Registry) (conn : ConnectionState)
  : Bot :=
  {| _command_sync := flags_of deletion; _sync_queued := false;
     _test_guilds := None; _all_app_commands := reg; _is_closed := false;
     loop_is_closed := false; _connection := conn |}.

(** The contract of the transport: a call returns, or fails with the
    transport error [HTTPException]. *)
Definition transport_outcome {A} (r : py_result A) : Prop :=
  forall e, r = Raised e -> e = HTTPException.

(** An always-returning transport for the concrete checks. *)
Definition send_ok (i : Interaction) (content : string) (ephemeral : bool)
  : py_result unit := Returned tt.

Definition can_run_ok (i : Interaction) : py_result bool := Returned true.

Definition invoke_ok (c : InvokableApplicationCommand) (i : Interaction)
  : py_result unit := Returned tt.

Definition dispatch_error_ok (c : InvokableApplicationCommand) (i : Interaction)
    (e : py_exn) : py_result unit := Returned tt.

Definition http_guild_fails (g : option Z) (payload : list ApplicationCommand)
  : py_result (list ApplicationCommand) := Raised HTTPException.

(** A clear call and a reply that fail with an exception other than
    [disnake.HTTPException]. *)
Definition http_guild_raises (g : option Z) (payload : list ApplicationCommand)
  : py_result (list ApplicationCommand) := Raised OtherException.

Definition send_raises (i : Interaction) (content : string) (ephemeral : bool)
  : py_result unit := Raised OtherException.

Definition is_invocation (e : effect) : bool :=
  match e with
  | Invoke _ | Dispatch _ | DispatchError _ _ => true
  | _ => false
  end.

(** ** Further parts of the module *)

(** *** Views of the registry *)

(** [all_app_commands]: [list(self._all_app_commands.values())]. *)
Definition all_app_commands (reg : Registry) : list InvokableApplicationCommand :=
  PyDict.values reg.

(** The comprehension behind [slash_commands], [user_commands] and
    [message_commands]: the commands whose key has the given type, in
    registry order.  The source collects them in a set: a command that
    sits under several keys is listed here once per key. *)
Definition commands_under (t : ApplicationCommandType) (reg : Registry)
  : list InvokableApplicationCommand :=
  map snd (filter (fun kv => py_eqb (meta_type (fst kv)) t) reg).

Definition slash_commands (reg : Registry) := commands_under chat_input reg.
Definition user_commands (reg : Registry) := commands_under user reg.
Definition message_commands (reg : Registry) := commands_under message reg.

(** [get_user_command] and [get_message_command] hand over to
    [get_app_command]. *)
Definition get_user_command (py39 : bool) (reg : Registry) (n : string)
    (guild_id : option Z) : py_result (option InvokableApplicationCommand) :=
  get_app_command py39 reg n user guild_id.

Definition get_message_command (py39 : bool) (reg : Registry) (n : string)
    (guild_id : option Z) : py_result (option InvokableApplicationCommand) :=
  get_app_command py39 reg n message guild_id.

(** *** Global checks *)

Section Checks.
(** A check is a function object: it is compared by identity and called
    on the interaction. *)
Context {CheckFn : Type} `{PyEq CheckFn}.
Variable run_check : CheckFn -> Interaction -> py_result bool.

(** The six lists [__init__] creates empty. *)
Record CheckLists := {
  _slash_command_checks : list CheckFn;
  _slash_command_check_once : list CheckFn;
  _user_command_checks : list CheckFn;
  _user_command_check_once : list CheckFn;
  _message_command_checks : list CheckFn;
  _message_command_check_once : list CheckFn
}.

Definition no_checks : CheckLists :=
  {| _slash_command_checks := []; _slash_command_check_once := [];
     _user_command_checks := []; _user_command_check_once := [];
     _message_command_checks := []; _message_command_check_once := [] |}.

(** [add_app_command_check] *)
Definition add_app_command_check (cl : CheckLists) (func : CheckFn)
    (call_once slash user_ message_ : bool) : CheckLists :=
  let cl :=
    if slash then
      if call_once then
        {| _slash_command_checks := _slash_command_checks cl;
           _slash_command_check_once := _slash_command_check_once cl ++ [func];
           _user_command_checks := _user_command_checks cl;
           _user_command_check_once := _user_command_check_once cl;
           _message_command_checks := _message_command_checks cl;
           _message_command_check_once := _message_command_check_once cl |}
      else
        {| _slash_command_checks := _slash_command_checks cl ++ [func];
           _slash_command_check_once := _slash_command_check_once cl;
           _user_command_checks := _user_command_checks cl;
           _user_command_check_once := _user_command_check_once cl;
           _message_command_checks := _message_command_checks cl;
           _message_command_check_once := _message_command_check_once cl |}
    else cl in
  let cl :=
    if user_ then
      if call_once then
        {| _slash_command_checks := _slash_command_checks cl;
           _slash_command_check_once := _slash_command_check_once cl;
           _user_command_checks := _user_command_checks cl;
           _user_command_check_once := _user_command_check_once cl ++ [func];
           _message_command_checks := _message_command_checks cl;
           _message_command_check_once := _message_command_check_once cl |}
      else
        {| _slash_command_checks := _slash_command_checks cl;
           _slash_command_check_once := _slash_command_check_once cl;
           _user_command_checks := _user_command_checks cl ++ [func];
           _user_command_check_once := _user_command_check_once cl;
           _message_command_checks := _message_command_checks cl;
           _message_command_check_once := _message_command_check_once cl |}
    else cl in
  if message_ then
    if call_once then
      {| _slash_command_checks := _slash_command_checks cl;
         _slash_command_check_once := _slash_command_check_once cl;
         _user_command_checks := _user_command_checks cl;
         _user_command_check_once := _user_command_check_once cl;
         _message_command_checks := _message_command_checks cl;
         _message_command_check_once := _message_command_check_once cl ++ [func] |}
    else
      {| _slash_command_checks := _slash_command_checks cl;
         _slash_command_check_once := _slash_command_check_once cl;
         _user_command_checks := _user_command_checks cl;
         _user_command_check_once := _user_command_check_once cl;
         _message_command_checks := _message_command_checks cl ++ [func];
         _message_command_check_once := _message_command_check_once cl |}
  else cl.

(** [list.remove(x)]: the first element equal to [x] goes; [None] stands
    for the [ValueError] of a list that has none. *)
Fixpoint list_remove (l : list CheckFn) (x : CheckFn) : option (list CheckFn) :=
  match l with
  | [] => None
  | y :: r =>
      if py_eqb y x then Some r
      else match list_remove r x with
           | Some r' => Some (y :: r')
           | None => None
           end
  end.

(** [try: check_list.remove(func)  except ValueError: pass] *)
Definition remove_or_pass (check_list : list CheckFn) (func : CheckFn) : list CheckFn :=
  match list_remove check_list func with
  | Some l => l
  | None => check_list
  end.

(** [remove_app_command_check] *)
Definition remove_app_command_check (cl : CheckLists) (func : CheckFn)
    (call_once slash user_ message_ : bool) : CheckLists :=
  let cl :=
    if slash then
      if call_once then
        {| _slash_command_checks := _slash_command_checks cl;
           _slash_command_check_once :=
             remove_or_pass (_slash_command_check_once cl) func;
           _user_command_checks := _user_command_checks cl;
           _user_command_check_once := _user_command_check_once cl;
           _message_command_checks := _message_command_checks cl;
           _message_command_check_once := _message_command_check_once cl |}
      else
        {| _slash_command_checks := remove_or_pass (_slash_command_checks cl) func;
           _slash_command_check_once := _slash_command_check_once cl;
           _user_command_checks := _user_command_checks cl;
           _user_command_check_once := _user_command_check_once cl;
           _message_command_checks := _message_command_checks cl;
           _message_command_check_once := _message_command_check_once cl |}
    else cl in
  let cl :=
    if user_ then
      if call_once then
        {| _slash_command_checks := _slash_command_checks cl;
           _slash_command_check_once := _slash_command_check_once cl;
           _user_command_checks := _user_command_checks cl;
           _user_command_check_once :=
             remove_or_pass (_user_command_check_once cl) func;
           _message_command_checks := _message_command_checks cl;
           _message_command_check_once := _message_command_check_once cl |}
      else
        {| _slash_command_checks := _slash_command_checks cl;
           _slash_command_check_once := _slash_command_check_once cl;
           _user_command_checks := remove_or_pass (_user_command_checks cl) func;
           _user_command_check_once := _user_command_check_once cl;
           _message_command_checks := _message_command_checks cl;
           _message_command_check_once := _message_command_check_once cl |}
    else cl in
  if message_ then
    if call_once then
      {| _slash_command_checks := _slash_command_checks cl;
         _slash_command_check_once := _slash_command_check_once cl;
         _user_command_checks := _user_command_checks cl;
         _user_command_check_once := _user_command_check_once cl;
         _message_command_checks := _message_command_checks cl;
         _message_command_check_once :=
           remove_or_pass (_message_command_check_once cl) func |}
    else
      {| _slash_command_checks := _slash_command_checks cl;
         _slash_command_check_once := _slash_command_check_once cl;
         _user_command_checks := _user_command_checks cl;
         _user_command_check_once := _user_command_check_once cl;
         _message_command_checks :=
           remove_or_pass (_message_command_checks cl) func;
         _message_command_check_once := _message_command_check_once cl |}
  else cl.

(** The decorator [application_command_check]: with no category chosen it
    registers the check for all three. *)
Definition application_command_check (cl : CheckLists) (func : CheckFn)
    (call_once slash user_ message_ : bool) : CheckLists :=
  if negb (slash || user_ || message_)
  then add_app_command_check cl func call_once true true true
  else add_app_command_check cl func call_once slash user_ message_.

(** Modelled from the spec: [disnake.utils.async_all] (disnake/utils.py is
    not among the sources), the short-circuit evaluation of the checks:
    each is called and awaited in turn, the first false result ends the
    run with [False], and an exception of a check goes through. *)
Fixpoint async_all (checks : list CheckFn) (inter : Interaction) : py_result bool :=
  match checks with
  | [] => Returned true
  | f :: rest =>
      match run_check f inter with
      | Raised e => Raised e
      | Returned false => Returned false
      | Returned true => async_all rest inter
      end
  end.

(** The list [application_command_can_run] picks; [None] for a command
    type that is none of the three. *)
Definition selected_checks (cl : CheckLists) (inter : Interaction)
    (call_once : bool) : option (list CheckFn) :=
  match data_type inter with
  | Some chat_input =>
      Some (if call_once then _slash_command_check_once cl
            else _slash_command_checks cl)
  | Some user =>
      Some (if call_once then _user_command_check_once cl
            else _user_command_checks cl)
  | Some message =>
      Some (if call_once then _message_command_check_once cl
            else _message_command_checks cl)
  | None => None
  end.

(** [application_command_can_run] *)
Definition application_command_can_run (cl : CheckLists) (inter : Interaction)
    (call_once : bool) : py_result bool :=
  match selected_checks cl inter call_once with
  | None => Returned true
  | Some checks =>
      if (List.length checks =? 0)%nat then Returned true
      else async_all checks inter
  end.

End Checks.

(** The switch of a command type among the three category parameters. *)
Definition category_flag (t : ApplicationCommandType)
    (slash user_ message_ : bool) : bool :=
  match t with
  | chat_input => slash
  | user => user_
  | message => message_
  end.

(** Whether a registration with the given parameters touches the list
    [application_command_can_run] reads for an interaction of type [t]
    when called with [call_once']. *)
Definition reaches (t : option ApplicationCommandType)
    (call_once call_once' slash user_ message_ : bool) : bool :=
  match t with
  | Some t => category_flag t slash user_ message_ && Bool.eqb call_once call_once'
  | None => false
  end.

(** The lists a call with the given parameters touches. *)
Definition touched_lists {CheckFn : Type} (cl : @CheckLists CheckFn)
    (call_once slash user_ message_ : bool) : list (list CheckFn) :=
  (if slash
   then [if call_once then _slash_command_check_once cl
         else _slash_command_checks cl]
   else [])
  ++ (if user_
      then [if call_once then _user_command_check_once cl
            else _user_command_checks cl]
      else [])
  ++ (if message_
      then [if call_once then _message_command_check_once cl
            else _message_command_checks cl]
      else []).

(** Sample checks, named by numbers: 1 passes, 2 fails, any other raises. *)
Definition sample_check (f : Z) (inter : Interaction) : py_result bool :=
  if (f =? 1)%Z then Returned true
  else if (f =? 2)%Z then Returned false
  else Raised CommandError.

(** *** Refreshing the snapshots *)

Definition clear_id (cmd : ApplicationCommand) : ApplicationCommand :=
  {| name := name cmd; type := type cmd; id := None;
     description := description cmd; options := options cmd;
     default_member_permissions := default_member_permissions cmd;
     _always_synced := _always_synced cmd |}.

(** [if command.body.id is not None and command.body.id not in
    global_commands: command.body.id = None] *)
Definition drop_stale_id (global_commands : Snapshot)
    (command : InvokableApplicationCommand) : InvokableApplicationCommand :=
  match id (body command) with
  | Some i =>
      if negb (PyDict.contains global_commands (Some i))
      then {| body := clear_id (body command); guild_ids := guild_ids command;
              auto_sync := auto_sync command |}
      else command
  | None => command
  end.

(** [except (disnake.HTTPException, TypeError): pass] *)
Definition is_fetch_error (e : py_exn) : bool :=
  match e with
  | HTTPException | TypeError => true
  | _ => false
  end.

Section Cache.
(** What [fetch_global_commands] and [fetch_guild_commands]
    (disnake/client.py) answer. *)
Variable fetch_global_commands : py_result (list ApplicationCommand).
Variable fetch_guild_commands : Z -> py_result (list ApplicationCommand).

(** The loop [for guild_id in guilds] of [_cache_application_commands]:
    an empty answer leaves the snapshot of the guild as it is. *)
Fixpoint cache_guilds (conn : ConnectionState) (guilds : list Z)
  : ConnectionState * py_result unit :=
  match guilds with
  | [] => (conn, Returned tt)
  | guild_id :: rest =>
      match fetch_guild_commands guild_id with
      | Returned commands =>
          if nonempty commands then
            cache_guilds
              {| _global_application_commands := _global_application_commands conn;
                 _guild_application_commands :=
                   PyDict.set (_guild_application_commands conn) (Some guild_id)
                              (PyDict.of_list id commands) |}
              rest
          else cache_guilds conn rest
      | Raised e =>
          if is_fetch_error e then cache_guilds conn rest
          else (conn, Raised e)
      end
  end.

(** The global part of [_cache_application_commands]. *)
Definition cache_global (bot : Bot) : Bot * py_result unit :=
  match fetch_global_commands with
  | Returned commands =>
      let global_commands := PyDict.of_list id commands in
      ({| _command_sync := _command_sync bot; _sync_queued := _sync_queued bot;
          _test_guilds := _test_guilds bot;
          _all_app_commands :=
            map (fun kv => (fst kv, drop_stale_id global_commands (snd kv)))
                (_all_app_commands bot);
          _is_closed := _is_closed bot; loop_is_closed := loop_is_closed bot;
          _connection :=
            {| _global_application_commands := global_commands;
               _guild_application_commands :=
                 _guild_application_commands (_connection bot) |} |},
       Returned tt)
  | Raised e =>
      if is_fetch_error e then (bot, Returned tt) else (bot, Raised e)
  end.

(** [_cache_application_commands] *)
Definition _cache_application_commands (bot : Bot) : Bot * py_result unit :=
  let '(reg, (_, guilds)) :=
    _ordered_unsynced_commands (_all_app_commands bot) (_test_guilds bot) in
  let bot := with_registry bot reg in
  let (bot, res) := cache_global bot in
  match res with
  | Raised e => (bot, Raised e)
  | Returned _ =>
      let (conn, res) := cache_guilds (_connection bot) (PyDict.keys guilds) in
      (with_connection bot conn, res)
  end.

End Cache.

(** *** Autocompletion *)

(** [inter.guild_id in slash_command.guild_ids] *)
Definition guild_in (guild_id : option Z) (gs : list Z) : bool :=
  match guild_id with
  | Some g => existsb (Z.eqb g) gs
  | None => false
  end.

(** What [process_app_command_autocompletion] leaves behind: the command
    it stored in [inter.application_command], whether it awaited the
    autocompleter of that command, and how the coroutine ended. *)
Record Autocompletion := {
  application_command : option InvokableApplicationCommand;
  autocompleter_called : bool;
  autocompletion_result : py_result unit
}.

Section Autocomplete.
(** [InvokableSlashCommand._call_relevant_autocompleter]
    (disnake/ext/commands/slash_core.py) is not among the sources: how
    awaiting it ends is a parameter. *)
Variable _call_relevant_autocompleter :
  InvokableApplicationCommand -> py_result unit.

(** [process_app_command_autocompletion], on [inter.data.name] and
    [inter.guild_id]. *)
Definition process_app_command_autocompletion (reg : Registry)
    (data_name : string) (guild_id : option Z) : Autocompletion :=
  match PyDict.get reg (metadata data_name guild_id chat_input) with
  | None =>
      {| application_command := None; autocompleter_called := false;
         autocompletion_result := Returned tt |}
  | Some slash_command =>
      if match guild_ids slash_command with
         | None => true
         | Some gs => guild_in guild_id gs
         end
      then {| application_command := Some slash_command;
              autocompleter_called := true;
              autocompletion_result := _call_relevant_autocompleter slash_command |}
      else {| application_command := Some slash_command;
              autocompleter_called := false;
              autocompletion_result := Returned tt |}
  end.

End Autocomplete.

(** *** Reading a trace *)

Definition is_call (e : effect) : bool :=
  match e with
  | BulkOverwriteGlobal _ | BulkOverwriteGuild _ _ => true
  | _ => false
  end.

(** The bulk overwrites of a trace, in order. *)
Definition calls (trace : list effect) : list effect := filter is_call trace.

Section Calls.
Variable need_sync : ApplicationCommand -> ApplicationCommand -> bool.

(** The call a scope asks for, read off its diff. *)
Definition global_call (bot : Bot) (global_cmds : list ApplicationCommand)
  : list effect :=
  if update_required (global_diff need_sync bot global_cmds)
  then [BulkOverwriteGlobal (to_send (global_diff need_sync bot global_cmds))]
  else [].

Definition guild_call (bot : Bot) (item : Z * list ApplicationCommand)
  : list effect :=
  if update_required (guild_diff need_sync bot (fst item) (snd item))
  then [BulkOverwriteGuild (Some (fst item))
          (to_send (guild_diff need_sync bot (fst item) (snd item)))]
  else [].

(** The bulk overwrites a pass asks for, read off the state it starts
    from: the global one first, then the guilds in the order of the guild
    map. *)
Definition expected_calls (bot : Bot) : list effect :=
  if negb (sync_commands (_command_sync bot)) || _is_closed bot || loop_is_closed bot
  then []
  else
    let ordered :=
      _ordered_unsynced_commands (_all_app_commands bot) (_test_guilds bot) in
    let bot0 := with_registry bot (fst ordered) in
    (if global_commands (_command_sync bot)
     then global_call bot0 (fst (snd ordered)) else [])
    ++ (if guild_commands (_command_sync bot)
        then flat_map (guild_call bot0) (snd (snd ordered)) else []).

End Calls.

(** The registry key agrees with the command it holds. *)
Definition consistent (reg : Registry) : Prop :=
  forall k c, In (k, c) reg -> exists g, In g (scopes c) /\ k = key_of c g.

(** The three registration methods, each with the type of its class. *)
Definition adders :
  list (ApplicationCommandType
        * (Registry -> InvokableApplicationCommand -> Registry * py_result unit)) :=
  [(chat_input, add_slash_command); (user, add_user_command);
   (message, add_message_command)].

(** The removal methods that look up the key they are given. *)
Definition removers :
  list (ApplicationCommandType
        * (Registry -> string -> option Z
           -> Registry * option InvokableApplicationCommand)) :=
  [(user, remove_user_command); (message, remove_message_command)].

(** What one command contributes to the global list and to the list of a
    guild in [_ordered_unsynced_commands]. *)
Definition global_part (test_guilds : option (list Z))
    (cmd : InvokableApplicationCommand) : list ApplicationCommand :=
  match guild_ids_or (guild_ids cmd) test_guilds with
  | None => [body cmd]
  | Some _ => []
  end.

Definition guild_part (test_guilds : option (list Z)) (g : Z)
    (cmd : InvokableApplicationCommand) : list ApplicationCommand :=
  match guild_ids_or (guild_ids cmd) test_guilds with
  | None => []
  | Some gids => flat_map (fun g' => if (g' =? g)%Z then [body cmd] else []) gids
  end.

(** The list a guild map holds for a guild, empty for a guild it lacks. *)
Definition guild_list (guilds : GuildCommands) (g : Z) : list ApplicationCommand :=
  match PyDict.get guilds g with
  | Some l => l
  | None => []
  end.

(** A fetch that returns, or fails with one of the two errors
    [_cache_application_commands] catches. *)
Definition tolerated {A} (r : py_result A) : Prop :=
  match r with
  | Returned _ => True
  | Raised e => is_fetch_error e = true
  end.

Definition is_invoke (e : effect) : bool :=
  match e with
  | Invoke _ => true
  | _ => false
  end.

(** What every run of the dispatcher keeps to, whatever its collaborators
    answer: a command is invoked at most once, and then it is a registered
    command whose body carries the id of the interaction, the call-once
    checks returned true and the event of the command type was dispatched
    first; an error is handed to [dispatch_error] only if it is a command
    error, and the coroutine then ends as [dispatch_error] ends; the
    completion event follows a returned invocation only; an exception of
    the invocation that is no command error leaves the coroutine. *)
Definition invocation_discipline
    (can_run : Interaction -> py_result bool)
    (invoke : InvokableApplicationCommand -> Interaction -> py_result unit)
    (dispatch_error :
       InvokableApplicationCommand -> Interaction -> py_exn -> py_result unit)
    (bot : Bot) (interaction : Interaction)
    (trace : list effect) (res : py_result unit) : Prop :=
  (List.length (filter is_invoke trace) <= 1)%nat
  /\ (forall c, In (Invoke c) trace ->
        In c (PyDict.values (_all_app_commands bot))
        /\ id (body c) = Some (data_id interaction)
        /\ can_run interaction = Returned true
        /\ exists event_name rest,
             event_name_of (data_type interaction) = Some event_name
             /\ trace = Dispatch event_name :: Invoke c :: rest)
  /\ (forall c e, In (DispatchError c e) trace ->
        is_command_error e = true /\ res = dispatch_error c interaction e)
  /\ (forall event_name,
        event_name_of (data_type interaction) = Some event_name ->
        In (Dispatch (event_name ++ "_completion")) trace ->
        res = Returned tt
        /\ exists c, In (Invoke c) trace /\ invoke c interaction = Returned tt)
  /\ (forall c e, In (Invoke c) trace -> invoke c interaction = Raised e ->
        is_command_error e = false -> res = Raised e).

(** * Properties *)

(** ** Dictionaries *)

Module PyDictFacts.
Import PyDict.
Section Facts.
Context {K V : Type} `{PyEq K}.
Implicit Types (d : dict K V) (k : K) (v : V).

Lemma get_None_iff d k : get d k = None <-> ~ In k (keys d).
Proof.
  induction d as [|[k' v] r IH]; simpl.
  - tauto.
  - destruct (py_eqb k' k) eqn:E.
    + apply py_eqb_eq in E. split; [discriminate | intros N; exfalso; auto].
    + apply py_eqb_neq in E. rewrite IH. tauto.
Qed.

Lemma get_Some_In d k v : get d k = Some v -> In (k, v) d.
Proof.
  induction d as [|[k' v'] r IH]; simpl; [discriminate|].
  destruct (py_eqb k' k) eqn:E.
  - apply py_eqb_eq in E. intros [= ->]. left; congruence.
  - auto.
Qed.

Lemma In_get d k v : wf d -> In (k, v) d -> get d k = Some v.
Proof.
  unfold wf. induction d as [|[k' v'] r IH]; simpl; [tauto|].
  intros ND [E|Hin]; inversion ND as [|? ? Hnot ND']; subst.
  - inversion E; subst. now rewrite py_eqb_refl.
  - destruct (py_eqb k' k) eqn:E.
    + apply py_eqb_eq in E; subst. exfalso. apply Hnot.
      change k with (fst (k, v)). now apply in_map.
    + auto.
Qed.

Lemma contains_true_iff d k : contains d k = true <-> In k (keys d).
Proof.
  unfold contains. destruct (get d k) eqn:E.
  - split; [intros _|reflexivity].
    apply get_Some_In in E. change k with (fst (k, v)). now apply in_map.
  - split; [discriminate|]. intros Hin.
    apply get_None_iff in E. contradiction.
Qed.

Lemma contains_false_iff d k : contains d k = false <-> ~ In k (keys d).
Proof.
  rewrite <- contains_true_iff. destruct (contains d k); split; congruence.
Qed.

Lemma keys_set d k v :
  keys (set d k v) = if contains d k then keys d else keys d ++ [k].
Proof.
  unfold contains. induction d as [|[k' v'] r IH]; simpl; [reflexivity|].
  destruct (py_eqb k' k) eqn:E; simpl; [reflexivity|].
  rewrite IH. now destruct (get r k).
Qed.

Lemma set_absent d k v : get d k = None -> set d k v = d ++ [(k, v)].
Proof.
  induction d as [|[k' v'] r IH]; simpl; [reflexivity|].
  destruct (py_eqb k' k); [discriminate|]. intros E. now rewrite IH.
Qed.

Lemma wf_set d k v : wf d -> wf (set d k v).
Proof.
  unfold wf. rewrite keys_set. destruct (contains d k) eqn:E; [auto|].
  intros ND. apply contains_false_iff in E.
  apply NoDup_app; auto.
  - constructor; [intros []|constructor].
  - intros x Hx [<-|[]]. contradiction.
Qed.

Lemma get_set_same d k v : get (set d k v) k = Some v.
Proof.
  induction d as [|[k' v'] r IH]; simpl.
  - now rewrite py_eqb_refl.
  - destruct (py_eqb k' k) eqn:E; simpl; now rewrite E.
Qed.

Lemma get_set_other d k k' v : k <> k' -> get (set d k v) k' = get d k'.
Proof.
  intros N. induction d as [|[k0 v0] r IH]; simpl.
  - apply py_eqb_neq in N. now rewrite N.
  - destruct (py_eqb k0 k) eqn:E; simpl.
    + apply py_eqb_eq in E; subst.
      apply py_eqb_neq in N. now rewrite N.
    + now rewrite IH.
Qed.

Lemma pop_absent d k : get d k = None -> pop d k = (None, d).
Proof.
  induction d as [|[k' v] r IH]; simpl; [reflexivity|].
  destruct (py_eqb k' k); [discriminate|]. intros E. now rewrite IH.
Qed.

Lemma pop_fst d k : fst (pop d k) = get d k.
Proof.
  induction d as [|[k' v] r IH]; simpl; [reflexivity|].
  destruct (py_eqb k' k); [reflexivity|].
  destruct (pop r k); simpl in *; auto.
Qed.

Lemma keys_pop_incl d k x : In x (keys (snd (pop d k))) -> In x (keys d).
Proof.
  induction d as [|[k' v] r IH]; simpl; [tauto|].
  destruct (py_eqb k' k); simpl; [auto|].
  destruct (pop r k) as [res r'] eqn:E; simpl in *. intros [->|Hin]; auto.
Qed.

Lemma wf_pop d k : wf d -> wf (snd (pop d k)).
Proof.
  unfold wf. induction d as [|[k' v] r IH]; simpl; [auto|].
  intros ND; inversion ND as [|? ? Hnot ND']; subst.
  destruct (py_eqb k' k); simpl; [assumption|].
  pose proof (@keys_pop_incl r k k') as Hincl.
  destruct (pop r k) as [res r'] eqn:E; simpl in *.
  constructor; auto.
Qed.

Lemma wf_fold_set (f : V -> K) l d :
  wf d -> wf (fold_left (fun d x => set d (f x) x) l d).
Proof.
  revert d. induction l as [|x l IH]; simpl; intros d W; [assumption|].
  apply IH. now apply wf_set.
Qed.

Lemma wf_of_list (f : V -> K) l : wf (of_list f l).
Proof. apply wf_fold_set. constructor. Qed.

Lemma fold_set_fresh (f : V -> K) l d :
  NoDup (keys d ++ map f l) ->
  fold_left (fun d x => set d (f x) x) l d = d ++ map (fun x => (f x, x)) l.
Proof.
  revert d. induction l as [|x l IH]; simpl; intros d ND.
  - now rewrite app_nil_r.
  - assert (Hx : get d (f x) = None).
    { apply get_None_iff. intros Hin.
      apply NoDup_remove_2 in ND. apply ND.
      apply in_or_app; now left. }
    rewrite set_absent by assumption. rewrite IH.
    + now rewrite <- app_assoc.
    + unfold keys in *. rewrite map_app; simpl.
      rewrite <- app_assoc; simpl. assumption.
Qed.

(** A comprehension over distinct keys keeps every element, in order. *)
Lemma of_list_NoDup (f : V -> K) l :
  NoDup (map f l) -> of_list f l = map (fun x => (f x, x)) l.
Proof. intros ND. unfold of_list. now rewrite fold_set_fresh. Qed.

Lemma values_of_list_NoDup (f : V -> K) l :
  NoDup (map f l) -> values (of_list f l) = l.
Proof.
  intros ND. rewrite of_list_NoDup by assumption.
  unfold values. rewrite map_map; simpl. apply map_id.
Qed.

Lemma keys_of_list_NoDup (f : V -> K) l :
  NoDup (map f l) -> keys (of_list f l) = map f l.
Proof.
  intros ND. rewrite of_list_NoDup by assumption.
  unfold keys. now rewrite map_map.
Qed.

End Facts.
End PyDictFacts.
Import PyDictFacts.

(** ** Registry *)

Lemma utils_get_pred (m : AppCommandMetadata) n t g :
  py_eqb (meta_name m) (Str n) && py_eqb (meta_type m) t
    && py_eqb (meta_guild_id m) g = true
  <-> m = metadata n g t.
Proof.
  rewrite !andb_true_iff, !py_eqb_eq. destruct m as [mn mg mt]; simpl.
  unfold metadata. split.
  - intros [[-> ->] ->]; reflexivity.
  - intros E; inversion E; auto.
Qed.

Lemma utils_get_None (reg : Registry) n t g :
  utils_get reg n t g = None <-> PyDict.get reg (metadata n g t) = None.
Proof.
  rewrite get_None_iff. unfold utils_get. split.
  - intros E Hin. eapply find_none in E; [|exact Hin].
    simpl in E. assert (T := proj2 (utils_get_pred (metadata n g t) n t g) eq_refl).
    simpl in T. congruence.
  - intros N. destruct (find _ _) as [m|] eqn:E; [|reflexivity].
    apply find_some in E. destruct E as [Hin P].
    simpl in P. apply utils_get_pred in P. subst. contradiction.
Qed.

Lemma utils_get_Some (reg : Registry) n t g :
  PyDict.contains reg (metadata n g t) = true ->
  exists m, utils_get reg n t g = Some m.
Proof.
  intros C. destruct (utils_get reg n t g) as [m|] eqn:E; [eauto|].
  apply utils_get_None in E. unfold PyDict.contains in C.
  rewrite E in C. discriminate.
Qed.

Lemma contains_set_mono {K V} `{PyEq K} (d : PyDict.dict K V) k v k' :
  PyDict.contains d k' = true -> PyDict.contains (PyDict.set d k v) k' = true.
Proof.
  rewrite !contains_true_iff, keys_set.
  destruct (PyDict.contains d k); auto. intros Hin. apply in_or_app; now left.
Qed.

Lemma contains_get_None {K V} `{PyEq K} (d : PyDict.dict K V) k :
  PyDict.contains d k = false <-> PyDict.get d k = None.
Proof. unfold PyDict.contains. destruct (PyDict.get d k); split; congruence. Qed.

Lemma wf_register_in_guilds reg cmd gs :
  PyDict.wf reg -> PyDict.wf (fst (register_in_guilds reg cmd gs)).
Proof.
  revert reg. induction gs as [|g gs IH]; simpl; intros reg W; [assumption|].
  destruct (utils_get reg (cmd_name cmd) (cmd_type cmd) (Some g)); simpl.
  - assumption.
  - apply IH. now apply wf_set.
Qed.

Lemma wf_register reg cmd : PyDict.wf reg -> PyDict.wf (fst (register reg cmd)).
Proof.
  intros W. unfold register. destruct (truthy_seq (guild_ids cmd)).
  - now apply wf_register_in_guilds.
  - destruct (utils_get reg (cmd_name cmd) (cmd_type cmd) None); simpl;
      [assumption | now apply wf_set].
Qed.

Lemma register_in_guilds_collision reg cmd gs g :
  In g gs -> PyDict.contains reg (key_of cmd (Some g)) = true ->
  exists g', In g' gs /\
    snd (register_in_guilds reg cmd gs)
    = Raised (CommandRegistrationError (cmd_name cmd) (Some g')).
Proof.
  revert reg. induction gs as [|g0 gs IH]; simpl; intros reg Hin C; [tauto|].
  destruct (utils_get reg (cmd_name cmd) (cmd_type cmd) (Some g0)) eqn:E; simpl.
  - exists g0; auto.
  - destruct Hin as [->|Hin].
    + apply utils_get_None in E. apply contains_get_None in E.
      unfold key_of in C. congruence.
    + destruct (IH (PyDict.set reg (metadata (cmd_name cmd) (Some g0) (cmd_type cmd)) cmd))
        as [g' [Hg' R]]; auto.
      * now apply contains_set_mono.
      * exists g'; auto.
Qed.

Lemma register_collision reg cmd g :
  In g (scopes cmd) -> PyDict.contains reg (key_of cmd g) = true ->
  exists g', In g' (scopes cmd) /\
    snd (register reg cmd) = Raised (CommandRegistrationError (cmd_name cmd) g').
Proof.
  unfold register, scopes. destruct (truthy_seq (guild_ids cmd)).
  - intros Hin C. apply in_map_iff in Hin. destruct Hin as [z [<- Hz]].
    destruct (register_in_guilds_collision reg cmd _ z Hz C) as [g' [Hg' R]].
    exists (Some g'). split; [now apply in_map | assumption].
  - intros [<-|[]] C. destruct (utils_get_Some reg _ _ _ C) as [m ->].
    exists None. simpl; auto.
Qed.

Lemma get_inserted_keep reg cmd gs k :
  PyDict.get reg k = Some cmd -> PyDict.get (inserted reg cmd gs) k = Some cmd.
Proof.
  unfold inserted. revert reg. induction gs as [|g gs IH]; simpl; intros reg E;
    [assumption|].
  apply IH. destruct (py_eq_dec (key_of cmd (Some g)) k) as [->|N].
  - apply get_set_same.
  - now rewrite get_set_other.
Qed.

Lemma get_inserted_in reg cmd gs g :
  In g gs -> PyDict.get (inserted reg cmd gs) (key_of cmd (Some g)) = Some cmd.
Proof.
  revert reg. induction gs as [|g0 gs IH]; simpl; intros reg Hin; [tauto|].
  destruct (Z.eq_dec g0 g) as [->|N].
  - apply get_inserted_keep. apply get_set_same.
  - destruct Hin as [E|Hin]; [contradiction|]. now apply IH.
Qed.

Lemma get_inserted_other reg cmd gs k :
  (forall g, In g gs -> key_of cmd (Some g) <> k) ->
  PyDict.get (inserted reg cmd gs) k = PyDict.get reg k.
Proof.
  unfold inserted. revert reg. induction gs as [|g gs IH]; simpl; intros reg N;
    [reflexivity|].
  rewrite IH by auto. apply get_set_other. auto.
Qed.

Lemma key_of_inj cmd g g' : key_of cmd g = key_of cmd g' -> g = g'.
Proof. unfold key_of, metadata. intros E. now inversion E. Qed.

(** Over fresh, distinct guilds the loop inserts them all and goes on. *)
Lemma register_in_guilds_prefix reg cmd pre rest :
  NoDup pre ->
  (forall g, In g pre -> PyDict.contains reg (key_of cmd (Some g)) = false) ->
  register_in_guilds reg cmd (pre ++ rest)
  = register_in_guilds (inserted reg cmd pre) cmd rest.
Proof.
  revert reg. induction pre as [|g pre IH]; simpl; intros reg ND F;
    [reflexivity|].
  inversion ND as [|? ? Hnot ND']; subst.
  assert (E : utils_get reg (cmd_name cmd) (cmd_type cmd) (Some g) = None).
  { apply utils_get_None, contains_get_None. apply F; auto. }
  rewrite E. apply IH; [assumption|].
  intros g' Hg'. apply contains_get_None. rewrite get_set_other.
  - apply contains_get_None. apply F; auto.
  - intros Eq. apply key_of_inj in Eq. inversion Eq; subst. contradiction.
Qed.

Lemma wf_remove_slash reg n g :
  PyDict.wf reg -> PyDict.wf (fst (remove_slash_command reg n g)).
Proof.
  intros W. unfold remove_slash_command.
  destruct (truthy_int g);
    match goal with |- context [PyDict.pop reg ?k] =>
      pose proof (wf_pop k W) as P; destruct (PyDict.pop reg k) as [[c|] r]
    end; exact P.
Qed.

Lemma wf_remove_user reg n g :
  PyDict.wf reg -> PyDict.wf (fst (remove_user_command reg n g)).
Proof.
  intros W. unfold remove_user_command.
  match goal with |- context [PyDict.pop reg ?k] =>
    pose proof (wf_pop k W) as P; destruct (PyDict.pop reg k) as [[c|] r]
  end; exact P.
Qed.

Lemma wf_remove_message reg n g :
  PyDict.wf reg -> PyDict.wf (fst (remove_message_command reg n g)).
Proof.
  intros W. unfold remove_message_command.
  match goal with |- context [PyDict.pop reg ?k] =>
    pose proof (wf_pop k W) as P; destruct (PyDict.pop reg k) as [[c|] r]
  end; exact P.
Qed.

Lemma wf_add_slash reg cmd :
  PyDict.wf reg -> PyDict.wf (fst (add_slash_command reg cmd)).
Proof.
  intros W. unfold add_slash_command.
  destruct (negb _); [exact W | now apply wf_register].
Qed.

Lemma wf_add_user reg cmd :
  PyDict.wf reg -> PyDict.wf (fst (add_user_command reg cmd)).
Proof.
  intros W. unfold add_user_command.
  destruct (negb _); [exact W | now apply wf_register].
Qed.

Lemma wf_add_message reg cmd :
  PyDict.wf reg -> PyDict.wf (fst (add_message_command reg cmd)).
Proof.
  intros W. unfold add_message_command.
  destruct (negb _); [exact W | now apply wf_register].
Qed.

(** Whatever the registration API is asked to do, a key is held once. *)
Lemma reachable_wf reg : reachable reg -> PyDict.wf reg.
Proof.
  induction 1.
  - constructor.
  - now apply wf_add_slash.
  - now apply wf_add_user.
  - now apply wf_add_message.
  - now apply wf_remove_slash.
  - now apply wf_remove_user.
  - now apply wf_remove_message.
Qed.

(** C6. For every registry the registration API can build and every command
    handed to [add_slash_command], [add_user_command] or
    [add_message_command] (the one of its type): when one of the keys
    (name, type, scope) the command is declared for is already registered,
    the call raises [CommandRegistrationError]; and before as after the
    call no key is held twice. *)
Theorem add_registered_key_raises reg cmd g :
  reachable reg ->
  In g (scopes cmd) ->
  PyDict.contains reg (key_of cmd g) = true ->
  let raises r :=
    exists g', In g' (scopes cmd) /\
      snd r = Raised (CommandRegistrationError (cmd_name cmd) g') in
  (cmd_type cmd = chat_input -> raises (add_slash_command reg cmd))
  /\ (cmd_type cmd = user -> raises (add_user_command reg cmd))
  /\ (cmd_type cmd = message -> raises (add_message_command reg cmd))
  /\ NoDup (PyDict.keys reg)
  /\ NoDup (PyDict.keys (fst (add_slash_command reg cmd)))
  /\ NoDup (PyDict.keys (fst (add_user_command reg cmd)))
  /\ NoDup (PyDict.keys (fst (add_message_command reg cmd))).
Proof.
  intros R Hin C raises. pose proof (reachable_wf R) as W.
  pose proof (register_collision reg cmd g Hin C) as Hr.
  repeat split.
  - intros T. unfold add_slash_command. rewrite T. exact Hr.
  - intros T. unfold add_user_command. rewrite T. exact Hr.
  - intros T. unfold add_message_command. rewrite T. exact Hr.
  - exact W.
  - now apply wf_add_slash.
  - now apply wf_add_user.
  - now apply wf_add_message.
Qed.

Lemma add_registered_key_raises_witness :
  let cmd := command "ping" chat_input (Some [7%Z; 9%Z]) in
  let reg := fst (add_slash_command [] (command "ping" chat_input (Some [9%Z]))) in
  exists g', In g' (scopes cmd) /\
    snd (add_slash_command reg cmd)
    = Raised (CommandRegistrationError (cmd_name cmd) g').
Proof.
  intros cmd reg.
  refine (proj1 (@add_registered_key_raises reg cmd (Some 9%Z) _ _ _) eq_refl).
  - apply reach_add_slash, reach_empty.
  - simpl; auto.
  - reflexivity.
Defined.

(** C10. A command declared for the guilds [pre ++ gk :: post], where the
    keys of [pre] are free and distinct and the key of [gk] is taken: the
    [add_*] method of its type raises [CommandRegistrationError] for [gk],
    and the entries it had already written for the guilds of [pre] are in
    the registry after the raise, although none was there before. *)
Theorem add_multi_guild_not_atomic reg cmd pre gk post :
  guild_ids cmd = Some (pre ++ gk :: post) ->
  NoDup pre ->
  (forall g, In g pre -> PyDict.contains reg (key_of cmd (Some g)) = false) ->
  PyDict.contains reg (key_of cmd (Some gk)) = true ->
  let partial r :=
    snd r = Raised (CommandRegistrationError (cmd_name cmd) (Some gk))
    /\ (forall g, In g pre ->
          PyDict.get reg (key_of cmd (Some g)) = None
          /\ PyDict.get (fst r) (key_of cmd (Some g)) = Some cmd) in
  (cmd_type cmd = chat_input -> partial (add_slash_command reg cmd))
  /\ (cmd_type cmd = user -> partial (add_user_command reg cmd))
  /\ (cmd_type cmd = message -> partial (add_message_command reg cmd)).
Proof.
  intros G ND F C partial.
  assert (P : partial (register reg cmd)).
  { unfold partial, register. rewrite G.
    assert (T : truthy_seq (Some (pre ++ gk :: post)) = true)
      by (destruct pre; reflexivity).
    rewrite T, register_in_guilds_prefix by assumption. simpl.
    assert (C' : PyDict.contains (inserted reg cmd pre) (key_of cmd (Some gk)) = true).
    { unfold PyDict.contains in *. rewrite get_inserted_other; [exact C|].
      intros g Hg Eq. apply key_of_inj in Eq. inversion Eq; subst.
      rewrite (F gk Hg) in C. discriminate. }
    destruct (utils_get_Some _ _ _ _ C') as [m ->]. simpl. split; [reflexivity|].
    intros g Hg. split.
    - apply contains_get_None. now apply F.
    - now apply get_inserted_in. }
  split; [|split]; intros T.
  - unfold add_slash_command. rewrite T. apply P.
  - unfold add_user_command. rewrite T. apply P.
  - unfold add_message_command. rewrite T. apply P.
Qed.

Lemma add_multi_guild_not_atomic_witness :
  let cmd := command "ping" chat_input (Some [7%Z; 8%Z; 9%Z]) in
  let reg := fst (add_slash_command [] (command "ping" chat_input (Some [9%Z]))) in
  snd (add_slash_command reg cmd)
  = Raised (CommandRegistrationError "ping" (Some 9%Z))
  /\ (forall g, In g [7%Z; 8%Z] ->
        PyDict.get reg (key_of cmd (Some g)) = None
        /\ PyDict.get (fst (add_slash_command reg cmd)) (key_of cmd (Some g))
           = Some cmd).
Proof.
  intros cmd reg.
  refine (proj1 (@add_multi_guild_not_atomic reg cmd [7%Z; 8%Z] 9%Z [] eq_refl _ _ _)
            eq_refl).
  - repeat constructor; simpl; intuition discriminate.
  - intros g [<-|[<-|[]]]; reflexivity.
  - reflexivity.
Defined.

Lemma reachable_str_keyed reg : reachable reg -> str_keyed reg.
Proof.
  assert (Hset : forall (r : Registry) n g t c,
             str_keyed r -> str_keyed (PyDict.set r (metadata n g t) c)).
  { intros r n g t c S m. rewrite keys_set.
    destruct (PyDict.contains r (metadata n g t)); [apply S|].
    intros Hin. apply in_app_or in Hin. destruct Hin as [Hin|[<-|[]]]; [auto|].
    simpl. eauto. }
  assert (Hloop : forall c gs (r : Registry),
             str_keyed r -> str_keyed (fst (register_in_guilds r c gs))).
  { intros c gs. induction gs as [|g gs IH]; simpl; intros r S; [exact S|].
    destruct (utils_get r (cmd_name c) (cmd_type c) (Some g)); simpl; auto. }
  assert (Hreg : forall (r : Registry) c, str_keyed r -> str_keyed (fst (register r c))).
  { intros r c S. unfold register. destruct (truthy_seq (guild_ids c)); [auto|].
    destruct (utils_get r (cmd_name c) (cmd_type c) None); simpl; auto. }
  assert (Hpop : forall (r : Registry) k,
             str_keyed r -> str_keyed (snd (PyDict.pop r k))).
  { intros r k S m Hin. apply S. eapply keys_pop_incl; eauto. }
  induction 1 as [|r c R IH|r c R IH|r c R IH|r n g R IH|r n g R IH|r n g R IH].
  - intros m [].
  - unfold add_slash_command. destruct (negb _); auto.
  - unfold add_user_command. destruct (negb _); auto.
  - unfold add_message_command. destruct (negb _); auto.
  - unfold remove_slash_command. destruct (truthy_int g);
      match goal with |- context [PyDict.pop r ?k] =>
        pose proof (Hpop r k IH) as P; destruct (PyDict.pop r k) as [[c|] r']
      end; exact P.
  - unfold remove_user_command.
    match goal with |- context [PyDict.pop r ?k] =>
      pose proof (Hpop r k IH) as P; destruct (PyDict.pop r k) as [[c|] r']
    end; exact P.
  - unfold remove_message_command.
    match goal with |- context [PyDict.pop r ?k] =>
      pose proof (Hpop r k IH) as P; destruct (PyDict.pop r k) as [[c|] r']
    end; exact P.
Qed.

(** On a registry built by the registration API the lookup of
    [get_app_command] finds nothing, whatever is registered: its key is
    named by [chain[0]], not by [name]. *)
Lemma get_app_command_never_finds py39 reg n t g :
  reachable reg ->
  get_app_command py39 reg n t g
  = if py39 then Returned None else Raised TypeError.
Proof.
  intros R. apply reachable_str_keyed in R.
  unfold get_app_command, chain_getitem_0. destruct py39; [|reflexivity].
  destruct (PyDict.get reg _) eqn:E; [|reflexivity].
  apply get_Some_In in E. apply (in_map fst) in E. apply R in E.
  destruct E as [s E]. discriminate.
Qed.

(** C3. The global slash command ping is registered under
    (ping, chat_input, None), yet [get_app_command("ping", chat_input)]
    does not return it: it returns [None] where [chain[0]] evaluates, and
    raises [TypeError] where it does not. *)
Theorem get_app_command_misses_registered :
  let cmd := command "ping" chat_input None in
  let reg := fst (add_slash_command [] cmd) in
  PyDict.get reg (metadata "ping" None chat_input) = Some cmd
  /\ get_app_command true reg "ping" chat_input None = Returned None
  /\ get_app_command false reg "ping" chat_input None = Raised TypeError.
Proof. repeat split. Qed.

(** Removing a key that is not registered: [remove_user_command] and
    [remove_message_command] return [None] and leave the registry as it
    is; [remove_slash_command] does so for a guild id other than 0. *)
Lemma remove_unregistered_key (reg : Registry) n g :
  (PyDict.get reg (metadata n g user) = None ->
   remove_user_command reg n g = (reg, None))
  /\ (PyDict.get reg (metadata n g message) = None ->
      remove_message_command reg n g = (reg, None))
  /\ (g <> Some 0%Z -> PyDict.get reg (metadata n g chat_input) = None ->
      remove_slash_command reg n g = (reg, None)).
Proof.
  split; [|split].
  - intros E. unfold remove_user_command. now rewrite pop_absent.
  - intros E. unfold remove_message_command. now rewrite pop_absent.
  - intros N E. unfold remove_slash_command.
    destruct g as [z|]; simpl.
    + destruct (Z.eqb_spec z 0) as [->|Hz]; [congruence|]. simpl.
      now rewrite pop_absent.
    + now rewrite pop_absent.
Qed.

(** C9. With the global slash command ping registered and nothing under
    (ping, chat_input, 0), [remove_slash_command("ping", guild_id=0)]
    returns the global command and empties the registry, where
    [remove_user_command] in the same situation returns [None] and
    changes nothing. *)
Theorem remove_slash_command_guild_zero :
  let cmd := command "ping" chat_input None in
  let reg := fst (add_slash_command [] cmd) in
  let ucmd := command "ping" user None in
  let ureg := fst (add_user_command [] ucmd) in
  PyDict.get reg (metadata "ping" (Some 0%Z) chat_input) = None
  /\ remove_slash_command reg "ping" (Some 0%Z) = ([], Some cmd)
  /\ PyDict.get ureg (metadata "ping" (Some 0%Z) user) = None
  /\ remove_user_command ureg "ping" (Some 0%Z) = (ureg, None).
Proof. repeat split. Qed.

(** ** Diff engine *)

Section DiffFacts.
Variable need_sync : ApplicationCommand -> ApplicationCommand -> bool.

Lemma fold_diff_new_step old_cmds items d :
  fold_left (diff_new_step need_sync old_cmds) items d
  = {| no_changes := no_changes d ++ flat_map (no_changes_of need_sync old_cmds) items;
       upsert := upsert d ++ flat_map (upsert_of old_cmds) items;
       edit := edit d ++ flat_map (edit_of need_sync old_cmds) items;
       delete := delete d |}.
Proof.
  revert d. induction items as [|[k c] items IH]; intros d; simpl.
  - rewrite !app_nil_r. now destruct d.
  - rewrite IH. unfold diff_new_step, no_changes_of, upsert_of, edit_of. simpl.
    destruct (PyDict.get old_cmds k) as [o|]; simpl.
    + destruct (_always_synced c); simpl.
      * now rewrite <- app_assoc.
      * destruct (need_sync c o); simpl; now rewrite <- app_assoc.
    + now rewrite <- app_assoc.
Qed.

Lemma fold_diff_old_step new_cmds items d :
  fold_left (diff_old_step new_cmds) items d
  = {| no_changes := no_changes d; upsert := upsert d; edit := edit d;
       delete := delete d ++ flat_map (delete_of new_cmds) items |}.
Proof.
  revert d. induction items as [|[k o] items IH]; intros d; simpl.
  - rewrite app_nil_r. now destruct d.
  - rewrite IH. unfold diff_old_step, delete_of. simpl.
    destruct (PyDict.contains new_cmds k); simpl.
    + reflexivity.
    + now rewrite <- app_assoc.
Qed.

(** The four buckets of [_app_commands_diff], each a pass over one map. *)
Lemma app_commands_diff_buckets new old :
  let new_cmds := PyDict.of_list name_and_type new in
  let old_cmds := PyDict.of_list name_and_type old in
  _app_commands_diff need_sync new old
  = {| no_changes := flat_map (no_changes_of need_sync old_cmds) new_cmds;
       upsert := flat_map (upsert_of old_cmds) new_cmds;
       edit := flat_map (edit_of need_sync old_cmds) new_cmds;
       delete := flat_map (delete_of new_cmds) old_cmds |}.
Proof.
  intros new_cmds old_cmds. unfold _app_commands_diff.
  fold new_cmds old_cmds. rewrite fold_diff_new_step, fold_diff_old_step.
  reflexivity.
Qed.

End DiffFacts.

Section OfList.
Context {K V : Type} `{PyEq K}.
Variable f : V -> K.

Lemma of_list_get_In (l : list V) x :
  NoDup (map f l) -> In x l -> PyDict.get (PyDict.of_list f l) (f x) = Some x.
Proof.
  intros ND Hin. apply In_get.
  - apply wf_of_list.
  - rewrite of_list_NoDup by assumption.
    apply in_map_iff. exists x; auto.
Qed.


Lemma of_list_get_None (l : list V) k :
  NoDup (map f l) ->
  (PyDict.get (PyDict.of_list f l) k = None <-> forall x, In x l -> f x <> k).
Proof.
  intros ND. rewrite get_None_iff, keys_of_list_NoDup by assumption.
  rewrite in_map_iff. split.
  - intros N x Hx E. apply N. eauto.
  - intros N [x [E Hx]]. eapply N; eauto.
Qed.

Lemma of_list_item_In (l : list V) x :
  NoDup (map f l) -> In x l -> In (f x, x) (PyDict.of_list f l).
Proof.
  intros ND Hin. rewrite of_list_NoDup by assumption.
  apply in_map_iff. exists x; auto.
Qed.

End OfList.

Lemma flat_map_singleton_In {A B} (F : A -> list B) (g : A -> B) l :
  (forall x, In x l -> F x = [g x]) -> flat_map F l = map g l.
Proof.
  induction l as [|a l IH]; simpl; intros E; [reflexivity|].
  rewrite E by auto. simpl. f_equal. apply IH. auto.
Qed.

Lemma flat_map_nil_In {A B} (F : A -> list B) l :
  (forall x, In x l -> F x = []) -> flat_map F l = [].
Proof.
  induction l as [|a l IH]; simpl; intros E; [reflexivity|].
  rewrite E by auto. simpl. apply IH. auto.
Qed.

Section DiffClaims.
Variable need_sync : ApplicationCommand -> ApplicationCommand -> bool.

Lemma always_synced_keeps_counterpart new old c o :
  NoDup (map name_and_type new) ->
  NoDup (map name_and_type old) ->
  In c new -> In o old -> name_and_type o = name_and_type c ->
  _always_synced c = true ->
  In o (no_changes (_app_commands_diff need_sync new old)).
Proof.
  intros NDn NDo Hc Ho E A. rewrite app_commands_diff_buckets. simpl.
  apply in_flat_map. exists (name_and_type c, c).
  split; [now apply of_list_item_In|]. unfold no_changes_of; simpl.
  rewrite <- E, of_list_get_In, A by assumption. simpl; auto.
Qed.

(** C2, as the code has it.  For local and remote sequences, each uniquely
    keyed by (name, type): a local command with no remote counterpart is in
    the create bucket; for a local command marked always-synced that has a
    counterpart, the unchanged bucket receives the remote counterpart (not
    the local command); a local command not so marked is in the update
    bucket when [need_sync] against its counterpart holds and in the
    unchanged bucket otherwise; a remote command with no local counterpart
    is in the delete bucket.  With disjoint names the create bucket is the
    local sequence, the delete bucket the remote one, and the two others
    are empty. *)
Theorem app_commands_diff_classifies new old :
  NoDup (map name_and_type new) ->
  NoDup (map name_and_type old) ->
  let d := _app_commands_diff need_sync new old in
  (forall c, In c new ->
     (forall o, In o old -> name_and_type o <> name_and_type c) ->
     In c (upsert d))
  /\ (forall c o, In c new -> In o old -> name_and_type o = name_and_type c ->
        _always_synced c = true -> In o (no_changes d))
  /\ (forall c o, In c new -> In o old -> name_and_type o = name_and_type c ->
        _always_synced c = false -> need_sync c o = true -> In c (edit d))
  /\ (forall c o, In c new -> In o old -> name_and_type o = name_and_type c ->
        _always_synced c = false -> need_sync c o = false -> In c (no_changes d))
  /\ (forall o, In o old ->
        (forall c, In c new -> name_and_type c <> name_and_type o) ->
        In o (delete d))
  /\ ((forall c o, In c new -> In o old -> name c <> name o) ->
      upsert d = new /\ delete d = old /\ edit d = [] /\ no_changes d = []).
Proof.
  intros NDn NDo d. unfold d. rewrite app_commands_diff_buckets. simpl.
  set (new_cmds := PyDict.of_list name_and_type new).
  set (old_cmds := PyDict.of_list name_and_type old).
  assert (Hitem : forall c, In c new -> In (name_and_type c, c) new_cmds)
    by (intros; now apply of_list_item_In).
  assert (Hold : forall c o, In o old -> name_and_type o = name_and_type c ->
                   PyDict.get old_cmds (name_and_type c) = Some o).
  { intros c o Ho E. rewrite <- E. now apply of_list_get_In. }
  repeat apply conj.
  - intros c Hc N. apply in_flat_map. exists (name_and_type c, c).
    split; [auto|]. unfold upsert_of; simpl.
    assert (E : PyDict.get old_cmds (name_and_type c) = None)
      by (apply of_list_get_None; auto).
    rewrite E. simpl; auto.
  - intros c o Hc Ho E A.
    pose proof (@always_synced_keeps_counterpart new old c o NDn NDo Hc Ho E A) as Hin.
    rewrite app_commands_diff_buckets in Hin. exact Hin.
  - intros c o Hc Ho E A S. apply in_flat_map. exists (name_and_type c, c).
    split; [auto|]. unfold edit_of; simpl.
    rewrite (Hold c o Ho E), A, S. simpl; auto.
  - intros c o Hc Ho E A S. apply in_flat_map. exists (name_and_type c, c).
    split; [auto|]. unfold no_changes_of; simpl.
    rewrite (Hold c o Ho E), A, S. simpl; auto.
  - intros o Ho N. apply in_flat_map. exists (name_and_type o, o).
    split; [now apply of_list_item_In|]. unfold delete_of; simpl.
    assert (E : PyDict.contains new_cmds (name_and_type o) = false).
    { apply contains_get_None. apply of_list_get_None; auto. }
    rewrite E. simpl; auto.
  - intros Dis.
    assert (Eo : forall item, In item new_cmds ->
                   PyDict.get old_cmds (fst item) = None).
    { intros [k c] Hin. unfold new_cmds in Hin.
      rewrite of_list_NoDup in Hin by assumption.
      apply in_map_iff in Hin. destruct Hin as [c' [Ec Hc]]. inversion Ec; subst.
      simpl. apply of_list_get_None; [assumption|].
      intros o Ho E. apply (Dis c o Hc Ho). unfold name_and_type in E.
      now inversion E. }
    assert (En : forall item, In item old_cmds ->
                   PyDict.contains new_cmds (fst item) = false).
    { intros [k o] Hin. unfold old_cmds in Hin.
      rewrite of_list_NoDup in Hin by assumption.
      apply in_map_iff in Hin. destruct Hin as [o' [Ec Ho]]. inversion Ec; subst.
      simpl. apply contains_get_None. apply of_list_get_None; [assumption|].
      intros c Hc E. apply (Dis c o Hc Ho). unfold name_and_type in E.
      now inversion E. }
    repeat apply conj.
    + rewrite (flat_map_singleton_In _ snd).
      * now apply values_of_list_NoDup.
      * intros item Hin. unfold upsert_of. now rewrite Eo.
    + rewrite (flat_map_singleton_In _ snd).
      * now apply values_of_list_NoDup.
      * intros item Hin. unfold delete_of. now rewrite En.
    + apply flat_map_nil_In. intros item Hin. unfold edit_of. now rewrite Eo.
    + apply flat_map_nil_In. intros item Hin. unfold no_changes_of. now rewrite Eo.
Qed.


End DiffClaims.

(** C2, as stated, fails in its always-synced clause: a local command
    marked always-synced that has a remote counterpart is not itself placed
    in the unchanged bucket; the bucket receives the remote counterpart. *)
Lemma always_synced_local_not_in_unchanged :
  ~ (forall (need_sync : ApplicationCommand -> ApplicationCommand -> bool)
            new old c o,
       NoDup (map name_and_type new) -> NoDup (map name_and_type old) ->
       In c new -> In o old -> name_and_type o = name_and_type c ->
       _always_synced c = true ->
       In c (no_changes (_app_commands_diff need_sync new old))).
Proof.
  intros H.
  specialize (H structural_need_sync
                [set_always_synced (command_body "ping" chat_input "local" None)]
                [command_body "ping" chat_input "remote" (Some 1%Z)]
                (set_always_synced (command_body "ping" chat_input "local" None))
                (command_body "ping" chat_input "remote" (Some 1%Z))).
  simpl in H.
  assert (ND : forall k : string * ApplicationCommandType, NoDup [k])
    by (intros k; constructor; [intros []|constructor]).
  destruct (H (ND _) (ND _) (or_introl eq_refl) (or_introl eq_refl) eq_refl eq_refl)
    as [E|[]].
  discriminate E.
Qed.

Lemma app_commands_diff_classifies_witness :
  let a := command_body "a" chat_input "new text" None in
  let a' := command_body "a" chat_input "old text" (Some 1%Z) in
  let c := command_body "c" chat_input "" (Some 2%Z) in
  let d := _app_commands_diff structural_need_sync [a] [a'; c] in
  In a (edit d) /\ In c (delete d).
Proof.
  intros a a' c d.
  assert (NDn : NoDup (map name_and_type [a]))
    by (constructor; [intros []|constructor]).
  assert (NDo : NoDup (map name_and_type [a'; c])).
  { constructor; [|constructor; [intros []|constructor]].
    intros [E|[]]. discriminate E. }
  pose proof (@app_commands_diff_classifies structural_need_sync [a] [a'; c]
                NDn NDo) as Cl.
  destruct Cl as [_ [_ [He [_ [Hd _]]]]]. split.
  - apply (He a a'); simpl; auto.
  - apply (Hd c); simpl; auto.
    intros x [<-|[]] E. discriminate E.
Defined.


(** ** Synchronizer *)

Lemma global_policy_delete flags d :
  delete (global_policy flags d)
  = if allow_command_deletion flags then delete d else [].
Proof. unfold global_policy. now destruct (allow_command_deletion flags). Qed.

(** The guild path tests the flag the other way round. *)
Lemma guild_policy_delete flags d :
  delete (guild_policy flags d)
  = if allow_command_deletion flags then [] else delete d.
Proof. unfold guild_policy. now destruct (allow_command_deletion flags). Qed.

Lemma update_required_false d :
  update_required d = false <-> upsert d = [] /\ edit d = [] /\ delete d = [].
Proof.
  unfold update_required.
  destruct (upsert d), (edit d), (delete d); simpl; intuition congruence.
Qed.

Lemma pushes_for_app s t1 t2 :
  pushes_for s (t1 ++ t2) = pushes_for s t1 ++ pushes_for s t2.
Proof. apply flat_map_app. Qed.

Lemma wf_guilds_append (guilds : GuildCommands) g b :
  PyDict.wf guilds -> PyDict.wf (guilds_append guilds g b).
Proof.
  intros W. unfold guilds_append.
  destruct (PyDict.get guilds g); now apply wf_set.
Qed.

Lemma wf_ordered_unsynced reg test_guilds :
  PyDict.wf (snd (snd (_ordered_unsynced_commands reg test_guilds))).
Proof.
  unfold _ordered_unsynced_commands. simpl.
  set (cmds := PyDict.values _). clearbody cmds.
  assert (G : forall acc, PyDict.wf (snd acc) ->
                PyDict.wf (snd (fold_left (ordered_step test_guilds) cmds acc))).
  { induction cmds as [|c cmds IH]; simpl; intros acc W; [assumption|].
    apply IH. destruct acc as [gl gu]. unfold ordered_step.
    destruct (guild_ids_or (guild_ids c) test_guilds) as [gids|]; simpl in *;
      [|assumption].
    revert gu W. induction gids as [|g gids IHg]; simpl; intros gu W;
      [assumption|].
    apply IHg. now apply wf_guilds_append. }
  apply G. constructor.
Qed.

Section SyncFacts.
Variable need_sync : ApplicationCommand -> ApplicationCommand -> bool.
Variable http_bulk_upsert_global :
  list ApplicationCommand -> py_result (list ApplicationCommand).
Variable http_bulk_upsert_guild :
  option Z -> list ApplicationCommand -> py_result (list ApplicationCommand).

#[local] Abbreviation sync_guild' := (sync_guild need_sync http_bulk_upsert_guild).
#[local] Abbreviation sync_global' := (sync_global need_sync http_bulk_upsert_global).
#[local] Abbreviation guild_diff' := (guild_diff need_sync).
#[local] Abbreviation global_diff' := (global_diff need_sync).

Lemma sync_guild_trace bot tr item :
  sync_guild' (bot, tr) item
  = (fst (sync_guild' (bot, []) item), tr ++ snd (sync_guild' (bot, []) item)).
Proof.
  destruct item as [g cmds]. unfold sync_guild.
  destruct (update_required _).
  - unfold bulk_overwrite_guild_commands.
    destruct (http_bulk_upsert_guild _ _); reflexivity.
  - simpl. now rewrite app_nil_r.
Qed.

Lemma get_set_guild_other (d : PyDict.dict (option Z) Snapshot) g g' s :
  g <> g' -> PyDict.get (PyDict.set d (Some g) s) (Some g') = PyDict.get d (Some g').
Proof. intros N. apply get_set_other. congruence. Qed.

(** A turn of the guild loop touches the snapshot of its own guild only. *)
Lemma sync_guild_frame bot g cmds :
  let bot' := fst (sync_guild' (bot, []) (g, cmds)) in
  _command_sync bot' = _command_sync bot
  /\ _all_app_commands bot' = _all_app_commands bot
  /\ _test_guilds bot' = _test_guilds bot
  /\ _is_closed bot' = _is_closed bot
  /\ loop_is_closed bot' = loop_is_closed bot
  /\ _global_application_commands (_connection bot')
     = _global_application_commands (_connection bot)
  /\ (forall g', g <> g' ->
        current_guild_cmds (_connection bot') g'
        = current_guild_cmds (_connection bot) g').
Proof.
  unfold sync_guild. destruct (update_required _); [|simpl; repeat split; auto].
  unfold bulk_overwrite_guild_commands.
  destruct (http_bulk_upsert_guild _ _); simpl; repeat split; auto.
  intros g' N. unfold current_guild_cmds; simpl.
  now rewrite get_set_guild_other.
Qed.

Lemma guild_diff_ext bot bot' g cmds :
  _command_sync bot' = _command_sync bot ->
  current_guild_cmds (_connection bot') g = current_guild_cmds (_connection bot) g ->
  guild_diff' bot' g cmds = guild_diff' bot g cmds.
Proof. intros E1 E2. unfold guild_diff. now rewrite E1, E2. Qed.

Lemma pushes_sync_guild bot g g' cmds :
  pushes_for (GuildScope g) (snd (sync_guild' (bot, []) (g', cmds)))
  = if (g' =? g)%Z
    then if update_required (guild_diff' bot g' cmds)
         then [to_send (guild_diff' bot g' cmds)] else []
    else [].
Proof.
  unfold sync_guild. destruct (update_required _).
  - unfold bulk_overwrite_guild_commands.
    destruct (http_bulk_upsert_guild _ _); simpl;
      destruct (g' =? g)%Z; reflexivity.
  - simpl. now destruct (g' =? g)%Z.
Qed.

Lemma pushes_global_sync_guild bot item :
  pushes_for GlobalScope (snd (sync_guild' (bot, []) item)) = [].
Proof.
  destruct item as [g cmds]. unfold sync_guild. destruct (update_required _).
  - unfold bulk_overwrite_guild_commands.
    destruct (http_bulk_upsert_guild _ _); reflexivity.
  - reflexivity.
Qed.

Lemma fold_sync_guild_pushes_global items bot tr :
  pushes_for GlobalScope (snd (fold_left sync_guild' items (bot, tr)))
  = pushes_for GlobalScope tr.
Proof.
  revert bot tr. induction items as [|item items IH]; intros bot tr;
    cbn [fold_left]; [reflexivity|].
  rewrite sync_guild_trace, IH, pushes_for_app, pushes_global_sync_guild.
  apply app_nil_r.
Qed.

Lemma fold_sync_guild_pushes_notin items bot tr g :
  ~ In g (map fst items) ->
  pushes_for (GuildScope g) (snd (fold_left sync_guild' items (bot, tr)))
  = pushes_for (GuildScope g) tr.
Proof.
  revert bot tr. induction items as [|[g0 c0] items IH]; intros bot tr N;
    cbn [fold_left]; [reflexivity|].
  simpl in N. rewrite sync_guild_trace, IH by (intros Hg; apply N; now right).
  rewrite pushes_for_app, pushes_sync_guild.
  destruct (Z.eqb_spec g0 g) as [->|Hne]; [exfalso; apply N; now left|].
  apply app_nil_r.
Qed.

(** What the guild loop pushes for one of its guilds is decided by the diff
    of that guild against the snapshot the loop started from. *)
Lemma fold_sync_guild_pushes items bot tr g cmds :
  NoDup (map fst items) -> In (g, cmds) items ->
  pushes_for (GuildScope g) (snd (fold_left sync_guild' items (bot, tr)))
  = pushes_for (GuildScope g) tr
    ++ (if update_required (guild_diff' bot g cmds)
        then [to_send (guild_diff' bot g cmds)] else []).
Proof.
  revert bot tr. induction items as [|[g0 c0] items IH]; intros bot tr ND Hin;
    cbn [fold_left]; [destruct Hin|].
  inversion ND as [|? ? Hnot ND']; subst. rewrite sync_guild_trace.
  destruct Hin as [E|Hin].
  - inversion E; subst.
    rewrite fold_sync_guild_pushes_notin by assumption.
    rewrite pushes_for_app, pushes_sync_guild, Z.eqb_refl. reflexivity.
  - assert (Hne : g0 <> g).
    { intros ->. apply Hnot. change g with (fst (g, cmds)). now apply in_map. }
    rewrite IH by assumption.
    rewrite pushes_for_app, pushes_sync_guild.
    destruct (Z.eqb_spec g0 g) as [->|_]; [contradiction|].
    rewrite app_nil_r.
    pose proof (sync_guild_frame bot g0 c0) as F. cbv zeta in F.
    destruct F as [F1 [_ [_ [_ [_ [_ F2]]]]]].
    now rewrite (guild_diff_ext _ _ g cmds F1 (F2 g Hne)).
Qed.

Lemma sync_global_frame bot global_cmds :
  let bot' := fst (sync_global' bot global_cmds) in
  _command_sync bot' = _command_sync bot
  /\ _all_app_commands bot' = _all_app_commands bot
  /\ _test_guilds bot' = _test_guilds bot
  /\ _is_closed bot' = _is_closed bot
  /\ loop_is_closed bot' = loop_is_closed bot
  /\ _guild_application_commands (_connection bot')
     = _guild_application_commands (_connection bot).
Proof.
  unfold sync_global. destruct (update_required _); [|simpl; repeat split; auto].
  unfold bulk_overwrite_global_commands.
  destruct (http_bulk_upsert_global _); simpl; repeat split; auto.
Qed.

Lemma pushes_sync_global bot global_cmds :
  pushes_for GlobalScope (snd (sync_global' bot global_cmds))
  = if update_required (global_diff' bot global_cmds)
    then [to_send (global_diff' bot global_cmds)] else [].
Proof.
  unfold sync_global. destruct (update_required _); [|reflexivity].
  unfold bulk_overwrite_global_commands.
  destruct (http_bulk_upsert_global _); reflexivity.
Qed.

Lemma pushes_guild_sync_global bot global_cmds g :
  pushes_for (GuildScope g) (snd (sync_global' bot global_cmds)) = [].
Proof.
  unfold sync_global. destruct (update_required _); [|reflexivity].
  unfold bulk_overwrite_global_commands.
  destruct (http_bulk_upsert_global _); reflexivity.
Qed.

End SyncFacts.

Section SyncClaims.
Variable need_sync : ApplicationCommand -> ApplicationCommand -> bool.
Variable http_bulk_upsert_global :
  list ApplicationCommand -> py_result (list ApplicationCommand).
Variable http_bulk_upsert_guild :
  option Z -> list ApplicationCommand -> py_result (list ApplicationCommand).

(** C4. In a pass that runs (sync enabled, client and loop open), for the
    global scope when it is processed and for every guild of the guild
    loop: with the diff of the scope as the pass computes it (the deletion
    guard of the path applied), if the create, update and delete buckets
    are all empty the trace holds no bulk overwrite for the scope;
    otherwise it holds exactly one, with payload
    unchanged + update + create. *)
Theorem sync_pushes_once_iff_update bot :
  sync_commands (_command_sync bot) = true ->
  _is_closed bot = false ->
  loop_is_closed bot = false ->
  let ordered :=
    _ordered_unsynced_commands (_all_app_commands bot) (_test_guilds bot) in
  let bot0 := with_registry bot (fst ordered) in
  let trace :=
    snd (_sync_application_commands need_sync http_bulk_upsert_global
           http_bulk_upsert_guild bot) in
  let push_rule (d : _Diff) (pushes : list (list ApplicationCommand)) :=
    (upsert d = [] /\ edit d = [] /\ delete d = [] -> pushes = [])
    /\ (~ (upsert d = [] /\ edit d = [] /\ delete d = []) ->
        pushes = [no_changes d ++ edit d ++ upsert d]) in
  (global_commands (_command_sync bot) = true ->
     push_rule (global_diff need_sync bot0 (fst (snd ordered)))
               (pushes_for GlobalScope trace))
  /\ (guild_commands (_command_sync bot) = true ->
      forall g cmds, In (g, cmds) (snd (snd ordered)) ->
        push_rule (guild_diff need_sync bot0 g cmds)
                  (pushes_for (GuildScope g) trace)).
Proof.
  intros Hs Hc Hl ordered bot0 trace push_rule.
  assert (Rule : forall d pushes,
             pushes = (if update_required d then [to_send d] else []) ->
             push_rule d pushes).
  { intros d pushes ->. unfold push_rule. split.
    - intros E. apply update_required_false in E. now rewrite E.
    - intros N. destruct (update_required d) eqn:U; [reflexivity|].
      apply update_required_false in U. contradiction. }
  pose proof (wf_ordered_unsynced (_all_app_commands bot) (_test_guilds bot)) as W.
  unfold trace, _sync_application_commands. rewrite Hs, Hc, Hl. simpl orb. cbv iota.
  fold ordered. fold ordered in W. destruct ordered as [reg [gl gu]] eqn:Eo.
  simpl in bot0, W |- *. fold bot0. unfold sync_scopes.
  change (_command_sync bot0) with (_command_sync bot).
  split.
  - intros G. rewrite G. apply Rule.
    destruct (sync_global need_sync http_bulk_upsert_global bot0 gl) as [bot1 t1] eqn:Eg.
    pose proof (sync_global_frame need_sync http_bulk_upsert_global bot0 gl) as F.
    pose proof (pushes_sync_global need_sync http_bulk_upsert_global bot0 gl) as P.
    rewrite Eg in F, P. simpl in F, P. destruct F as [F1 _]. rewrite F1.
    change (_command_sync bot0) with (_command_sync bot).
    destruct (guild_commands (_command_sync bot)).
    + now rewrite fold_sync_guild_pushes_global.
    + exact P.
  - intros G g cmds Hin. apply Rule.
    assert (Hstart : exists bot1 t1,
               (if global_commands (_command_sync bot)
                then sync_global need_sync http_bulk_upsert_global bot0 gl
                else (bot0, [])) = (bot1, t1)
               /\ pushes_for (GuildScope g) t1 = []
               /\ _command_sync bot1 = _command_sync bot
               /\ guild_diff need_sync bot1 g cmds = guild_diff need_sync bot0 g cmds).
    { destruct (global_commands (_command_sync bot)).
      - destruct (sync_global need_sync http_bulk_upsert_global bot0 gl)
          as [bot1 t1] eqn:Eg.
        pose proof (sync_global_frame need_sync http_bulk_upsert_global bot0 gl) as F.
        pose proof (pushes_guild_sync_global need_sync http_bulk_upsert_global
                      bot0 gl g) as P.
        rewrite Eg in F, P. simpl in F, P.
        destruct F as [F1 [_ [_ [_ [_ F2]]]]].
        exists bot1, t1. repeat split; auto.
        apply guild_diff_ext; [exact F1|]. unfold current_guild_cmds. now rewrite F2.
      - exists bot0, []. repeat split; auto. }
    destruct Hstart as [bot1 [t1 [E1 [P1 [F1 D1]]]]].
    rewrite E1, F1, G.
    rewrite (fold_sync_guild_pushes need_sync http_bulk_upsert_guild gu bot1 t1 g cmds W Hin).
    now rewrite P1, D1.
Qed.

End SyncClaims.

(** ** Comprehensions over keys that may repeat *)

Section OfListAny.
Context {K V : Type} `{PyEq K}.
Variable f : V -> K.

Lemma In_set (d : PyDict.dict K V) k v k' x :
  In (k', x) (PyDict.set d k v) -> In (k', x) d \/ (k' = k /\ x = v).
Proof.
  induction d as [|[k0 v0] r IH]; simpl.
  - intros [E|[]]. inversion E; auto.
  - destruct (py_eqb k0 k) eqn:E; simpl.
    + apply py_eqb_eq in E; subst. intros [E'|Hin]; [|auto].
      inversion E'; auto.
    + intros [E'|Hin]; [auto|]. destruct (IH Hin); auto.
Qed.

Lemma of_list_In (l : list V) k x :
  In (k, x) (PyDict.of_list f l) -> In x l /\ f x = k.
Proof.
  unfold PyDict.of_list.
  assert (G : forall d,
             (forall k x, In (k, x) d -> In x l /\ f x = k) ->
             forall l', incl l' l ->
             forall k x, In (k, x) (fold_left (fun d x => PyDict.set d (f x) x) l' d) ->
             In x l /\ f x = k).
  { intros d Hd l'. revert d Hd. induction l' as [|y l' IH]; simpl;
      intros d Hd Hincl k0 x0 Hin; [eauto|].
    apply (IH (PyDict.set d (f y) y)); auto.
    - intros k1 x1 H1. apply In_set in H1. destruct H1 as [H1|[-> ->]]; [eauto|].
      split; [apply Hincl; now left | reflexivity].
    - intros z Hz. apply Hincl. now right. }
  apply (G [] (fun _ _ F => match F with end) l (incl_refl l)).
Qed.

Lemma of_list_get_key (l : list V) k x :
  PyDict.get (PyDict.of_list f l) k = Some x -> In x l /\ f x = k.
Proof. intros E. apply of_list_In. now apply get_Some_In. Qed.

Lemma keys_set_incl (d : PyDict.dict K V) k v k' :
  In k' (PyDict.keys d) -> In k' (PyDict.keys (PyDict.set d k v)).
Proof.
  rewrite keys_set. destruct (PyDict.contains d k); [auto|].
  intros Hin. apply in_or_app; now left.
Qed.

Lemma keys_set_self (d : PyDict.dict K V) k v :
  In k (PyDict.keys (PyDict.set d k v)).
Proof.
  apply contains_true_iff. unfold PyDict.contains. now rewrite get_set_same.
Qed.

Lemma of_list_has_key (l : list V) x :
  In x l -> In (f x) (PyDict.keys (PyDict.of_list f l)).
Proof.
  unfold PyDict.of_list.
  assert (G : forall l' d,
             In (f x) (PyDict.keys d) \/ In x l' ->
             In (f x) (PyDict.keys (fold_left (fun d x => PyDict.set d (f x) x) l' d))).
  { induction l' as [|y l' IH]; simpl; intros d [Hk|Hx]; try tauto.
    - apply IH. left. now apply keys_set_incl.
    - apply IH. destruct Hx as [->|Hx]; [left; apply keys_set_self | now right]. }
  intros Hin. apply G. now right.
Qed.

End OfListAny.

Lemma Forall2_In_r {A B} (R : A -> B -> Prop) l l' y :
  Forall2 R l l' -> In y l' -> exists x, In x l /\ R x y.
Proof.
  induction 1 as [|a b l l' Hab HF IH]; simpl; [tauto|].
  intros [<-|Hin]; [eauto|]. destruct (IH Hin) as [x [Hx Rx]]. eauto.
Qed.

Lemma Forall2_In_l {A B} (R : A -> B -> Prop) l l' x :
  Forall2 R l l' -> In x l -> exists y, In y l' /\ R x y.
Proof.
  induction 1 as [|a b l l' Hab HF IH]; simpl; [tauto|].
  intros [<-|Hin]; [eauto|]. destruct (IH Hin) as [y [Hy Ry]]. eauto.
Qed.

(** ** A second pass finds nothing to do *)

Lemma global_policy_keep flags d :
  global_policy flags d = apply_keep (negb (allow_command_deletion flags)) d.
Proof. reflexivity. Qed.

Lemma guild_policy_keep flags d :
  guild_policy flags d = apply_keep (allow_command_deletion flags) d.
Proof. reflexivity. Qed.

Section Resync.
Variable need_sync : ApplicationCommand -> ApplicationCommand -> bool.

(** Every command the local loop puts in a bucket bears the key of the
    local entry it comes from, and is that entry unless the entry is
    marked always-synced. *)
Lemma local_buckets_origin new old p :
  let d := _app_commands_diff need_sync new old in
  In p (no_changes d ++ edit d ++ upsert d) ->
  exists c, In (name_and_type p, c) (PyDict.of_list name_and_type new)
            /\ (p = c \/ _always_synced c = true).
Proof.
  intros d. unfold d. rewrite app_commands_diff_buckets. simpl.
  set (new_cmds := PyDict.of_list name_and_type new).
  set (old_cmds := PyDict.of_list name_and_type old).
  assert (Hk : forall k c, In (k, c) new_cmds -> name_and_type c = k)
    by (intros k c Hin; now apply (of_list_In name_and_type new)).
  intros Hin. apply in_app_or in Hin. destruct Hin as [Hin|Hin];
    [|apply in_app_or in Hin; destruct Hin as [Hin|Hin]];
    apply in_flat_map in Hin; destruct Hin as [[k c] [Hitem Hp]];
    pose proof (Hk k c Hitem) as Ek.
  - unfold no_changes_of in Hp; simpl in Hp.
    destruct (PyDict.get old_cmds k) as [o|] eqn:G; [|destruct Hp].
    destruct (_always_synced c) eqn:A.
    + destruct Hp as [<-|[]]. exists c. split; [|now right].
      apply (of_list_get_key name_and_type old) in G. destruct G as [_ ->].
      exact Hitem.
    + destruct (need_sync c o); [destruct Hp|]. destruct Hp as [<-|[]].
      exists c. rewrite Ek. auto.
  - unfold edit_of in Hp; simpl in Hp.
    destruct (PyDict.get old_cmds k) as [o|]; [|destruct Hp].
    destruct (_always_synced c); [destruct Hp|].
    destruct (need_sync c o); [|destruct Hp]. destruct Hp as [<-|[]].
    exists c. rewrite Ek. auto.
  - unfold upsert_of in Hp; simpl in Hp.
    destruct (PyDict.get old_cmds k) as [o|]; [destruct Hp|].
    destruct Hp as [<-|[]]. exists c. rewrite Ek. auto.
Qed.

(** Every local entry has a command of its key among these buckets. *)
Lemma local_buckets_cover new old k c :
  let d := _app_commands_diff need_sync new old in
  In (k, c) (PyDict.of_list name_and_type new) ->
  exists p, In p (no_changes d ++ edit d ++ upsert d) /\ name_and_type p = k.
Proof.
  intros d Hitem. unfold d. rewrite app_commands_diff_buckets. simpl.
  set (new_cmds := PyDict.of_list name_and_type new) in *.
  set (old_cmds := PyDict.of_list name_and_type old).
  assert (Ek : name_and_type c = k)
    by now apply (of_list_In name_and_type new).
  destruct (PyDict.get old_cmds k) as [o|] eqn:G.
  - destruct (_always_synced c) eqn:A.
    + exists o. split.
      * apply in_or_app. left. apply in_flat_map. exists (k, c).
        split; [assumption|]. unfold no_changes_of; simpl. rewrite G, A.
        now left.
      * now apply (of_list_get_key name_and_type old) in G.
    + destruct (need_sync c o) eqn:S.
      * exists c. split; [|assumption].
        apply in_or_app. right. apply in_or_app. left.
        apply in_flat_map. exists (k, c).
        split; [assumption|]. unfold edit_of; simpl. rewrite G, A, S. now left.
      * exists c. split; [|assumption].
        apply in_or_app. left. apply in_flat_map. exists (k, c).
        split; [assumption|]. unfold no_changes_of; simpl. rewrite G, A, S.
        now left.
  - exists c. split; [|assumption].
    apply in_or_app. right. apply in_or_app. right.
    apply in_flat_map. exists (k, c).
    split; [assumption|]. unfold upsert_of; simpl. rewrite G. now left.
Qed.

Lemma delete_bucket_foreign new old p :
  In p (delete (_app_commands_diff need_sync new old)) ->
  ~ In (name_and_type p) (PyDict.keys (PyDict.of_list name_and_type new)).
Proof.
  rewrite app_commands_diff_buckets. simpl. intros Hin.
  apply in_flat_map in Hin. destruct Hin as [[k o] [Hitem Hp]].
  unfold delete_of in Hp; simpl in Hp.
  destruct (PyDict.contains _ k) eqn:C; [destruct Hp|].
  destruct Hp as [<-|[]].
  apply (of_list_In name_and_type old) in Hitem. destruct Hitem as [_ ->].
  now apply contains_false_iff.
Qed.

Lemma to_send_apply_keep keep d p :
  In p (to_send (apply_keep keep d)) ->
  In p (no_changes d ++ edit d ++ upsert d) \/ (keep = true /\ In p (delete d)).
Proof.
  unfold to_send, apply_keep. destruct keep; simpl; [|auto].
  intros Hin. apply in_app_or in Hin. destruct Hin as [Hin|Hin].
  - apply in_app_or in Hin. destruct Hin as [Hin|Hin]; [|auto].
    left. apply in_or_app. now left.
  - left. apply in_or_app. now right.
Qed.

Lemma to_send_apply_keep_incl keep d p :
  In p (no_changes d ++ edit d ++ upsert d) -> In p (to_send (apply_keep keep d)).
Proof.
  unfold to_send, apply_keep. destruct keep; simpl; [|auto].
  intros Hin. apply in_app_or in Hin. destruct Hin as [Hin|Hin].
  - apply in_or_app. left. apply in_or_app. now left.
  - apply in_or_app. now right.
Qed.

(** Once the platform has stored the payload of a scope, the diff of the
    same local commands against what it stored asks for no update. *)
Lemma stored_payload_settles keep new old commands :
  stored need_sync
    (to_send (apply_keep keep (_app_commands_diff need_sync new old))) commands ->
  update_required (apply_keep keep (_app_commands_diff need_sync new commands))
  = false.
Proof.
  intros [F2 _].
  set (d1 := _app_commands_diff need_sync new old) in *.
  set (new_cmds := PyDict.of_list name_and_type new).
  set (old2 := PyDict.of_list name_and_type commands).
  assert (W : PyDict.wf new_cmds) by apply wf_of_list.
  (* what the stored commands tell about the local entries *)
  assert (Hr : forall r, In r commands ->
                 exists p, In p (to_send (apply_keep keep d1))
                           /\ name_and_type r = name_and_type p
                           /\ need_sync p r = false).
  { intros r Hin. destruct (@Forall2_In_r _ _ _ _ _ r F2 Hin) as [p [Hp [E S]]]. eauto. }
  assert (Hcore : forall r, In r commands ->
                    In (name_and_type r) (PyDict.keys new_cmds) ->
                    exists p c, In (name_and_type r, c) new_cmds
                                /\ (p = c \/ _always_synced c = true)
                                /\ need_sync p r = false).
  { intros r Hin Hk. destruct (Hr r Hin) as [p [Hp [E S]]].
    apply to_send_apply_keep in Hp. destruct Hp as [Hp|[_ Hp]].
    - destruct (local_buckets_origin new old p Hp) as [c [Hc Hor]].
      exists p, c. rewrite E. auto.
    - apply delete_bucket_foreign in Hp. rewrite <- E in Hp. contradiction. }
  assert (Hup : flat_map (upsert_of old2) new_cmds = []).
  { apply flat_map_nil_In. intros [k c] Hitem. unfold upsert_of; simpl.
    destruct (local_buckets_cover new old k c Hitem) as [p [Hp Ek]].
    apply (to_send_apply_keep_incl keep) in Hp.
    destruct (@Forall2_In_l _ _ _ _ _ p F2 Hp) as [r [Hrin [Er _]]].
    destruct (PyDict.get old2 k) eqn:G; [reflexivity|].
    apply get_None_iff in G. exfalso. apply G. rewrite <- Ek, <- Er.
    now apply of_list_has_key. }
  assert (Hed : flat_map (edit_of need_sync old2) new_cmds = []).
  { apply flat_map_nil_In. intros [k c] Hitem. unfold edit_of; simpl.
    destruct (PyDict.get old2 k) as [r|] eqn:G; [|reflexivity].
    destruct (_always_synced c) eqn:A; [reflexivity|].
    apply (of_list_get_key name_and_type commands) in G.
    destruct G as [Hrin Ek].
    assert (Hk : In (name_and_type r) (PyDict.keys new_cmds)).
    { rewrite Ek. change k with (fst (k, c)). now apply in_map. }
    destruct (Hcore r Hrin Hk) as [p [c' [Hc' [Hor S]]]].
    rewrite Ek in Hc'.
    assert (c' = c).
    { assert (G1 : PyDict.get new_cmds k = Some c') by now apply In_get.
      assert (G2 : PyDict.get new_cmds k = Some c) by now apply In_get.
      congruence. }
    subst c'. destruct Hor as [->|Ha]; [now rewrite S | congruence]. }
  assert (Hdel : keep = false -> flat_map (delete_of new_cmds) old2 = []).
  { intros ->. apply flat_map_nil_In. intros [k r] Hitem. unfold delete_of; simpl.
    apply (of_list_In name_and_type commands) in Hitem.
    destruct Hitem as [Hrin Ek].
    destruct (Hr r Hrin) as [p [Hp [E _]]].
    apply to_send_apply_keep in Hp. destruct Hp as [Hp|[F _]]; [|discriminate].
    destruct (local_buckets_origin new old p Hp) as [c [Hc _]].
    assert (C : PyDict.contains new_cmds k = true).
    { apply contains_true_iff. rewrite <- Ek, E.
      change (name_and_type p) with (fst (name_and_type p, c)). now apply in_map. }
    now rewrite C. }
  apply update_required_false. rewrite app_commands_diff_buckets.
  fold new_cmds old2. unfold apply_keep. destruct keep; simpl; auto.
Qed.

End Resync.

Lemma mark_always_synced_idem cmd :
  mark_always_synced (mark_always_synced cmd) = mark_always_synced cmd.
Proof.
  destruct cmd as [b gs [|]]; reflexivity.
Qed.

(** Sorting the commands again after a pass gives the same lists. *)
Lemma ordered_unsynced_idem reg test_guilds :
  _ordered_unsynced_commands
    (fst (_ordered_unsynced_commands reg test_guilds)) test_guilds
  = _ordered_unsynced_commands reg test_guilds.
Proof.
  unfold _ordered_unsynced_commands. simpl.
  assert (E : map (fun kv : AppCommandMetadata * InvokableApplicationCommand =>
                     (fst kv, mark_always_synced (snd kv)))
                  (map (fun kv => (fst kv, mark_always_synced (snd kv))) reg)
              = map (fun kv => (fst kv, mark_always_synced (snd kv))) reg).
  { rewrite map_map. apply map_ext. intros [k c]. simpl.
    now rewrite mark_always_synced_idem. }
  now rewrite E.
Qed.

Lemma with_registry_same bot :
  with_registry bot (_all_app_commands bot) = bot.
Proof. now destruct bot. Qed.

Section Idempotence.
Variable need_sync : ApplicationCommand -> ApplicationCommand -> bool.
Variable http_bulk_upsert_global :
  list ApplicationCommand -> py_result (list ApplicationCommand).
Variable http_bulk_upsert_guild :
  option Z -> list ApplicationCommand -> py_result (list ApplicationCommand).
Hypothesis faithful :
  faithful_platform need_sync http_bulk_upsert_global http_bulk_upsert_guild.

#[local] Abbreviation sync_guild' := (sync_guild need_sync http_bulk_upsert_guild).
#[local] Abbreviation sync_global' := (sync_global need_sync http_bulk_upsert_global).

Lemma sync_global_settles bot global_cmds :
  global_settled need_sync (fst (sync_global' bot global_cmds)) global_cmds.
Proof using faithful.
  unfold global_settled, sync_global.
  destruct (update_required (global_diff need_sync bot global_cmds)) eqn:U;
    [|exact U].
  unfold bulk_overwrite_global_commands.
  destruct faithful as [Fg _].
  destruct (Fg (to_send (global_diff need_sync bot global_cmds)))
    as [commands [E S]].
  rewrite E. simpl. unfold global_diff in *. simpl.
  rewrite values_of_list_NoDup by apply S.
  rewrite global_policy_keep in *. eapply stored_payload_settles. exact S.
Qed.

Lemma sync_guild_settles bot g cmds :
  guild_settled need_sync (fst (sync_guild' (bot, []) (g, cmds))) (g, cmds).
Proof using faithful.
  unfold guild_settled, sync_guild. simpl fst; simpl snd.
  destruct (update_required (guild_diff need_sync bot g cmds)) eqn:U;
    [|exact U].
  unfold bulk_overwrite_guild_commands.
  destruct faithful as [_ Fg].
  destruct (Fg (Some g) (to_send (guild_diff need_sync bot g cmds)))
    as [commands [E S]].
  rewrite E. simpl. unfold guild_diff in *. unfold current_guild_cmds at 1. simpl.
  rewrite get_set_same.
  rewrite values_of_list_NoDup by apply S.
  rewrite guild_policy_keep in *. eapply stored_payload_settles. exact S.
Qed.

Lemma sync_guild_same_setup bot item :
  same_setup bot (fst (sync_guild' (bot, []) item)).
Proof.
  destruct item as [g cmds].
  pose proof (sync_guild_frame need_sync http_bulk_upsert_guild bot g cmds) as F.
  cbv zeta in F. unfold same_setup, same_config. intuition.
Qed.

Lemma same_setup_trans a b c : same_setup a b -> same_setup b c -> same_setup a c.
Proof. unfold same_setup, same_config. intuition congruence. Qed.

Lemma same_setup_refl a : same_setup a a.
Proof. unfold same_setup, same_config. intuition. Qed.

Lemma fold_sync_guild_same_setup items bot tr :
  same_setup bot (fst (fold_left sync_guild' items (bot, tr))).
Proof.
  revert bot tr. induction items as [|item items IH]; intros bot tr;
    cbn [fold_left]; [apply same_setup_refl|].
  rewrite sync_guild_trace. eapply same_setup_trans; [|apply IH].
  apply sync_guild_same_setup.
Qed.

Lemma global_settled_same_setup bot bot' global_cmds :
  same_setup bot bot' ->
  global_settled need_sync bot global_cmds ->
  global_settled need_sync bot' global_cmds.
Proof.
  unfold same_setup, same_config, global_settled, global_diff.
  intros [[E1 _] E2]. now rewrite E1, E2.
Qed.

Lemma sync_guild_keeps_settled bot g0 c0 item :
  g0 <> fst item ->
  guild_settled need_sync bot item ->
  guild_settled need_sync (fst (sync_guild' (bot, []) (g0, c0))) item.
Proof.
  intros N S. unfold guild_settled in *.
  pose proof (sync_guild_frame need_sync http_bulk_upsert_guild bot g0 c0) as F.
  cbv zeta in F. destruct F as [F1 [_ [_ [_ [_ [_ F2]]]]]].
  now rewrite (guild_diff_ext need_sync _ _ (fst item) (snd item) F1 (F2 _ N)).
Qed.

Lemma fold_sync_guild_keeps_settled items bot tr item :
  ~ In (fst item) (map fst items) ->
  guild_settled need_sync bot item ->
  guild_settled need_sync (fst (fold_left sync_guild' items (bot, tr))) item.
Proof.
  revert bot tr. induction items as [|[g0 c0] items IH]; intros bot tr N S;
    cbn [fold_left]; [exact S|].
  rewrite sync_guild_trace. simpl in N. apply IH.
  - intros Hin. apply N. now right.
  - apply sync_guild_keeps_settled; [|exact S]. intros E. apply N. now left.
Qed.

(** After the guild loop every guild it went through is settled. *)
Lemma fold_sync_guild_settles items bot tr item :
  NoDup (map fst items) -> In item items ->
  guild_settled need_sync (fst (fold_left sync_guild' items (bot, tr))) item.
Proof using faithful.
  revert bot tr. induction items as [|[g0 c0] items IH]; intros bot tr ND Hin;
    cbn [fold_left]; [destruct Hin|].
  inversion ND as [|? ? Hnot ND']; subst. rewrite sync_guild_trace.
  destruct Hin as [<-|Hin].
  - apply fold_sync_guild_keeps_settled; [exact Hnot|].
    apply sync_guild_settles.
  - now apply IH.
Qed.

Lemma sync_global_settled_noop bot global_cmds :
  global_settled need_sync bot global_cmds ->
  sync_global' bot global_cmds = (bot, []).
Proof. unfold global_settled, sync_global. now intros ->. Qed.

Lemma fold_sync_guild_settled_noop items bot tr :
  (forall item, In item items -> guild_settled need_sync bot item) ->
  fold_left sync_guild' items (bot, tr) = (bot, tr).
Proof.
  revert tr. induction items as [|[g c] items IH]; intros tr S;
    cbn [fold_left]; [reflexivity|].
  assert (E : sync_guild' (bot, tr) (g, c) = (bot, tr)).
  { pose proof (S (g, c) (or_introl eq_refl)) as U. unfold guild_settled in U.
    simpl in U. unfold sync_guild. now rewrite U. }
  rewrite E. apply IH. intros item Hin. apply S. now right.
Qed.

End Idempotence.


Lemma same_config_refl a : same_config a a.
Proof. unfold same_config. intuition. Qed.

Lemma same_config_trans a b c : same_config a b -> same_config b c -> same_config a c.
Proof. unfold same_config. intuition congruence. Qed.

Section Passes.
Variable need_sync : ApplicationCommand -> ApplicationCommand -> bool.
Variable http_bulk_upsert_global :
  list ApplicationCommand -> py_result (list ApplicationCommand).
Variable http_bulk_upsert_guild :
  option Z -> list ApplicationCommand -> py_result (list ApplicationCommand).
Hypothesis faithful :
  faithful_platform need_sync http_bulk_upsert_global http_bulk_upsert_guild.

#[local] Abbreviation sync_scopes' :=
  (sync_scopes need_sync http_bulk_upsert_global http_bulk_upsert_guild).

(** After the two branches every scope they went through is settled. *)
Lemma sync_scopes_settles bot global_cmds guild_cmds :
  PyDict.wf guild_cmds ->
  let bot' := fst (sync_scopes' bot global_cmds guild_cmds) in
  same_config bot bot'
  /\ (global_commands (_command_sync bot) = true ->
      global_settled need_sync bot' global_cmds)
  /\ (guild_commands (_command_sync bot) = true ->
      forall item, In item guild_cmds -> guild_settled need_sync bot' item).
Proof using faithful.
  intros W. unfold sync_scopes.
  set (r1 := if global_commands (_command_sync bot)
             then sync_global need_sync http_bulk_upsert_global bot global_cmds
             else (bot, [])).
  assert (S1 : same_config bot (fst r1)
               /\ (global_commands (_command_sync bot) = true ->
                   global_settled need_sync (fst r1) global_cmds)).
  { unfold r1. destruct (global_commands (_command_sync bot)).
    - pose proof (sync_global_frame need_sync http_bulk_upsert_global bot global_cmds) as F.
      cbv zeta in F. split.
      + unfold same_config. intuition.
      + intros _. now apply sync_global_settles with (http_bulk_upsert_guild := http_bulk_upsert_guild).
    - simpl. split; [apply same_config_refl | discriminate]. }
  destruct r1 as [bot1 t1]. simpl in S1. destruct S1 as [C1 G1].
  assert (Ef : _command_sync bot1 = _command_sync bot) by apply C1.
  rewrite Ef. destruct (guild_commands (_command_sync bot)).
  - pose proof (fold_sync_guild_same_setup need_sync http_bulk_upsert_guild guild_cmds bot1 t1) as S2.
    cbv zeta. split; [|split].
    + eapply same_config_trans; [exact C1 | apply S2].
    + intros G. eapply global_settled_same_setup; [exact S2 | auto].
    + intros _ item Hin.
      now apply fold_sync_guild_settles with (http_bulk_upsert_global := http_bulk_upsert_global).
  - simpl. split; [exact C1|]. split; [exact G1 | discriminate].
Qed.

(** On settled scopes the two branches do nothing. *)
Lemma sync_scopes_settled_noop bot global_cmds guild_cmds :
  (global_commands (_command_sync bot) = true ->
   global_settled need_sync bot global_cmds) ->
  (guild_commands (_command_sync bot) = true ->
   forall item, In item guild_cmds -> guild_settled need_sync bot item) ->
  sync_scopes' bot global_cmds guild_cmds = (bot, []).
Proof.
  intros G1 G2. unfold sync_scopes.
  assert (E : (if global_commands (_command_sync bot)
               then sync_global need_sync http_bulk_upsert_global bot global_cmds
               else (bot, [])) = (bot, [])).
  { destruct (global_commands (_command_sync bot)); [|reflexivity].
    now apply sync_global_settled_noop; apply G1. }
  rewrite E. destruct (guild_commands (_command_sync bot)); [|reflexivity].
  apply fold_sync_guild_settled_noop. now apply G2.
Qed.

End Passes.

(** C7. On a platform that answers every bulk overwrite with what it
    stored, running [_sync_application_commands] again on the state the
    first run left (no local command changed in between) has no effect at
    all: its trace is empty, so it holds no bulk overwrite for any scope, and
    the state stays as it was.  After a first run that was not cut short,
    every scope it processed is settled: its diff has nothing to create,
    update or delete. *)
Theorem second_sync_pushes_nothing
    (need_sync : ApplicationCommand -> ApplicationCommand -> bool)
    (http_bulk_upsert_global :
       list ApplicationCommand -> py_result (list ApplicationCommand))
    (http_bulk_upsert_guild :
       option Z -> list ApplicationCommand -> py_result (list ApplicationCommand))
    (bot : Bot) :
  faithful_platform need_sync http_bulk_upsert_global http_bulk_upsert_guild ->
  let sync :=
    _sync_application_commands need_sync http_bulk_upsert_global
      http_bulk_upsert_guild in
  let ordered :=
    _ordered_unsynced_commands (_all_app_commands bot) (_test_guilds bot) in
  let first := sync bot in
  let second := sync (fst first) in
  snd second = []
  /\ (forall s, pushes_for s (snd second) = [])
  /\ fst second = fst first
  /\ (sync_commands (_command_sync bot) = true -> _is_closed bot = false ->
      loop_is_closed bot = false ->
      (global_commands (_command_sync bot) = true ->
         global_settled need_sync (fst first) (fst (snd ordered)))
      /\ (guild_commands (_command_sync bot) = true ->
          forall item, In item (snd (snd ordered)) ->
            guild_settled need_sync (fst first) item)).
Proof.
  intros faithful sync ordered first second.
  assert (Main : second = (fst first, [])
                 /\ (sync_commands (_command_sync bot) = true ->
                     _is_closed bot = false -> loop_is_closed bot = false ->
                     (global_commands (_command_sync bot) = true ->
                        global_settled need_sync (fst first) (fst (snd ordered)))
                     /\ (guild_commands (_command_sync bot) = true ->
                         forall item, In item (snd (snd ordered)) ->
                           guild_settled need_sync (fst first) item))).
  { destruct (negb (sync_commands (_command_sync bot)) || _is_closed bot
              || loop_is_closed bot) eqn:Guard.
    - assert (E1 : first = (bot, [])).
      { unfold first, sync, _sync_application_commands. now rewrite Guard. }
      unfold second. rewrite E1. simpl fst. fold first. rewrite E1. split; [reflexivity|].
      intros Hs Hc Hl. rewrite Hs, Hc, Hl in Guard. discriminate.
    - pose proof (wf_ordered_unsynced (_all_app_commands bot) (_test_guilds bot)) as W.
      pose proof (ordered_unsynced_idem (_all_app_commands bot) (_test_guilds bot)) as Idem.
      fold ordered in W, Idem.
      assert (E1 : first = sync_scopes need_sync http_bulk_upsert_global
                             http_bulk_upsert_guild
                             (with_registry bot (fst ordered))
                             (fst (snd ordered)) (snd (snd ordered))).
      { unfold first, sync, _sync_application_commands. rewrite Guard.
        fold ordered. now destruct ordered as [reg [gl gu]]. }
      set (bot0 := with_registry bot (fst ordered)) in *.
      pose proof (sync_scopes_settles faithful bot0 (fst (snd ordered)) W) as S.
      cbv zeta in S. rewrite <- E1 in S. destruct S as [C [G1 G2]].
      change (_command_sync bot0) with (_command_sync bot) in G1, G2.
      split; [|intros; split; assumption].
      destruct C as [C1 [C2 [C3 [C4 C5]]]].
      change (_command_sync bot0) with (_command_sync bot) in C1.
      change (_all_app_commands bot0) with (fst ordered) in C2.
      change (_test_guilds bot0) with (_test_guilds bot) in C3.
      change (_is_closed bot0) with (_is_closed bot) in C4.
      change (loop_is_closed bot0) with (loop_is_closed bot) in C5.
      unfold second, sync, _sync_application_commands.
      rewrite C1, C2, C3, C4, C5, Guard. rewrite Idem.
      clearbody ordered first. destruct ordered as [reg [gl gu]].
      cbn [fst snd] in *.
      rewrite <- C2, with_registry_same.
      apply sync_scopes_settled_noop; now rewrite C1. }
  destruct Main as [E Hs]. rewrite E. simpl. repeat split; auto; apply Hs; auto.
Qed.

(** ** The storing platform is faithful *)

Lemma visible_eqb_with_id i c : visible_eqb c (with_id i c) = true.
Proof.
  unfold visible_eqb.
  change (description (with_id i c)) with (description c).
  change (options (with_id i c)) with (options c).
  change (default_member_permissions (with_id i c))
    with (default_member_permissions c).
  rewrite String.eqb_refl, py_eqb_refl.
  destruct (list_eq_dec string_dec (options c) (options c)) as [_|N];
    [reflexivity | contradiction].
Qed.

Lemma number_from_ids i l x :
  In x (map id (number_from i l)) -> exists j, x = Some j /\ (i <= j)%Z.
Proof.
  revert i. induction l as [|c l IH]; simpl; intros i; [tauto|].
  intros [<-|Hin].
  - exists i. split; [reflexivity | lia].
  - destruct (IH _ Hin) as [j [E Hj]]. exists j. split; [assumption | lia].
Qed.

Lemma stored_number_from i payload :
  stored structural_need_sync payload (number_from i payload).
Proof.
  split.
  - revert i. induction payload as [|c l IH]; simpl; intros i; constructor; auto.
    split; [reflexivity|]. unfold structural_need_sync.
    now rewrite visible_eqb_with_id.
  - revert i. induction payload as [|c l IH]; simpl; intros i; constructor; auto.
    intros Hin. apply number_from_ids in Hin. destruct Hin as [j [E Hj]].
    inversion E. lia.
Qed.

Lemma echo_faithful :
  faithful_platform structural_need_sync echo_global echo_guild.
Proof.
  split.
  - intros payload. exists (number_from 1 payload).
    split; [reflexivity | apply stored_number_from].
  - intros g payload. exists (number_from 1 payload).
    split; [reflexivity | apply stored_number_from].
Qed.

(** ** Concrete runs *)

(** The scenario of the spec: locally a (global) and b (guild 7), remotely
    a with another description and c, both global.  The global diff
    updates a and deletes c; b is not part of the comparison. *)
Example global_diff_scenario :
  let a := {| body := command_body "a" chat_input "new text" None;
              guild_ids := None; auto_sync := true |} in
  let b := command "b" chat_input (Some [7%Z]) in
  let reg := fst (add_slash_command (fst (add_slash_command [] a)) b) in
  let a' := command_body "a" chat_input "old text" (Some 1%Z) in
  let c := command_body "c" chat_input "" (Some 2%Z) in
  let conn := {| _global_application_commands := [(Some 1%Z, a'); (Some 2%Z, c)];
                 _guild_application_commands := [] |} in
  let ordered := _ordered_unsynced_commands reg None in
  snd ordered = ([body a], [(7%Z, [body b])])
  /\ global_diff structural_need_sync (bot_of true reg conn) (fst (snd ordered))
     = {| no_changes := []; upsert := []; edit := [body a]; delete := [c] |}.
Proof. split; reflexivity. Qed.

(** A command declared for two guilds sits under two keys, is met twice by
    the sorting loop and so appears twice in the list of each guild; the
    key map of the diff keeps one. *)
Example two_guilds_met_twice :
  let pong := command "pong" chat_input (Some [7%Z; 8%Z]) in
  let reg := fst (add_slash_command [] pong) in
  let conn := {| _global_application_commands := [];
                 _guild_application_commands := [] |} in
  snd (snd (_ordered_unsynced_commands reg None))
  = [(7%Z, [body pong; body pong]); (8%Z, [body pong; body pong])]
  /\ snd (_sync_application_commands structural_need_sync echo_global echo_guild
            (bot_of true reg conn))
     = [BulkOverwriteGuild (Some 7%Z) [body pong];
        BulkOverwriteGuild (Some 8%Z) [body pong]].
Proof. split; reflexivity. Qed.

(** A command without [auto_sync] is marked always-synced by the pass and
    keeps the remote version in the payload. *)
Example manual_command_keeps_remote :
  let manual := {| body := command_body "m" chat_input "local text" None;
                   guild_ids := None; auto_sync := false |} in
  let fresh := command "n" chat_input None in
  let reg := fst (add_slash_command (fst (add_slash_command [] manual)) fresh) in
  let m' := command_body "m" chat_input "remote text" (Some 1%Z) in
  let conn := {| _global_application_commands := [(Some 1%Z, m')];
                 _guild_application_commands := [] |} in
  snd (_sync_application_commands structural_need_sync echo_global echo_guild
         (bot_of true reg conn))
  = [BulkOverwriteGlobal [m'; body fresh]].
Proof. reflexivity. Qed.

Lemma second_sync_pushes_nothing_witness :
  let ping := command "ping" chat_input None in
  let pong := command "pong" chat_input (Some [7%Z]) in
  let reg := fst (add_slash_command (fst (add_slash_command [] ping)) pong) in
  let conn := {| _global_application_commands := [];
                 _guild_application_commands := [] |} in
  let sync := _sync_application_commands structural_need_sync echo_global echo_guild in
  let first := sync (bot_of true reg conn) in
  snd first = [BulkOverwriteGlobal [body ping];
               BulkOverwriteGuild (Some 7%Z) [body pong]]
  /\ snd (sync (fst first)) = [].
Proof.
  intros ping pong reg conn sync first. split; [reflexivity|].
  exact (proj1 (@second_sync_pushes_nothing structural_need_sync echo_global
                  echo_guild (bot_of true reg conn) echo_faithful)).
Defined.

Lemma sync_pushes_once_iff_update_witness :
  let ping := command "ping" chat_input None in
  let reg := fst (add_slash_command [] ping) in
  let conn := {| _global_application_commands := [];
                 _guild_application_commands := [] |} in
  pushes_for GlobalScope
    (snd (_sync_application_commands structural_need_sync echo_global echo_guild
            (bot_of true reg conn)))
  = [[body ping]].
Proof.
  intros ping reg conn.
  refine (proj2 (proj1 (@sync_pushes_once_iff_update structural_need_sync
                          echo_global echo_guild (bot_of true reg conn)
                          eq_refl eq_refl eq_refl) eq_refl) _).
  intros [E _]. discriminate E.
Defined.

(** C1. Deletion is disabled, guild 7 has the local command ping, and the
    snapshot of guild 7 holds ping and a command stale that is not
    declared locally.  The guild path leaves stale in the delete bucket
    and overwrites the guild with ping alone, which removes stale.  With
    deletion enabled the same data give no call at all: stale is kept.
    The global path on the same data behaves as its comment says: with
    deletion disabled stale is kept, with deletion enabled it is
    removed. *)
Theorem guild_sync_deletes_when_deletion_disabled :
  let sync := _sync_application_commands structural_need_sync echo_global echo_guild in
  let stale := command_body "stale" chat_input "" (Some 2%Z) in
  let snapshot (c : ApplicationCommand) : Snapshot :=
    [(Some 1%Z, with_id 1 c); (Some 2%Z, stale)] in
  let ping := command "ping" chat_input (Some [7%Z]) in
  let reg := fst (add_slash_command [] ping) in
  let conn := {| _global_application_commands := [];
                 _guild_application_commands := [(Some 7%Z, snapshot (body ping))] |} in
  let gping := command "ping" chat_input None in
  let greg := fst (add_slash_command [] gping) in
  let gconn := {| _global_application_commands := snapshot (body gping);
                  _guild_application_commands := [] |} in
  delete (guild_diff structural_need_sync (bot_of false reg conn) 7 [body ping])
  = [stale]
  /\ snd (sync (bot_of false reg conn)) = [BulkOverwriteGuild (Some 7%Z) [body ping]]
  /\ snd (sync (bot_of true reg conn)) = []
  /\ delete (global_diff structural_need_sync (bot_of false greg gconn) [body gping])
     = []
  /\ snd (sync (bot_of false greg gconn)) = []
  /\ snd (sync (bot_of true greg gconn)) = [BulkOverwriteGlobal [body gping]].
Proof. repeat split. Qed.

(** ** Dispatcher *)

Section DispatchClaims.
Variable http_bulk_upsert_guild :
  option Z -> list ApplicationCommand -> py_result (list ApplicationCommand).
Variable send_message : Interaction -> string -> bool -> py_result unit.
Variable application_command_can_run : Interaction -> py_result bool.
Variable invoke : InvokableApplicationCommand -> Interaction -> py_result unit.
Variable dispatch_error :
  InvokableApplicationCommand -> Interaction -> py_exn -> py_result unit.

#[local] Abbreviation process :=
  (process_application_commands http_bulk_upsert_guild send_message
     application_command_can_run invoke dispatch_error).

Lemma except_http_pass_transport {A} (r : py_result A) :
  transport_outcome r -> except_http_pass r = Returned tt.
Proof.
  unfold transport_outcome. destruct r as [a|e]; [reflexivity|].
  intros T. now rewrite (T e eq_refl).
Qed.

Lemma bulk_overwrite_guild_result conn g payload :
  snd (bulk_overwrite_guild_commands http_bulk_upsert_guild conn g payload)
  = http_bulk_upsert_guild g payload.
Proof.
  unfold bulk_overwrite_guild_commands.
  now destruct (http_bulk_upsert_guild g payload).
Qed.

Lemma except_http_pass_other {A} (e : py_exn) :
  e <> HTTPException -> except_http_pass (@Raised A e) = Raised e.
Proof. destruct e; simpl; intros N; try reflexivity. now elim N. Qed.

(** C5. Sync is enabled, no sync is queued, and the command id of the
    interaction is in neither the global snapshot nor the snapshot of its
    guild.  Then [process_application_commands] first asks for a bulk
    overwrite of the guild with the empty list, and dispatches and invokes
    nothing.  The two [try] blocks catch [disnake.HTTPException] only:
    when the clear call returns or fails with [HTTPException], the trace is
    exactly this call followed by the ephemeral notice, and the coroutine
    returns without raising when the reply too returns or fails with
    [HTTPException], and raises the exception of the reply otherwise; when
    the clear call fails with any other exception, no notice is sent and
    the coroutine raises that exception. *)
Theorem unknown_command_id_resyncs bot interaction :
  sync_commands (_command_sync bot) = true ->
  _sync_queued bot = false ->
  get_global_command bot (data_id interaction) = None ->
  get_guild_command bot (interaction_guild_id interaction) (data_id interaction)
  = None ->
  let clear := BulkOverwriteGuild (interaction_guild_id interaction) [] in
  let '(_, trace, res) := process bot interaction in
  (exists rest, trace = clear :: rest)
  /\ forallb (fun e => negb (is_invocation e)) trace = true
  /\ (transport_outcome
        (http_bulk_upsert_guild (interaction_guild_id interaction) []) ->
      trace = [clear; SendMessage just_synced_notice true]
      /\ (transport_outcome (send_message interaction just_synced_notice true) ->
          res = Returned tt)
      /\ (forall e,
            send_message interaction just_synced_notice true = Raised e ->
            e <> HTTPException -> res = Raised e))
  /\ (forall e,
        http_bulk_upsert_guild (interaction_guild_id interaction) [] = Raised e ->
        e <> HTTPException -> trace = [clear] /\ res = Raised e).
Proof.
  intros Hs Hq Hg Hgu clear.
  unfold process_application_commands. rewrite Hs, Hq, Hg, Hgu. simpl andb. cbv iota.
  unfold resync_unknown.
  pose proof (bulk_overwrite_guild_result (_connection bot)
                (interaction_guild_id interaction) []) as R.
  destruct (bulk_overwrite_guild_commands http_bulk_upsert_guild (_connection bot)
              (interaction_guild_id interaction) []) as [conn res0].
  simpl in R. subst res0.
  destruct (except_http_pass (http_bulk_upsert_guild _ [])) as [[]|e0] eqn:E0.
  - destruct (except_http_pass (send_message interaction just_synced_notice true))
      as [[]|e1] eqn:E1.
    + split; [eexists; reflexivity|]. split; [reflexivity|]. split.
      * intros _. split; [reflexivity|]. split; [reflexivity|].
        intros e Er N. rewrite Er, (except_http_pass_other N) in E1.
        discriminate E1.
      * intros e Er N. rewrite Er, (except_http_pass_other N) in E0.
        discriminate E0.
    + split; [eexists; reflexivity|]. split; [reflexivity|]. split.
      * intros _. split; [reflexivity|]. split.
        -- intros T. rewrite (except_http_pass_transport T) in E1. discriminate.
        -- intros e Er N. rewrite Er, (except_http_pass_other N) in E1.
           now inversion E1.
      * intros e Er N. rewrite Er, (except_http_pass_other N) in E0.
        discriminate E0.
  - split; [eexists; reflexivity|]. split; [reflexivity|]. split.
    + intros T. rewrite (except_http_pass_transport T) in E0. discriminate.
    + intros e Er N. rewrite Er, (except_http_pass_other N) in E0.
      inversion E0. split; reflexivity.
Qed.

End DispatchClaims.

Lemma unknown_command_id_resyncs_witness :
  let bot := bot_of true [] {| _global_application_commands := [];
                               _guild_application_commands := [] |} in
  let interaction := {| data_id := 42; data_type := Some chat_input;
                        interaction_guild_id := Some 7%Z |} in
  let '(_, trace, res) :=
    process_application_commands http_guild_fails send_ok can_run_ok invoke_ok
      dispatch_error_ok bot interaction in
  trace = [BulkOverwriteGuild (Some 7%Z) []; SendMessage just_synced_notice true]
  /\ res = Returned tt.
Proof.
  intros bot interaction.
  pose proof (@unknown_command_id_resyncs http_guild_fails send_ok can_run_ok
                invoke_ok dispatch_error_ok bot interaction
                eq_refl eq_refl eq_refl eq_refl) as H.
  cbv zeta in H.
  destruct (process_application_commands http_guild_fails send_ok can_run_ok
              invoke_ok dispatch_error_ok bot interaction) as [[bot' trace] res].
  destruct H as [_ [_ [H _]]].
  assert (T1 : transport_outcome (http_guild_fails (Some 7%Z) [])).
  { intros e E. inversion E. reflexivity. }
  destruct (H T1) as [Ht [Hr _]]. split; [exact Ht|].
  apply Hr. intros e E. discriminate E.
Defined.

(** C5, as stated, fails in its last clause: the two [try] blocks
    catch [disnake.HTTPException] and nothing else.  On an unknown command
    id, with the clear call failing with the transport error (and caught),
    a reply that raises any other exception leaves the coroutine by that
    exception. *)
Lemma unknown_command_id_reply_error_escapes :
  ~ (forall (http_bulk_upsert_guild :
               option Z -> list ApplicationCommand
               -> py_result (list ApplicationCommand))
            (send_message : Interaction -> string -> bool -> py_result unit)
            (can_run : Interaction -> py_result bool)
            (invoke : InvokableApplicationCommand -> Interaction -> py_result unit)
            (dispatch_error :
               InvokableApplicationCommand -> Interaction -> py_exn
               -> py_result unit)
            bot interaction,
       sync_commands (_command_sync bot) = true ->
       _sync_queued bot = false ->
       get_global_command bot (data_id interaction) = None ->
       get_guild_command bot (interaction_guild_id interaction)
                         (data_id interaction) = None ->
       let '(_, trace, res) :=
         process_application_commands http_bulk_upsert_guild send_message
           can_run invoke dispatch_error bot interaction in
       In (BulkOverwriteGuild (interaction_guild_id interaction) []) trace
       /\ In (SendMessage just_synced_notice true) trace
       /\ forallb (fun e => negb (is_invocation e)) trace = true
       /\ res = Returned tt).
Proof.
  intros H.
  specialize (H http_guild_fails send_raises can_run_ok invoke_ok
                dispatch_error_ok
                (bot_of true [] {| _global_application_commands := [];
                                   _guild_application_commands := [] |})
                {| data_id := 42; data_type := Some chat_input;
                   interaction_guild_id := Some 7%Z |}
                eq_refl eq_refl eq_refl eq_refl).
  simpl in H. destruct H as [_ [_ [_ E]]]. discriminate E.
Qed.

(** The two runs behind it, on the empty registry and empty snapshots:
    a reply that raises, after the clear call and the attempted notice;
    and a clear call that raises, after which no notice is sent. *)
Example unknown_command_id_errors_escape :
  let bot := bot_of true [] {| _global_application_commands := [];
                               _guild_application_commands := [] |} in
  let interaction := {| data_id := 42; data_type := Some chat_input;
                        interaction_guild_id := Some 7%Z |} in
  process_application_commands http_guild_fails send_raises can_run_ok
    invoke_ok dispatch_error_ok bot interaction
  = (bot, [BulkOverwriteGuild (Some 7%Z) []; SendMessage just_synced_notice true],
     Raised OtherException)
  /\ process_application_commands http_guild_raises send_ok can_run_ok
       invoke_ok dispatch_error_ok bot interaction
     = (bot, [BulkOverwriteGuild (Some 7%Z) []], Raised OtherException).
Proof. split; reflexivity. Qed.

(** A known command id is routed to the command whose body carries it. *)
Example known_command_is_invoked :
  let ping := {| body := command_body "ping" chat_input "" (Some 42%Z);
                 guild_ids := None; auto_sync := true |} in
  let reg := fst (add_slash_command [] ping) in
  let conn := {| _global_application_commands := [(Some 42%Z, body ping)];
                 _guild_application_commands := [] |} in
  let interaction := {| data_id := 42; data_type := Some chat_input;
                        interaction_guild_id := Some 7%Z |} in
  process_application_commands http_guild_fails send_ok can_run_ok invoke_ok
    dispatch_error_ok (bot_of true reg conn) interaction
  = (bot_of true reg conn,
     [Dispatch "slash_command"; Invoke ping; Dispatch "slash_command_completion"],
     Returned tt).
Proof. reflexivity. Qed.

(** * Further properties *)

(** ** Registration, lookup and removal *)

Lemma register_in_guilds_returns reg cmd gs :
  snd (register_in_guilds reg cmd gs) = Returned tt ->
  NoDup gs
  /\ (forall g, In g gs -> PyDict.contains reg (key_of cmd (Some g)) = false)
  /\ fst (register_in_guilds reg cmd gs) = inserted reg cmd gs.
Proof.
  revert reg. induction gs as [|g gs IH]; simpl; intros reg R.
  - repeat split; [constructor | intros g []].
  - destruct (utils_get reg (cmd_name cmd) (cmd_type cmd) (Some g)) eqn:E;
      [discriminate R|].
    apply utils_get_None, contains_get_None in E.
    destruct (IH _ R) as [ND [F I]].
    assert (Hg : ~ In g gs).
    { intros Hin. specialize (F g Hin). unfold PyDict.contains, key_of in F.
      rewrite get_set_same in F. discriminate. }
    repeat split.
    + now constructor.
    + intros g' [<-|Hin]; [exact E|].
      specialize (F g' Hin).
      destruct (PyDict.contains reg (key_of cmd (Some g'))) eqn:C; [|reflexivity].
      apply (contains_set_mono reg (metadata (cmd_name cmd) (Some g) (cmd_type cmd)) cmd)
        in C.
      unfold key_of in *. congruence.
    + exact I.
Qed.

Lemma register_in_guilds_fresh reg cmd gs :
  NoDup gs ->
  (forall g, In g gs -> PyDict.contains reg (key_of cmd (Some g)) = false) ->
  register_in_guilds reg cmd gs = (inserted reg cmd gs, Returned tt).
Proof.
  intros ND F.
  pose proof (@register_in_guilds_prefix reg cmd gs [] ND F) as P.
  rewrite app_nil_r in P. exact P.
Qed.

Lemma NoDup_map_Some {A} (l : list A) : NoDup (map Some l) <-> NoDup l.
Proof.
  induction l as [|a l IH]; simpl.
  - split; constructor.
  - split; intros ND; inversion ND as [|? ? Hnot ND']; subst; constructor.
    + intros Hin. apply Hnot. now apply in_map.
    + now apply IH.
    + intros Hin. apply in_map_iff in Hin. destruct Hin as [x [E Hx]].
      inversion E; subst. contradiction.
    + now apply IH.
Qed.

(** What [register] does, in closed form. *)
Lemma register_returns_iff reg cmd :
  snd (register reg cmd) = Returned tt
  <-> NoDup (scopes cmd)
      /\ (forall g, In g (scopes cmd) -> PyDict.contains reg (key_of cmd g) = false).
Proof.
  unfold register, scopes. destruct (truthy_seq (guild_ids cmd)).
  - set (gs := match guild_ids cmd with Some gs => gs | None => [] end).
    split.
    + intros R. destruct (@register_in_guilds_returns reg cmd gs R) as [ND [F _]].
      split; [now apply NoDup_map_Some|].
      intros g Hin. apply in_map_iff in Hin. destruct Hin as [z [<- Hz]]. auto.
    + intros [ND F]. apply (proj1 (NoDup_map_Some _)) in ND. fold gs in ND, F.
      rewrite register_in_guilds_fresh; [reflexivity | assumption|].
      intros g Hg. apply F. now apply in_map.
  - split.
    + intros R.
      destruct (utils_get reg (cmd_name cmd) (cmd_type cmd) None) eqn:E;
        [discriminate R|].
      split; [constructor; [intros []|constructor]|].
      intros g [<-|[]]. now apply contains_get_None, utils_get_None.
    + intros [_ F].
      assert (E : utils_get reg (cmd_name cmd) (cmd_type cmd) None = None).
      { apply utils_get_None, contains_get_None. apply F. now left. }
      now rewrite E.
Qed.

Lemma register_lookup reg cmd :
  snd (register reg cmd) = Returned tt ->
  (forall g, In g (scopes cmd) ->
     PyDict.get (fst (register reg cmd)) (key_of cmd g) = Some cmd)
  /\ (forall k, (forall g, In g (scopes cmd) -> k <> key_of cmd g) ->
        PyDict.get (fst (register reg cmd)) k = PyDict.get reg k).
Proof.
  unfold register, scopes. destruct (truthy_seq (guild_ids cmd)).
  - set (gs := match guild_ids cmd with Some gs => gs | None => [] end).
    intros R. destruct (@register_in_guilds_returns reg cmd gs R) as [_ [_ I]].
    rewrite I. split.
    + intros g Hin. apply in_map_iff in Hin. destruct Hin as [z [<- Hz]].
      now apply get_inserted_in.
    + intros k N. apply get_inserted_other. intros g Hg E.
      apply (N (Some g)); [now apply in_map | now symmetry].
  - destruct (utils_get reg (cmd_name cmd) (cmd_type cmd) None) eqn:E;
      [discriminate|]. simpl. intros _. split.
    + intros g [<-|[]]. apply get_set_same.
    + intros k N. apply get_set_other. intros Ek. apply (N None); [now left|].
      now symmetry.
Qed.

Lemma adders_spec t add :
  In (t, add) adders ->
  forall reg cmd,
    add reg cmd = if negb (py_eqb (cmd_type cmd) t)
                  then (reg, Raised TypeError) else register reg cmd.
Proof.
  intros [E|[E|[E|[]]]] reg cmd; inversion E; subst; reflexivity.
Qed.

(** X1. Each of [add_slash_command], [add_user_command] and
    [add_message_command], given a command of its class, returns normally
    exactly when the scopes of the command are pairwise distinct and none
    of its keys is in the registry; so a command that names a guild twice
    cannot be registered. *)
Theorem add_returns_iff_keys_free t add reg cmd :
  In (t, add) adders ->
  cmd_type cmd = t ->
  snd (add reg cmd) = Returned tt
  <-> NoDup (scopes cmd)
      /\ (forall g, In g (scopes cmd) -> PyDict.contains reg (key_of cmd g) = false).
Proof.
  intros Hin T. rewrite (adders_spec Hin), T, py_eqb_refl. simpl.
  apply register_returns_iff.
Qed.

Lemma add_returns_iff_keys_free_witness :
  let twice := command "ping" chat_input (Some [7%Z; 7%Z]) in
  snd (add_slash_command [] twice) <> Returned tt.
Proof.
  intros twice R.
  apply (proj1 (@add_returns_iff_keys_free chat_input add_slash_command [] twice
                  (or_introl eq_refl) eq_refl)) in R.
  destruct R as [ND _]. inversion ND as [|? ? Hnot _]. apply Hnot. now left.
Defined.

(** X2. After an [add_*] call that returned normally, every key of the
    command, one per scope it is declared for, maps to the command, and
    every other key of the registry maps to what it mapped to before. *)
Theorem add_then_lookup t add reg cmd :
  In (t, add) adders ->
  cmd_type cmd = t ->
  snd (add reg cmd) = Returned tt ->
  (forall g, In g (scopes cmd) ->
     PyDict.get (fst (add reg cmd)) (key_of cmd g) = Some cmd)
  /\ (forall k, (forall g, In g (scopes cmd) -> k <> key_of cmd g) ->
        PyDict.get (fst (add reg cmd)) k = PyDict.get reg k).
Proof.
  intros Hin T. rewrite (adders_spec Hin), T, py_eqb_refl. simpl.
  apply register_lookup.
Qed.

Lemma add_then_lookup_witness :
  let pong := command "pong" user (Some [7%Z; 8%Z]) in
  PyDict.get (fst (add_user_command [] pong)) (key_of pong (Some 8%Z)) = Some pong.
Proof.
  intros pong.
  refine (proj1 (@add_then_lookup user add_user_command [] pong
                   (or_intror (or_introl eq_refl)) eq_refl eq_refl) (Some 8%Z) _).
  simpl; auto.
Defined.

Lemma get_pop_other {K V} `{PyEq K} (d : PyDict.dict K V) k k' :
  k' <> k -> PyDict.get (snd (PyDict.pop d k)) k' = PyDict.get d k'.
Proof.
  intros N. induction d as [|[k0 v0] r IH]; simpl; [reflexivity|].
  destruct (py_eqb k0 k) eqn:E; simpl.
  - apply py_eqb_eq in E; subst.
    assert (E' : py_eqb k k' = false) by (apply py_eqb_neq; congruence).
    now rewrite E'.
  - destruct (PyDict.pop r k) as [res r'] eqn:P. simpl in *. now rewrite IH.
Qed.

Lemma get_pop_same {K V} `{PyEq K} (d : PyDict.dict K V) k :
  PyDict.wf d -> PyDict.get (snd (PyDict.pop d k)) k = None.
Proof.
  unfold PyDict.wf. induction d as [|[k0 v0] r IH]; simpl; [reflexivity|].
  intros ND. inversion ND as [|? ? Hnot ND']; subst.
  destruct (py_eqb k0 k) eqn:E; simpl.
  - apply py_eqb_eq in E; subst. now apply get_None_iff.
  - destruct (PyDict.pop r k) as [res r'] eqn:P. simpl in *. rewrite E. auto.
Qed.

Lemma pop_set_fresh {K V} `{PyEq K} (d : PyDict.dict K V) k v :
  PyDict.get d k = None -> PyDict.pop (PyDict.set d k v) k = (Some v, d).
Proof.
  induction d as [|[k0 v0] r IH]; simpl.
  - now rewrite py_eqb_refl.
  - destruct (py_eqb k0 k) eqn:E; [discriminate|]. intros G. simpl.
    now rewrite E, IH.
Qed.

Lemma remove_by_pop (reg : Registry) k :
  (let (command, reg') := PyDict.pop reg k in
   match command with
   | None => (reg', None)
   | Some c => (reg', Some c)
   end) = (snd (PyDict.pop reg k), fst (PyDict.pop reg k)).
Proof. destruct (PyDict.pop reg k) as [[c|] r]; reflexivity. Qed.

Lemma removers_spec t remove :
  In (t, remove) removers ->
  forall reg n g,
    remove reg n g
    = (snd (PyDict.pop reg (metadata n g t)), fst (PyDict.pop reg (metadata n g t))).
Proof.
  intros [E|[E|[]]] reg n g; inversion E; subst.
  - unfold remove_user_command. apply remove_by_pop.
  - unfold remove_message_command. apply remove_by_pop.
Qed.

Lemma remove_slash_spec reg n g :
  g <> Some 0%Z ->
  remove_slash_command reg n g
  = (snd (PyDict.pop reg (metadata n g chat_input)),
     fst (PyDict.pop reg (metadata n g chat_input))).
Proof.
  intros N. unfold remove_slash_command.
  assert (E : (if truthy_int g then metadata n g chat_input
               else metadata n None chat_input) = metadata n g chat_input).
  { destruct g as [z|]; simpl; [|reflexivity].
    destruct (Z.eqb_spec z 0) as [->|_]; [congruence | reflexivity]. }
  rewrite E. apply remove_by_pop.
Qed.

(** X3. Removing a key that is registered: [remove_user_command] and
    [remove_message_command], and [remove_slash_command] for a guild id
    other than 0, return the command the key held; afterwards the key is
    gone and every other key maps to what it mapped to before. *)
Theorem remove_registered_returns_it reg n g c :
  reachable reg ->
  let removed t (r : Registry * option InvokableApplicationCommand) :=
    snd r = Some c
    /\ PyDict.get (fst r) (metadata n g t) = None
    /\ (forall k, k <> metadata n g t -> PyDict.get (fst r) k = PyDict.get reg k) in
  (forall t remove, In (t, remove) removers ->
     PyDict.get reg (metadata n g t) = Some c -> removed t (remove reg n g))
  /\ (g <> Some 0%Z -> PyDict.get reg (metadata n g chat_input) = Some c ->
      removed chat_input (remove_slash_command reg n g)).
Proof.
  intros R removed. apply reachable_wf in R.
  assert (P : forall t, PyDict.get reg (metadata n g t) = Some c ->
                removed t (snd (PyDict.pop reg (metadata n g t)),
                           fst (PyDict.pop reg (metadata n g t)))).
  { intros t G. unfold removed. simpl. rewrite pop_fst. repeat split.
    - exact G.
    - now apply get_pop_same.
    - intros k N. now apply get_pop_other. }
  split.
  - intros t remove Hin G. rewrite (removers_spec Hin). now apply P.
  - intros N G. rewrite remove_slash_spec by assumption. now apply P.
Qed.

Lemma remove_registered_returns_it_witness :
  let pong := command "pong" user (Some [7%Z]) in
  let reg := fst (add_user_command [] pong) in
  snd (remove_user_command reg "pong" (Some 7%Z)) = Some pong.
Proof.
  intros pong reg.
  assert (R : reachable reg) by apply reach_add_user, reach_empty.
  exact (proj1 (proj1 (@remove_registered_returns_it reg "pong" (Some 7%Z) pong R)
                  user remove_user_command (or_introl eq_refl) eq_refl)).
Defined.

(** X4. Registering a command declared for one scope and then removing it
    by its name and that scope gives back the command and the registry
    exactly as it was before, order included (for [remove_slash_command],
    when the scope is not guild 0). *)
Theorem add_then_remove_restores reg cmd g :
  scopes cmd = [g] ->
  (forall t add remove, In (t, add) adders -> In (t, remove) removers ->
     cmd_type cmd = t -> snd (add reg cmd) = Returned tt ->
     remove (fst (add reg cmd)) (cmd_name cmd) g = (reg, Some cmd))
  /\ (cmd_type cmd = chat_input -> g <> Some 0%Z ->
      snd (add_slash_command reg cmd) = Returned tt ->
      remove_slash_command (fst (add_slash_command reg cmd)) (cmd_name cmd) g
      = (reg, Some cmd)).
Proof.
  intros S.
  assert (P : snd (register reg cmd) = Returned tt ->
              PyDict.pop (fst (register reg cmd)) (key_of cmd g) = (Some cmd, reg)).
  { intros R. pose proof (proj1 (register_returns_iff reg cmd) R) as [_ F].
    assert (G : PyDict.get reg (key_of cmd g) = None).
    { apply contains_get_None, F. rewrite S. now left. }
    assert (E : fst (register reg cmd) = PyDict.set reg (key_of cmd g) cmd).
    { revert R S. unfold register, scopes.
      destruct (truthy_seq (guild_ids cmd)).
      - destruct (guild_ids cmd) as [[|z [|z' gs]]|]; simpl; try discriminate.
        intros R [= <-]. revert R.
        destruct (utils_get reg (cmd_name cmd) (cmd_type cmd) (Some z));
          [discriminate | reflexivity].
      - intros R [= <-]. revert R.
        destruct (utils_get reg (cmd_name cmd) (cmd_type cmd) None);
          [discriminate | reflexivity]. }
    rewrite E. now apply pop_set_fresh. }
  split.
  - intros t add remove Ha Hr T R.
    rewrite (adders_spec Ha), T, py_eqb_refl in R |- *. simpl in R |- *.
    rewrite (removers_spec Hr). rewrite <- T. fold (key_of cmd g).
    now rewrite (P R).
  - intros T N R. unfold add_slash_command in R |- *.
    rewrite T in R |- *. simpl in R |- *.
    rewrite remove_slash_spec by assumption.
    assert (K : metadata (cmd_name cmd) g chat_input = key_of cmd g)
      by (unfold key_of; now rewrite T).
    rewrite K. now rewrite (P R).
Qed.

Lemma add_then_remove_restores_witness :
  let ping := command "ping" user None in
  let pong := command "pong" user (Some [7%Z]) in
  let reg := fst (add_user_command [] ping) in
  remove_user_command (fst (add_user_command reg pong)) "pong" (Some 7%Z)
  = (reg, Some pong).
Proof.
  intros ping pong reg.
  exact (proj1 (@add_then_remove_restores reg pong (Some 7%Z) eq_refl)
           user add_user_command remove_user_command
           (or_intror (or_introl eq_refl)) (or_introl eq_refl) eq_refl eq_refl).
Defined.

Lemma In_pop {K V} `{PyEq K} (d : PyDict.dict K V) k x :
  In x (snd (PyDict.pop d k)) -> In x d.
Proof.
  induction d as [|[k0 v0] r IH]; simpl; [tauto|].
  destruct (py_eqb k0 k); simpl; [auto|].
  destruct (PyDict.pop r k) as [res r'] eqn:P. simpl in *.
  intros [<-|Hin]; auto.
Qed.

Lemma consistent_set reg cmd g :
  consistent reg -> In g (scopes cmd) ->
  consistent (PyDict.set reg (key_of cmd g) cmd).
Proof.
  intros C Hg k c Hin. apply In_set in Hin.
  destruct Hin as [Hin|[-> ->]]; [now apply C | eauto].
Qed.

Lemma consistent_register_in_guilds reg cmd gs :
  consistent reg -> (forall g, In g gs -> In (Some g) (scopes cmd)) ->
  consistent (fst (register_in_guilds reg cmd gs)).
Proof.
  revert reg. induction gs as [|g gs IH]; simpl; intros reg C S; [exact C|].
  destruct (utils_get reg (cmd_name cmd) (cmd_type cmd) (Some g)); simpl;
    [exact C|].
  apply IH; [|auto].
  apply (@consistent_set reg cmd (Some g)); [exact C | auto].
Qed.

Lemma consistent_register reg cmd :
  consistent reg -> consistent (fst (register reg cmd)).
Proof.
  intros C. unfold register.
  destruct (truthy_seq (guild_ids cmd)) eqn:T.
  - apply consistent_register_in_guilds; [exact C|].
    intros g Hg. unfold scopes. rewrite T. now apply in_map.
  - destruct (utils_get reg (cmd_name cmd) (cmd_type cmd) None); simpl;
      [exact C|].
    apply (@consistent_set reg cmd None); [exact C|].
    unfold scopes. rewrite T. now left.
Qed.

Lemma consistent_pop (reg : Registry) k :
  consistent reg -> consistent (snd (PyDict.pop reg k)).
Proof. intros C k' c Hin. apply C. eapply In_pop; eauto. Qed.

Lemma reachable_consistent reg : reachable reg -> consistent reg.
Proof.
  induction 1 as [|r c R IH|r c R IH|r c R IH|r n g R IH|r n g R IH|r n g R IH].
  - intros k c [].
  - unfold add_slash_command. destruct (negb _); [exact IH|].
    now apply consistent_register.
  - unfold add_user_command. destruct (negb _); [exact IH|].
    now apply consistent_register.
  - unfold add_message_command. destruct (negb _); [exact IH|].
    now apply consistent_register.
  - unfold remove_slash_command. rewrite remove_by_pop. simpl.
    now apply consistent_pop.
  - unfold remove_user_command. rewrite remove_by_pop. simpl.
    now apply consistent_pop.
  - unfold remove_message_command. rewrite remove_by_pop. simpl.
    now apply consistent_pop.
Qed.

(** X5. In every registry the registration API can build, a key agrees
    with the command it holds: its name and type are those of the command
    body and its scope is one the command is declared for.  So each of
    [slash_commands], [user_commands] and [message_commands] lists only
    commands of its own type, and every registered command is listed under
    its type. *)
Theorem registry_keys_agree reg :
  reachable reg ->
  (forall k c, PyDict.get reg k = Some c ->
     meta_name k = Str (cmd_name c) /\ meta_type k = cmd_type c
     /\ In (meta_guild_id k) (scopes c))
  /\ (forall t c, In c (commands_under t reg) -> cmd_type c = t)
  /\ (forall c, In c (all_app_commands reg) ->
        In c (commands_under (cmd_type c) reg)).
Proof.
  intros R. apply reachable_consistent in R. repeat apply conj.
  - intros k c G. apply get_Some_In in G. destruct (R k c G) as [g [Hg ->]].
    simpl. auto.
  - intros t c Hin. unfold commands_under in Hin.
    apply in_map_iff in Hin. destruct Hin as [[k c'] [E Hin]]. simpl in E; subst c'.
    apply filter_In in Hin. destruct Hin as [Hin T]. simpl in T.
    apply type_eqb_eq in T. destruct (R k c Hin) as [g [_ ->]]. exact T.
  - intros c Hin. unfold all_app_commands, PyDict.values in Hin.
    apply in_map_iff in Hin. destruct Hin as [[k c'] [E Hin]]. simpl in E; subst c'.
    unfold commands_under. apply in_map_iff. exists (k, c). split; [reflexivity|].
    apply filter_In. split; [exact Hin|]. simpl. apply type_eqb_eq.
    destruct (R k c Hin) as [g [_ ->]]. reflexivity.
Qed.

Lemma registry_keys_agree_witness :
  let ping := command "ping" chat_input None in
  let menu := command "menu" user (Some [7%Z]) in
  let reg := fst (add_user_command (fst (add_slash_command [] ping)) menu) in
  Forall (fun c => cmd_type c = chat_input) (slash_commands reg).
Proof.
  intros ping menu reg.
  assert (R : reachable reg) by apply reach_add_user, reach_add_slash, reach_empty.
  apply Forall_forall.
  exact (proj1 (proj2 (@registry_keys_agree reg R)) chat_input).
Defined.

(** X6. On a registry built by the registration API, [get_user_command]
    and [get_message_command] return no command, whatever the name and
    the guild: they pass through [get_app_command], whose key is not built
    from the name. *)
Theorem getters_return_no_command py39 reg n g c :
  reachable reg ->
  get_user_command py39 reg n g <> Returned (Some c)
  /\ get_message_command py39 reg n g <> Returned (Some c).
Proof.
  intros R. unfold get_user_command, get_message_command.
  rewrite !get_app_command_never_finds by assumption.
  destruct py39; split; discriminate.
Qed.

Lemma getters_return_no_command_witness :
  let menu := command "menu" user None in
  let reg := fst (add_user_command [] menu) in
  PyDict.get reg (metadata "menu" None user) = Some menu
  /\ get_user_command true reg "menu" None <> Returned (Some menu).
Proof.
  intros menu reg. split; [reflexivity|].
  assert (R : reachable reg) by apply reach_add_user, reach_empty.
  exact (proj1 (@getters_return_no_command true reg "menu" None menu R)).
Defined.

(** ** More on the diff *)

Lemma flat_map_app_perm {A B} (F G : A -> list B) l :
  Permutation (flat_map (fun x => F x ++ G x) l) (flat_map F l ++ flat_map G l).
Proof.
  induction l as [|a l IH]; simpl; [constructor|].
  rewrite <- !app_assoc. apply Permutation_app_head.
  eapply perm_trans; [apply Permutation_app_head, IH|].
  apply Permutation_app_swap_app.
Qed.

Lemma of_list_values_id {K V} `{PyEq K} (f : V -> K) (d : PyDict.dict K V) :
  PyDict.wf d -> (forall k x, In (k, x) d -> f x = k) ->
  PyDict.of_list f (PyDict.values d) = d.
Proof.
  intros W C.
  assert (E : map (fun x => (f x, x)) (PyDict.values d) = d).
  { clear W. unfold PyDict.values. induction d as [|[k x] r IH]; simpl;
      [reflexivity|].
    rewrite (C k x) by now left. f_equal. apply IH. intros k' x' Hin.
    apply C. now right. }
  rewrite of_list_NoDup; [exact E|].
  assert (Ek : map f (PyDict.values d) = PyDict.keys d).
  { rewrite <- E at 2. unfold PyDict.keys. now rewrite map_map. }
  now rewrite Ek.
Qed.

Lemma of_list_snoc {K V} `{PyEq K} (f : V -> K) l x :
  PyDict.of_list f (l ++ [x]) = PyDict.set (PyDict.of_list f l) (f x) x.
Proof. unfold PyDict.of_list. now rewrite fold_left_app. Qed.

Section MoreDiff.
Variable need_sync : ApplicationCommand -> ApplicationCommand -> bool.

(** X7. The diff reads each sequence through its key map: of several
    commands with one (name, type) key the last one counts, and the diff
    of two sequences is the diff of what their key maps hold. *)
Theorem diff_reads_key_maps new old :
  _app_commands_diff need_sync new old
  = _app_commands_diff need_sync
      (PyDict.values (PyDict.of_list name_and_type new))
      (PyDict.values (PyDict.of_list name_and_type old))
  /\ (forall l x,
        PyDict.get (PyDict.of_list name_and_type (l ++ [x])) (name_and_type x)
        = Some x).
Proof.
  split.
  - unfold _app_commands_diff.
    rewrite !of_list_values_id; try apply wf_of_list; try reflexivity;
      intros k x Hin; now apply (of_list_In name_and_type) in Hin.
  - intros l x. rewrite of_list_snoc. apply get_set_same.
Qed.

(** The one command the local loop files for an entry of the local map. *)
Lemma local_entry_filed old_cmds item :
  (forall o, PyDict.get old_cmds (fst item) = Some o -> name_and_type o = fst item) ->
  name_and_type (snd item) = fst item ->
  exists p,
    no_changes_of need_sync old_cmds item ++ edit_of need_sync old_cmds item
      ++ upsert_of old_cmds item = [p]
    /\ name_and_type p = fst item.
Proof.
  intros Ho Ek. unfold no_changes_of, edit_of, upsert_of.
  destruct (PyDict.get old_cmds (fst item)) as [o|] eqn:G.
  - destruct (_always_synced (snd item)).
    + exists o. split; [reflexivity | now apply Ho].
    + destruct (need_sync (snd item) o); exists (snd item); split;
        (reflexivity || assumption).
  - exists (snd item). split; [reflexivity | assumption].
Qed.

Lemma local_buckets_keys new old :
  let d := _app_commands_diff need_sync new old in
  Permutation (map name_and_type (no_changes d ++ edit d ++ upsert d))
              (PyDict.keys (PyDict.of_list name_and_type new)).
Proof.
  intros d. unfold d. rewrite app_commands_diff_buckets. simpl.
  set (new_cmds := PyDict.of_list name_and_type new).
  set (old_cmds := PyDict.of_list name_and_type old).
  assert (Hn : forall item, In item new_cmds -> name_and_type (snd item) = fst item).
  { intros [k c] Hin. now apply (of_list_In name_and_type new) in Hin. }
  assert (Ho : forall k o, PyDict.get old_cmds k = Some o -> name_and_type o = k).
  { intros k o G. now apply (of_list_get_key name_and_type old) in G. }
  clearbody new_cmds old_cmds.
  assert (P1 : Permutation
                 (flat_map (fun item =>
                              no_changes_of need_sync old_cmds item
                              ++ edit_of need_sync old_cmds item
                              ++ upsert_of old_cmds item) new_cmds)
                 (flat_map (no_changes_of need_sync old_cmds) new_cmds
                  ++ flat_map (edit_of need_sync old_cmds) new_cmds
                  ++ flat_map (upsert_of old_cmds) new_cmds)).
  { eapply perm_trans;
      [apply (flat_map_app_perm (no_changes_of need_sync old_cmds)
                (fun item => edit_of need_sync old_cmds item
                             ++ upsert_of old_cmds item))|].
    apply Permutation_app_head.
    apply (flat_map_app_perm (edit_of need_sync old_cmds) (upsert_of old_cmds)). }
  eapply perm_trans; [apply Permutation_map, Permutation_sym, P1|]. clear P1.
  induction new_cmds as [|item items IH]; simpl; [constructor|].
  destruct (@local_entry_filed old_cmds item) as [p [E Ek]].
  - intros o G. now apply Ho.
  - apply Hn. now left.
  - rewrite E. simpl. rewrite Ek. constructor. apply IH.
    intros it Hin. apply Hn. now right.
Qed.

Lemma delete_bucket_keys new old :
  let d := _app_commands_diff need_sync new old in
  NoDup (map name_and_type (delete d))
  /\ (forall p, In p (delete d) ->
        ~ In (name_and_type p) (PyDict.keys (PyDict.of_list name_and_type new))).
Proof.
  intros d. split; [|intros p; apply delete_bucket_foreign].
  unfold d. rewrite app_commands_diff_buckets. simpl.
  set (new_cmds := PyDict.of_list name_and_type new).
  pose proof (wf_of_list name_and_type old) as W.
  assert (Ho : forall item, In item (PyDict.of_list name_and_type old) ->
                 name_and_type (snd item) = fst item).
  { intros [k c] Hin. now apply (of_list_In name_and_type old) in Hin. }
  set (old_cmds := PyDict.of_list name_and_type old) in *.
  clearbody new_cmds old_cmds. unfold PyDict.wf in W.
  induction old_cmds as [|[k o] items IH]; simpl; [constructor|].
  inversion W as [|? ? Hnot W']; subst.
  assert (IH' : NoDup (map name_and_type (flat_map (delete_of new_cmds) items))).
  { apply IH; [assumption|]. intros it Hin. apply Ho. now right. }
  unfold delete_of at 1. simpl. destruct (PyDict.contains new_cmds k); [exact IH'|].
  simpl. constructor; [|exact IH'].
  intros Hin. apply in_map_iff in Hin. destruct Hin as [x [Ex Hx]].
  apply in_flat_map in Hx. destruct Hx as [[k' o'] [Hit Hx]].
  unfold delete_of in Hx. simpl in Hx.
  destruct (PyDict.contains new_cmds k'); [destruct Hx|]. destruct Hx as [<-|[]].
  assert (Ek' : name_and_type o' = k') by (apply (Ho (k', o')); now right).
  assert (Ek : name_and_type o = k) by (apply (Ho (k, o)); now left).
  apply Hnot. rewrite <- Ek, <- Ex, Ek'.
  change k' with (fst (k', o')). now apply in_map.
Qed.

(** X8. Whatever the two sequences, the commands of the four buckets bear
    pairwise distinct (name, type) keys; the keys of unchanged, update and
    create together are exactly the keys of the local commands; and the
    payload that is sent, with or without the kept deletions, names no key
    twice. *)
Theorem diff_buckets_keys new old flags :
  let d := _app_commands_diff need_sync new old in
  NoDup (map name_and_type (no_changes d ++ edit d ++ upsert d ++ delete d))
  /\ Permutation (map name_and_type (no_changes d ++ edit d ++ upsert d))
                 (PyDict.keys (PyDict.of_list name_and_type new))
  /\ NoDup (map name_and_type (to_send (global_policy flags d)))
  /\ NoDup (map name_and_type (to_send (guild_policy flags d))).
Proof.
  intros d.
  pose proof (local_buckets_keys new old) as P. cbv zeta in P. fold d in P.
  destruct (delete_bucket_keys new old) as [NDd Fd]. fold d in NDd, Fd.
  pose proof (wf_of_list name_and_type new) as W. unfold PyDict.wf in W.
  assert (NDl : NoDup (map name_and_type (no_changes d ++ edit d ++ upsert d))).
  { eapply Permutation_NoDup; [apply Permutation_sym, P | exact W]. }
  assert (NDall : NoDup (map name_and_type
                           ((no_changes d ++ edit d ++ upsert d) ++ delete d))).
  { rewrite map_app. apply NoDup_app; auto.
    intros k Hk Hd. apply in_map_iff in Hd. destruct Hd as [p [<- Hp]].
    apply (Fd p Hp). eapply Permutation_in; [exact P | exact Hk]. }
  assert (Keep : NoDup (map name_and_type (to_send (keep_deleted d)))).
  { eapply Permutation_NoDup; [|exact NDall]. apply Permutation_map.
    unfold to_send, keep_deleted. simpl.
    rewrite <- !app_assoc.
    apply Permutation_app_head.
    rewrite app_assoc. apply Permutation_app_comm. }
  repeat apply conj.
  - now rewrite <- !app_assoc in NDall.
  - exact P.
  - unfold global_policy. destruct (negb _); [exact Keep | exact NDl].
  - unfold guild_policy. destruct (allow_command_deletion _); [exact Keep | exact NDl].
Qed.

Lemma length_flat_map_singletons {A B} (F : A -> list B) l :
  (forall x, In x l -> List.length (F x) = 1%nat) ->
  List.length (flat_map F l) = List.length l.
Proof.
  induction l as [|a l IH]; simpl; intros E; [reflexivity|].
  rewrite length_app, E, IH by auto. reflexivity.
Qed.

(** X9. When the local commands are uniquely keyed and the remote sequence
    matches them one by one (same key, and either the local command is
    marked always-synced or [need_sync] finds no difference), the diff has
    nothing to create, update or delete, the unchanged bucket has one
    entry per local command, and neither path asks for an update. *)
Theorem matching_sets_all_unchanged new old flags :
  NoDup (map name_and_type new) ->
  Forall2 (fun c o => name_and_type o = name_and_type c
                      /\ (_always_synced c = true \/ need_sync c o = false))
          new old ->
  let d := _app_commands_diff need_sync new old in
  upsert d = [] /\ edit d = [] /\ delete d = []
  /\ List.length (no_changes d) = List.length new
  /\ update_required (global_policy flags d) = false
  /\ update_required (guild_policy flags d) = false.
Proof.
  intros NDn F2 d.
  assert (Ek : map name_and_type old = map name_and_type new).
  { clear NDn d. induction F2 as [|c o l l' [E _] _ IH]; simpl; [reflexivity|].
    now rewrite E, IH. }
  assert (NDo : NoDup (map name_and_type old)) by now rewrite Ek.
  set (new_cmds := PyDict.of_list name_and_type new).
  set (old_cmds := PyDict.of_list name_and_type old).
  assert (Hc : forall item, In item new_cmds ->
                 exists o, PyDict.get old_cmds (fst item) = Some o
                           /\ (_always_synced (snd item) = true
                               \/ need_sync (snd item) o = false)).
  { intros [k c] Hin. unfold new_cmds in Hin.
    rewrite of_list_NoDup in Hin by assumption.
    apply in_map_iff in Hin. destruct Hin as [c' [E Hc']]. inversion E; subst.
    destruct (@Forall2_In_l _ _ _ _ _ c F2 Hc') as [o [Ho [Eo S]]].
    exists o. split; [|exact S]. simpl. rewrite <- Eo.
    now apply of_list_get_In. }
  assert (Ho : forall item, In item old_cmds ->
                 PyDict.contains new_cmds (fst item) = true).
  { intros [k o] Hin. unfold old_cmds in Hin.
    rewrite of_list_NoDup in Hin by assumption.
    apply in_map_iff in Hin. destruct Hin as [o' [E Ho']]. inversion E; subst.
    destruct (@Forall2_In_r _ _ _ _ _ o F2 Ho') as [c [Hc' [Eo _]]].
    simpl. unfold PyDict.contains. rewrite Eo.
    unfold new_cmds. now rewrite of_list_get_In. }
  assert (U : upsert d = []).
  { unfold d. rewrite app_commands_diff_buckets. simpl.
    apply flat_map_nil_In. intros item Hin. unfold upsert_of.
    destruct (Hc item Hin) as [o [G _]]. fold old_cmds. now rewrite G. }
  assert (E : edit d = []).
  { unfold d. rewrite app_commands_diff_buckets. simpl.
    apply flat_map_nil_In. intros item Hin. unfold edit_of.
    destruct (Hc item Hin) as [o [G S]]. fold old_cmds. rewrite G.
    destruct (_always_synced (snd item)); [reflexivity|].
    destruct S as [S|S]; [discriminate | now rewrite S]. }
  assert (D : delete d = []).
  { unfold d. rewrite app_commands_diff_buckets. simpl.
    apply flat_map_nil_In. intros item Hin. unfold delete_of.
    fold new_cmds. now rewrite (Ho item Hin). }
  assert (L : List.length (no_changes d) = List.length new).
  { unfold d. rewrite app_commands_diff_buckets. simpl.
    fold new_cmds old_cmds. rewrite length_flat_map_singletons.
    - unfold new_cmds. rewrite of_list_NoDup by assumption. apply length_map.
    - intros item Hin. unfold no_changes_of.
      destruct (Hc item Hin) as [o [G S]]. rewrite G.
      destruct (_always_synced (snd item)); [reflexivity|].
      destruct S as [S|S]; [discriminate | now rewrite S]. }
  repeat apply conj; auto.
  - apply update_required_false. unfold global_policy.
    destruct (negb _); simpl; auto.
  - apply update_required_false. unfold guild_policy.
    destruct (allow_command_deletion _); simpl; auto.
Qed.

End MoreDiff.

Lemma matching_sets_all_unchanged_witness :
  let a := command_body "a" chat_input "text" None in
  let b := set_always_synced (command_body "b" user "local" None) in
  let b' := command_body "b" user "remote" (Some 2%Z) in
  update_required
    (global_policy (flags_of true)
       (_app_commands_diff structural_need_sync [a; b] [with_id 1 a; b']))
  = false.
Proof.
  intros a b b'.
  refine (proj1 (proj2 (proj2 (proj2 (proj2
            (@matching_sets_all_unchanged structural_need_sync [a; b]
               [with_id 1 a; b'] (flags_of true) _ _)))))).
  - constructor; [intros [E|[]]; discriminate E|].
    constructor; [intros []|constructor].
  - constructor; [split; [reflexivity | right; reflexivity]|].
    constructor; [split; [reflexivity | left; reflexivity]|]. constructor.
Defined.

(** ** The calls of a pass *)

Lemma calls_app t1 t2 : calls (t1 ++ t2) = calls t1 ++ calls t2.
Proof. apply filter_app. Qed.

Section CallFacts.
Variable need_sync : ApplicationCommand -> ApplicationCommand -> bool.
Variable http_bulk_upsert_global :
  list ApplicationCommand -> py_result (list ApplicationCommand).
Variable http_bulk_upsert_guild :
  option Z -> list ApplicationCommand -> py_result (list ApplicationCommand).

Lemma calls_sync_guild bot item :
  calls (snd (sync_guild need_sync http_bulk_upsert_guild (bot, []) item))
  = guild_call need_sync bot item.
Proof.
  destruct item as [g cmds]. unfold sync_guild, guild_call. simpl fst; simpl snd.
  destruct (update_required _); [|reflexivity].
  unfold bulk_overwrite_guild_commands.
  destruct (http_bulk_upsert_guild _ _); reflexivity.
Qed.

Lemma calls_sync_global bot global_cmds :
  calls (snd (sync_global need_sync http_bulk_upsert_global bot global_cmds))
  = global_call need_sync bot global_cmds.
Proof.
  unfold sync_global, global_call. destruct (update_required _); [|reflexivity].
  unfold bulk_overwrite_global_commands.
  destruct (http_bulk_upsert_global _); reflexivity.
Qed.

Lemma guild_call_ext bot bot' item :
  _command_sync bot' = _command_sync bot ->
  current_guild_cmds (_connection bot') (fst item)
  = current_guild_cmds (_connection bot) (fst item) ->
  guild_call need_sync bot' item = guild_call need_sync bot item.
Proof.
  intros E1 E2. unfold guild_call.
  now rewrite (guild_diff_ext need_sync _ _ (fst item) (snd item) E1 E2).
Qed.

Lemma flat_map_guild_call_ext items bot bot' :
  _command_sync bot' = _command_sync bot ->
  (forall g, In g (map fst items) ->
     current_guild_cmds (_connection bot') g = current_guild_cmds (_connection bot) g) ->
  flat_map (guild_call need_sync bot') items
  = flat_map (guild_call need_sync bot) items.
Proof.
  intros E1 E2. induction items as [|item items IH]; simpl; [reflexivity|].
  rewrite IH by (intros g Hg; apply E2; now right). f_equal.
  apply guild_call_ext; [exact E1|]. apply E2. now left.
Qed.

Lemma calls_fold_sync_guild items bot tr :
  NoDup (map fst items) ->
  calls (snd (fold_left (sync_guild need_sync http_bulk_upsert_guild) items (bot, tr)))
  = calls tr ++ flat_map (guild_call need_sync bot) items.
Proof.
  revert bot tr. induction items as [|[g0 c0] items IH]; intros bot tr ND;
    cbn [fold_left flat_map]; [now rewrite app_nil_r|].
  inversion ND as [|? ? Hnot ND']; subst.
  rewrite sync_guild_trace, IH by assumption.
  rewrite calls_app, calls_sync_guild, <- app_assoc. f_equal. f_equal.
  pose proof (sync_guild_frame need_sync http_bulk_upsert_guild bot g0 c0) as F.
  cbv zeta in F. destruct F as [F1 [_ [_ [_ [_ [_ F2]]]]]].
  apply flat_map_guild_call_ext; [exact F1|].
  intros g Hg. apply F2. intros ->. contradiction.
Qed.

Lemma calls_sync_scopes bot global_cmds guild_cmds :
  PyDict.wf guild_cmds ->
  calls (snd (sync_scopes need_sync http_bulk_upsert_global http_bulk_upsert_guild
                bot global_cmds guild_cmds))
  = (if global_commands (_command_sync bot)
     then global_call need_sync bot global_cmds else [])
    ++ (if guild_commands (_command_sync bot)
        then flat_map (guild_call need_sync bot) guild_cmds else []).
Proof.
  intros W. unfold sync_scopes.
  set (r1 := if global_commands (_command_sync bot)
             then sync_global need_sync http_bulk_upsert_global bot global_cmds
             else (bot, [])).
  assert (S1 : _command_sync (fst r1) = _command_sync bot
               /\ _guild_application_commands (_connection (fst r1))
                  = _guild_application_commands (_connection bot)
               /\ calls (snd r1)
                  = (if global_commands (_command_sync bot)
                     then global_call need_sync bot global_cmds else [])).
  { unfold r1. destruct (global_commands (_command_sync bot)).
    - pose proof (sync_global_frame need_sync http_bulk_upsert_global bot global_cmds)
        as F. cbv zeta in F. destruct F as [F1 [_ [_ [_ [_ F2]]]]].
      split; [exact F1|]. split; [exact F2|]. apply calls_sync_global.
    - simpl. auto. }
  destruct r1 as [bot1 t1]. simpl in S1. destruct S1 as [E1 [E2 E3]].
  rewrite E1. destruct (guild_commands (_command_sync bot)).
  - rewrite calls_fold_sync_guild by exact W. rewrite E3. f_equal.
    apply flat_map_guild_call_ext; [exact E1|].
    intros g _. unfold current_guild_cmds. now rewrite E2.
  - simpl. now rewrite E3, app_nil_r.
Qed.

Lemma calls_sync bot :
  calls (snd (_sync_application_commands need_sync http_bulk_upsert_global
                http_bulk_upsert_guild bot))
  = expected_calls need_sync bot.
Proof.
  unfold _sync_application_commands, expected_calls.
  destruct (negb (sync_commands (_command_sync bot)) || _is_closed bot
            || loop_is_closed bot); [reflexivity|].
  pose proof (wf_ordered_unsynced (_all_app_commands bot) (_test_guilds bot)) as W.
  destruct (_ordered_unsynced_commands (_all_app_commands bot) (_test_guilds bot))
    as [reg [gl gu]]. simpl in W.
  rewrite calls_sync_scopes by exact W. reflexivity.
Qed.

End CallFacts.

(** X10. The bulk overwrites of a pass, in order, are fixed by the state
    the pass starts from: none when sync is off or the client or loop is
    closed; otherwise the global one first when its diff asks for it, then
    one per guild of the guild map whose diff asks for it, in map order.
    What the transport answers, success or failure, changes none of them:
    a failing scope neither stops nor alters the calls that follow. *)
Theorem sync_calls_fixed_by_state
    (need_sync : ApplicationCommand -> ApplicationCommand -> bool)
    (http_global http_global' :
       list ApplicationCommand -> py_result (list ApplicationCommand))
    (http_guild http_guild' :
       option Z -> list ApplicationCommand -> py_result (list ApplicationCommand))
    (bot : Bot) :
  calls (snd (_sync_application_commands need_sync http_global http_guild bot))
  = expected_calls need_sync bot
  /\ calls (snd (_sync_application_commands need_sync http_global' http_guild' bot))
     = calls (snd (_sync_application_commands need_sync http_global http_guild bot)).
Proof. split; [|rewrite !calls_sync; reflexivity]. apply calls_sync. Qed.

Section PayloadFacts.
Variable need_sync : ApplicationCommand -> ApplicationCommand -> bool.
Variable http_bulk_upsert_global :
  list ApplicationCommand -> py_result (list ApplicationCommand).
Variable http_bulk_upsert_guild :
  option Z -> list ApplicationCommand -> py_result (list ApplicationCommand).

#[local] Abbreviation sync :=
  (_sync_application_commands need_sync http_bulk_upsert_global
     http_bulk_upsert_guild).

Lemma payload_covers_local keep new old c :
  In c new ->
  exists p,
    In p (to_send (apply_keep keep (_app_commands_diff need_sync new old)))
    /\ name_and_type p = name_and_type c.
Proof.
  intros Hc.
  pose proof (of_list_has_key name_and_type new c Hc) as Hk.
  apply in_map_iff in Hk. destruct Hk as [[k x] [Ek Hitem]]. simpl in Ek; subst k.
  destruct (local_buckets_cover need_sync new old _ _ Hitem) as [p [Hp Ep]].
  exists p. split; [now apply to_send_apply_keep_incl | exact Ep].
Qed.

Lemma payload_covers_remote new old o :
  In o old ->
  exists p,
    In p (to_send (keep_deleted (_app_commands_diff need_sync new old)))
    /\ name_and_type p = name_and_type o.
Proof.
  intros Ho.
  pose proof (of_list_has_key name_and_type old o Ho) as Hk.
  apply in_map_iff in Hk. destruct Hk as [[k o'] [Ek Hitem]]. simpl in Ek; subst k.
  pose proof (of_list_In name_and_type old _ _ Hitem) as [_ Eo'].
  destruct (PyDict.contains (PyDict.of_list name_and_type new) (name_and_type o))
    eqn:C.
  - apply contains_true_iff in C. apply in_map_iff in C.
    destruct C as [[k x] [Ek Hx]]. simpl in Ek; subst k.
    destruct (local_buckets_cover need_sync new old _ _ Hx) as [p [Hp Ep]].
    exists p. split; [|exact Ep].
    now apply (to_send_apply_keep_incl true).
  - exists o'. split; [|exact Eo'].
    unfold to_send, keep_deleted. simpl.
    apply in_or_app. left. apply in_or_app. right.
    rewrite app_commands_diff_buckets. simpl.
    apply in_flat_map. exists (name_and_type o, o'). split; [exact Hitem|].
    unfold delete_of. simpl. rewrite C. now left.
Qed.

Lemma global_push_payload bot payload :
  In (BulkOverwriteGlobal payload) (snd (sync bot)) ->
  let ordered :=
    _ordered_unsynced_commands (_all_app_commands bot) (_test_guilds bot) in
  payload
  = to_send (global_diff need_sync (with_registry bot (fst ordered))
               (fst (snd ordered))).
Proof.
  intros Hin ordered.
  assert (Hc : In (BulkOverwriteGlobal payload) (calls (snd (sync bot))))
    by (apply filter_In; split; [exact Hin | reflexivity]).
  rewrite calls_sync in Hc. unfold expected_calls in Hc. fold ordered in Hc.
  destruct (negb _ || _ || _); [destruct Hc|].
  apply in_app_or in Hc. destruct Hc as [Hc|Hc].
  - destruct (global_commands _); [|destruct Hc].
    unfold global_call in Hc. destruct (update_required _); [|destruct Hc].
    destruct Hc as [E|[]]. now inversion E.
  - destruct (guild_commands _); [|destruct Hc].
    apply in_flat_map in Hc. destruct Hc as [item [_ Hc]].
    unfold guild_call in Hc. destruct (update_required _); [|destruct Hc].
    destruct Hc as [E|[]]. discriminate E.
Qed.

Lemma guild_push_payload bot g payload :
  In (BulkOverwriteGuild (Some g) payload) (snd (sync bot)) ->
  let ordered :=
    _ordered_unsynced_commands (_all_app_commands bot) (_test_guilds bot) in
  exists cmds,
    In (g, cmds) (snd (snd ordered))
    /\ payload
       = to_send (guild_diff need_sync (with_registry bot (fst ordered)) g cmds).
Proof.
  intros Hin ordered.
  assert (Hc : In (BulkOverwriteGuild (Some g) payload) (calls (snd (sync bot))))
    by (apply filter_In; split; [exact Hin | reflexivity]).
  rewrite calls_sync in Hc. unfold expected_calls in Hc. fold ordered in Hc.
  destruct (negb _ || _ || _); [destruct Hc|].
  apply in_app_or in Hc. destruct Hc as [Hc|Hc].
  - destruct (global_commands _); [|destruct Hc].
    unfold global_call in Hc. destruct (update_required _); [|destruct Hc].
    destruct Hc as [E|[]]. discriminate E.
  - destruct (guild_commands _); [|destruct Hc].
    apply in_flat_map in Hc. destruct Hc as [[g' cmds] [Hitem Hc]].
    unfold guild_call in Hc. simpl in Hc.
    destruct (update_required _); [|destruct Hc].
    destruct Hc as [E|[]]. inversion E; subst. exists cmds. auto.
Qed.

(** X11. With command deletion disabled, a global bulk overwrite drops
    nothing: every command of the global snapshot has a command of its
    (name, type) key in the payload. *)
Theorem global_push_keeps_remote_keys bot payload o :
  allow_command_deletion (_command_sync bot) = false ->
  In (BulkOverwriteGlobal payload) (snd (sync bot)) ->
  In o (PyDict.values (_global_application_commands (_connection bot))) ->
  exists p, In p payload /\ name_and_type p = name_and_type o.
Proof.
  intros A Hin Ho. rewrite (global_push_payload bot payload Hin).
  unfold global_diff, global_policy. simpl. rewrite A. simpl.
  now apply payload_covers_remote.
Qed.

(** X12. Every bulk overwrite of a pass names every local command of its
    scope: a command of the global list has a command of its key in the
    global payload, and a command of the list of a guild has one in the
    payload for that guild. *)
Theorem push_names_every_local_command bot :
  let ordered :=
    _ordered_unsynced_commands (_all_app_commands bot) (_test_guilds bot) in
  (forall payload c,
     In (BulkOverwriteGlobal payload) (snd (sync bot)) ->
     In c (fst (snd ordered)) ->
     exists p, In p payload /\ name_and_type p = name_and_type c)
  /\ (forall g payload cmds c,
        In (BulkOverwriteGuild (Some g) payload) (snd (sync bot)) ->
        In (g, cmds) (snd (snd ordered)) -> In c cmds ->
        exists p, In p payload /\ name_and_type p = name_and_type c).
Proof.
  intros ordered. split.
  - intros payload c Hin Hc. rewrite (global_push_payload bot payload Hin).
    fold ordered. unfold global_diff. rewrite global_policy_keep.
    now apply payload_covers_local.
  - intros g payload cmds c Hin Hitem Hc.
    destruct (guild_push_payload bot g payload Hin) as [cmds' [Hitem' ->]].
    fold ordered in Hitem'.
    pose proof (wf_ordered_unsynced (_all_app_commands bot) (_test_guilds bot)) as W.
    fold ordered in W.
    assert (cmds' = cmds).
    { assert (G1 : PyDict.get (snd (snd ordered)) g = Some cmds') by now apply In_get.
      assert (G2 : PyDict.get (snd (snd ordered)) g = Some cmds) by now apply In_get.
      congruence. }
    subst cmds'. unfold guild_diff. rewrite guild_policy_keep.
    now apply payload_covers_local.
Qed.

End PayloadFacts.

Lemma global_push_keeps_remote_keys_witness :
  let fresh := command "n" chat_input None in
  let reg := fst (add_slash_command [] fresh) in
  let stale := command_body "stale" chat_input "" (Some 2%Z) in
  let conn := {| _global_application_commands := [(Some 2%Z, stale)];
                 _guild_application_commands := [] |} in
  exists p, In p [stale; body fresh] /\ name_and_type p = name_and_type stale.
Proof.
  intros fresh reg stale conn.
  refine (@global_push_keeps_remote_keys structural_need_sync echo_global echo_guild
            (bot_of false reg conn) [stale; body fresh] stale eq_refl _ _).
  - left. reflexivity.
  - left. reflexivity.
Defined.

Lemma push_names_every_local_command_witness :
  let pong := command "pong" chat_input (Some [7%Z]) in
  let reg := fst (add_slash_command [] pong) in
  let conn := {| _global_application_commands := [];
                 _guild_application_commands := [] |} in
  exists p, In p [body pong] /\ name_and_type p = name_and_type (body pong).
Proof.
  intros pong reg conn.
  refine (proj2 (@push_names_every_local_command structural_need_sync echo_global
                   echo_guild (bot_of true reg conn))
            7%Z [body pong] [body pong] (body pong) _ _ _).
  - left. reflexivity.
  - left. reflexivity.
  - left. reflexivity.
Defined.

(** ** Sorting the commands by scope *)

Lemma guild_list_append guilds g' b g :
  guild_list (guilds_append guilds g' b) g
  = guild_list guilds g ++ (if (g' =? g)%Z then [b] else []).
Proof.
  unfold guild_list, guilds_append.
  destruct (Z.eqb_spec g' g) as [->|N].
  - destruct (PyDict.get guilds g) as [l|]; now rewrite get_set_same.
  - destruct (PyDict.get guilds g') as [l|]; rewrite get_set_other by assumption;
      now rewrite app_nil_r.
Qed.

Lemma guild_list_fold_append gids guilds b g :
  guild_list (fold_left (fun gu guild_id => guilds_append gu guild_id b) gids guilds) g
  = guild_list guilds g
    ++ flat_map (fun g' => if (g' =? g)%Z then [b] else []) gids.
Proof.
  revert guilds. induction gids as [|g' gids IH]; simpl; intros guilds.
  - now rewrite app_nil_r.
  - now rewrite IH, guild_list_append, <- app_assoc.
Qed.

Lemma ordered_fold_closed test_guilds cmds gl gu :
  let r := fold_left (ordered_step test_guilds) cmds (gl, gu) in
  fst r = gl ++ flat_map (global_part test_guilds) cmds
  /\ (forall g, guild_list (snd r) g
                = guild_list gu g ++ flat_map (guild_part test_guilds g) cmds).
Proof.
  revert gl gu. induction cmds as [|c cmds IH]; intros gl gu; cbn [fold_left flat_map].
  - split; [now rewrite app_nil_r | intros g; now rewrite app_nil_r].
  - assert (Es : ordered_step test_guilds (gl, gu) c
                 = match guild_ids_or (guild_ids c) test_guilds with
                   | None => (gl ++ [body c], gu)
                   | Some gids =>
                       (gl, fold_left (fun g guild_id =>
                                         guilds_append g guild_id (body c)) gids gu)
                   end) by reflexivity.
    assert (Egl : global_part test_guilds c
                  = match guild_ids_or (guild_ids c) test_guilds with
                    | None => [body c]
                    | Some _ => []
                    end) by reflexivity.
    assert (Eg : forall g, guild_part test_guilds g c
                 = match guild_ids_or (guild_ids c) test_guilds with
                   | None => []
                   | Some gids =>
                       flat_map (fun g' => if (g' =? g)%Z then [body c] else []) gids
                   end) by reflexivity.
    rewrite Es, Egl. clear Es Egl.
    destruct (guild_ids_or (guild_ids c) test_guilds) as [gids|].
    + destruct (IH gl (fold_left (fun g guild_id => guilds_append g guild_id (body c))
                                 gids gu)) as [I1 I2].
      split; [exact I1|]. intros g.
      now rewrite I2, guild_list_fold_append, Eg, <- app_assoc.
    + destruct (IH (gl ++ [body c]) gu) as [I1 I2].
      split; [now rewrite I1, <- app_assoc|]. intros g. now rewrite I2, Eg.
Qed.

Lemma guild_ids_or_test a t : guild_ids_or a (Some t) <> None.
Proof.
  unfold guild_ids_or. destruct (truthy_seq a) eqn:T; [|discriminate].
  destruct a; [discriminate | discriminate T].
Qed.

(** X13. [_ordered_unsynced_commands] hands every registered command to
    the scopes it is declared for: with guild ids (or, lacking them, with
    test guilds) its body is in the list of each of these guilds and
    nowhere else, otherwise it is in the global list and nowhere else.
    The bodies are those of the registry after marking: a command
    without [auto_sync] is marked always-synced.  With test guilds set,
    the global list is empty. *)
Theorem ordered_unsynced_sorts_by_scope reg test_guilds :
  let ordered := _ordered_unsynced_commands reg test_guilds in
  let declared c := guild_ids_or (guild_ids c) test_guilds in
  PyDict.keys (fst ordered) = PyDict.keys reg
  /\ PyDict.values (fst ordered) = map mark_always_synced (PyDict.values reg)
  /\ (forall b, In b (fst (snd ordered)) <->
        exists c, In c (PyDict.values reg) /\ declared c = None
                  /\ b = body (mark_always_synced c))
  /\ (forall g b,
        (exists cmds, PyDict.get (snd (snd ordered)) g = Some cmds /\ In b cmds) <->
        exists c gids, In c (PyDict.values reg) /\ declared c = Some gids
                       /\ In g gids /\ b = body (mark_always_synced c))
  /\ (forall c, auto_sync c = false ->
        _always_synced (body (mark_always_synced c)) = true)
  /\ (test_guilds <> None -> fst (snd ordered) = []).
Proof.
  intros ordered declared.
  assert (Ev : PyDict.values (fst ordered) = map mark_always_synced (PyDict.values reg)).
  { unfold ordered, _ordered_unsynced_commands, PyDict.values. simpl.
    now rewrite !map_map. }
  assert (Hg : forall c, guild_ids (mark_always_synced c) = guild_ids c).
  { intros [b gs [|]]; reflexivity. }
  assert (C : fst (snd ordered)
              = flat_map (global_part test_guilds) (PyDict.values (fst ordered))
              /\ (forall g, guild_list (snd (snd ordered)) g
                            = flat_map (guild_part test_guilds g)
                                       (PyDict.values (fst ordered))))
    by exact (ordered_fold_closed test_guilds (PyDict.values (fst ordered)) [] []).
  destruct C as [C1 C2].
  repeat apply conj.
  - unfold ordered, _ordered_unsynced_commands, PyDict.keys. simpl.
    now rewrite map_map.
  - exact Ev.
  - intros b. rewrite C1, Ev, in_flat_map. split.
    + intros [c' [Hc' Hb]]. apply in_map_iff in Hc'. destruct Hc' as [c [<- Hc]].
      unfold global_part in Hb. rewrite Hg in Hb. exists c.
      unfold declared. destruct (guild_ids_or (guild_ids c) test_guilds) eqn:D;
        [destruct Hb|]. destruct Hb as [<-|[]]. auto.
    + intros [c [Hc [D ->]]]. exists (mark_always_synced c).
      split; [now apply in_map|]. unfold global_part. rewrite Hg.
      unfold declared in D. rewrite D. now left.
  - intros g b.
    assert (Hl : (exists cmds, PyDict.get (snd (snd ordered)) g = Some cmds /\ In b cmds)
                 <-> In b (guild_list (snd (snd ordered)) g)).
    { unfold guild_list. destruct (PyDict.get (snd (snd ordered)) g) as [l|].
      - split; [intros [cmds [[= ->] Hb]]; exact Hb | intros Hb; eauto].
      - split; [intros [cmds [E _]]; discriminate | intros []]. }
    rewrite Hl, C2, Ev, in_flat_map. split.
    + intros [c' [Hc' Hb]]. apply in_map_iff in Hc'. destruct Hc' as [c [<- Hc]].
      unfold guild_part in Hb. rewrite Hg in Hb. unfold declared.
      destruct (guild_ids_or (guild_ids c) test_guilds) as [gids|] eqn:D;
        [|destruct Hb].
      apply in_flat_map in Hb. destruct Hb as [g' [Hg' Hb]].
      destruct (Z.eqb_spec g' g) as [->|_]; [|destruct Hb].
      destruct Hb as [<-|[]]. exists c, gids. auto.
    + intros [c [gids [Hc [D [Hin ->]]]]]. exists (mark_always_synced c).
      split; [now apply in_map|]. unfold guild_part. rewrite Hg.
      unfold declared in D. rewrite D. apply in_flat_map. exists g.
      split; [exact Hin|]. rewrite Z.eqb_refl. now left.
  - intros [b gs [|]]; [discriminate | reflexivity].
  - intros N. rewrite C1, Ev. apply flat_map_nil_In. intros c' Hc'.
    apply in_map_iff in Hc'. destruct Hc' as [c [<- _]].
    unfold global_part. rewrite Hg. destruct test_guilds as [t|]; [|congruence].
    pose proof (guild_ids_or_test (guild_ids c) t) as Hn.
    now destruct (guild_ids_or (guild_ids c) (Some t)).
Qed.

Lemma ordered_unsynced_sorts_by_scope_witness :
  let ping := command "ping" chat_input None in
  let reg := fst (add_slash_command [] ping) in
  fst (snd (_ordered_unsynced_commands reg (Some [7%Z]))) = []
  /\ snd (snd (_ordered_unsynced_commands reg (Some [7%Z]))) = [(7%Z, [body ping])].
Proof.
  intros ping reg. split; [|reflexivity].
  refine (proj2 (proj2 (proj2 (proj2 (proj2
            (@ordered_unsynced_sorts_by_scope reg (Some [7%Z])))))) _).
  discriminate.
Defined.

(** ** Refreshing the snapshots *)

Lemma ordered_unsynced_keys reg test_guilds :
  PyDict.keys (fst (_ordered_unsynced_commands reg test_guilds)) = PyDict.keys reg.
Proof.
  unfold _ordered_unsynced_commands, PyDict.keys. simpl. now rewrite map_map.
Qed.

Section CacheFacts.
Variable fetch_global_commands : py_result (list ApplicationCommand).
Variable fetch_guild_commands : Z -> py_result (list ApplicationCommand).

#[local] Abbreviation cache :=
  (_cache_application_commands fetch_global_commands fetch_guild_commands).

Lemma cache_guilds_global conn guilds :
  _global_application_commands
    (fst (cache_guilds fetch_guild_commands conn guilds))
  = _global_application_commands conn.
Proof.
  revert conn. induction guilds as [|g gs IH]; simpl; intros conn; [reflexivity|].
  destruct (fetch_guild_commands g) as [commands|e].
  - destruct (nonempty commands); rewrite IH; reflexivity.
  - destruct (is_fetch_error e); [apply IH | reflexivity].
Qed.

(** The snapshot of a guild after the loop, when no fetch of the loop
    fails with an error that is not caught. *)
Lemma cache_guilds_tolerated conn guilds :
  (forall g, tolerated (fetch_guild_commands g)) ->
  snd (cache_guilds fetch_guild_commands conn guilds) = Returned tt
  /\ (forall g,
        PyDict.get (_guild_application_commands
                      (fst (cache_guilds fetch_guild_commands conn guilds))) (Some g)
        = match fetch_guild_commands g with
          | Returned (c :: cs) =>
              if in_dec Z.eq_dec g guilds
              then Some (PyDict.of_list id (c :: cs))
              else PyDict.get (_guild_application_commands conn) (Some g)
          | _ => PyDict.get (_guild_application_commands conn) (Some g)
          end).
Proof.
  intros T. revert conn. induction guilds as [|g0 gs IH]; intros conn.
  - split; [reflexivity|]. intros g. simpl.
    destruct (fetch_guild_commands g) as [[|c cs]|e]; reflexivity.
  - cbn [cache_guilds]. pose proof (T g0) as T0.
    destruct (fetch_guild_commands g0) as [[|c0 cs0]|e0] eqn:E0; cbn [nonempty].
    + destruct (IH conn) as [R G]. split; [exact R|]. intros g. rewrite G.
      destruct (fetch_guild_commands g) as [[|c cs]|e] eqn:E; try reflexivity.
      destruct (in_dec Z.eq_dec g gs) as [Hin|Hn];
        destruct (in_dec Z.eq_dec g (g0 :: gs)) as [Hin'|Hn']; try reflexivity.
      * exfalso. apply Hn'. now right.
      * destruct Hin' as [->|Hin']; [congruence | contradiction].
    + set (conn1 := {| _global_application_commands := _global_application_commands conn;
                       _guild_application_commands :=
                         PyDict.set (_guild_application_commands conn) (Some g0)
                                    (PyDict.of_list id (c0 :: cs0)) |}).
      destruct (IH conn1) as [R G]. split; [exact R|]. intros g. rewrite G.
      destruct (fetch_guild_commands g) as [[|c cs]|e] eqn:E.
      * simpl. apply get_set_other. intros [= ->]. congruence.
      * destruct (in_dec Z.eq_dec g gs) as [Hin|Hn];
          destruct (in_dec Z.eq_dec g (g0 :: gs)) as [Hin'|Hn']; try reflexivity.
        -- exfalso. apply Hn'. now right.
        -- destruct Hin' as [->|Hin']; [|contradiction].
           simpl. rewrite get_set_same. rewrite E0 in E. now inversion E.
        -- simpl. apply get_set_other. intros [= ->]. apply Hn'. now left.
      * simpl. apply get_set_other. intros [= ->]. congruence.
    + simpl in T0. rewrite T0.
      destruct (IH conn) as [R G]. split; [exact R|]. intros g. rewrite G.
      destruct (fetch_guild_commands g) as [[|c cs]|e] eqn:E; try reflexivity.
      destruct (in_dec Z.eq_dec g gs) as [Hin|Hn];
        destruct (in_dec Z.eq_dec g (g0 :: gs)) as [Hin'|Hn']; try reflexivity.
      * exfalso. apply Hn'. now right.
      * destruct Hin' as [->|Hin']; [congruence | contradiction].
Qed.

Lemma drop_stale_id_spec snapshot c :
  (id (body (drop_stale_id snapshot c)) = None
   \/ PyDict.contains snapshot (id (body c)) = true
      /\ drop_stale_id snapshot c = c)
  /\ guild_ids (drop_stale_id snapshot c) = guild_ids c
  /\ name_and_type (body (drop_stale_id snapshot c)) = name_and_type (body c).
Proof.
  unfold drop_stale_id. destruct (id (body c)) as [i|] eqn:E.
  - destruct (PyDict.contains snapshot (Some i)) eqn:C; simpl.
    + rewrite E. auto.
    + auto.
  - rewrite E. auto.
Qed.

(** X14. When the global fetch returns, [_cache_application_commands]
    makes the answer the global snapshot (keyed by id) and clears every
    command id that the snapshot does not hold: afterwards the body id of
    each registered command is [None] or a key of the global snapshot,
    and the registry keys are unchanged.  This holds also when the guild
    loop later stops on an error. *)
Theorem cache_clears_stale_ids bot commands :
  fetch_global_commands = Returned commands ->
  let bot' := fst (cache bot) in
  _global_application_commands (_connection bot') = PyDict.of_list id commands
  /\ PyDict.keys (_all_app_commands bot') = PyDict.keys (_all_app_commands bot)
  /\ (forall c, In c (PyDict.values (_all_app_commands bot')) ->
        id (body c) = None
        \/ PyDict.contains (_global_application_commands (_connection bot'))
             (id (body c)) = true).
Proof.
  intros F bot'. unfold bot', _cache_application_commands.
  destruct (_ordered_unsynced_commands (_all_app_commands bot) (_test_guilds bot))
    as [reg [gl guilds]] eqn:Eo.
  assert (Ek : PyDict.keys reg = PyDict.keys (_all_app_commands bot)).
  { pose proof (ordered_unsynced_keys (_all_app_commands bot) (_test_guilds bot))
      as K. now rewrite Eo in K. }
  unfold cache_global. rewrite F. cbn [fst snd _connection].
  destruct (cache_guilds fetch_guild_commands _ (PyDict.keys guilds)) as [conn res] eqn:Ec.
  pose proof (cache_guilds_global
                {| _global_application_commands := PyDict.of_list id commands;
                   _guild_application_commands :=
                     _guild_application_commands (_connection (with_registry bot reg)) |}
                (PyDict.keys guilds)) as G.
  rewrite Ec in G. simpl in G.
  repeat apply conj.
  - simpl. exact G.
  - simpl. rewrite <- Ek. unfold PyDict.keys. rewrite map_map. reflexivity.
  - simpl. intros c Hin. unfold PyDict.values in Hin. rewrite map_map in Hin.
    apply in_map_iff in Hin. destruct Hin as [[k c0] [<- _]]. simpl.
    rewrite G.
    destruct (drop_stale_id_spec (PyDict.of_list id commands) c0) as [[E|[C E]] _];
      [now left | right; now rewrite E].
Qed.

(** X15. When every fetch returns or fails with [HTTPException] or
    [TypeError], [_cache_application_commands] returns without raising.
    A failed global fetch leaves the global snapshot as it was.  The
    snapshot of a guild is replaced only by a non-empty answer for a guild
    of the guild map: an empty answer or a failed fetch leaves what was
    cached for the guild, stale or not. *)
Theorem cache_tolerates_fetch_errors bot :
  tolerated fetch_global_commands ->
  (forall g, tolerated (fetch_guild_commands g)) ->
  let guilds :=
    snd (snd (_ordered_unsynced_commands (_all_app_commands bot) (_test_guilds bot))) in
  snd (cache bot) = Returned tt
  /\ (forall e, fetch_global_commands = Raised e ->
        _global_application_commands (_connection (fst (cache bot)))
        = _global_application_commands (_connection bot))
  /\ (forall g,
        PyDict.get (_guild_application_commands (_connection (fst (cache bot)))) (Some g)
        = match fetch_guild_commands g with
          | Returned (c :: cs) =>
              if PyDict.contains guilds g
              then Some (PyDict.of_list id (c :: cs))
              else PyDict.get (_guild_application_commands (_connection bot)) (Some g)
          | _ => PyDict.get (_guild_application_commands (_connection bot)) (Some g)
          end).
Proof.
  intros Tg Tu guilds. unfold guilds, _cache_application_commands.
  destruct (_ordered_unsynced_commands (_all_app_commands bot) (_test_guilds bot))
    as [reg [gl gu]]. cbn [fst snd].
  assert (Hc : exists bot1,
             cache_global fetch_global_commands (with_registry bot reg)
             = (bot1, Returned tt)
             /\ _guild_application_commands (_connection bot1)
                = _guild_application_commands (_connection bot)
             /\ (forall e, fetch_global_commands = Raised e ->
                   _global_application_commands (_connection bot1)
                   = _global_application_commands (_connection bot))).
  { unfold cache_global. destruct fetch_global_commands as [commands|e].
    - eexists. split; [reflexivity|]. split; [reflexivity | discriminate].
    - simpl in Tg. rewrite Tg. eexists. split; [reflexivity|]. auto. }
  destruct Hc as [bot1 [-> [E1 E2]]].
  destruct (cache_guilds_tolerated (_connection bot1) (PyDict.keys gu) Tu) as [R G].
  pose proof (cache_guilds_global (_connection bot1) (PyDict.keys gu)) as Gg.
  destruct (cache_guilds fetch_guild_commands (_connection bot1) (PyDict.keys gu))
    as [conn res]. simpl in R, G, Gg |- *.
  repeat apply conj.
  - exact R.
  - intros e F. rewrite Gg. now apply (E2 e).
  - intros g. rewrite G, E1.
    destruct (fetch_guild_commands g) as [[|c cs]|e]; try reflexivity.
    destruct (in_dec Z.eq_dec g (PyDict.keys gu)) as [Hin|Hn].
    + apply contains_true_iff in Hin. now rewrite Hin.
    + apply contains_false_iff in Hn. now rewrite Hn.
Qed.

End CacheFacts.

Lemma cache_clears_stale_ids_witness :
  let stale := {| body := command_body "ping" chat_input "" (Some 5%Z);
                  guild_ids := None; auto_sync := true |} in
  let reg : Registry := [(metadata "ping" None chat_input, stale)] in
  let conn := {| _global_application_commands := [];
                 _guild_application_commands := [] |} in
  let fetched := [command_body "ping" chat_input "" (Some 1%Z)] in
  let bot' := fst (_cache_application_commands (Returned fetched)
                     (fun _ => Returned []) (bot_of true reg conn)) in
  _global_application_commands (_connection bot') = PyDict.of_list id fetched
  /\ map (fun c => id (body c)) (PyDict.values (_all_app_commands bot')) = [None].
Proof.
  intros stale reg conn fetched bot'. split; [|reflexivity].
  exact (proj1 (@cache_clears_stale_ids (Returned fetched) (fun _ => Returned [])
                  (bot_of true reg conn) fetched eq_refl)).
Defined.

Lemma cache_tolerates_fetch_errors_witness :
  let pong := command "pong" chat_input (Some [7%Z]) in
  let reg := fst (add_slash_command [] pong) in
  let old := command_body "old" chat_input "" (Some 3%Z) in
  let conn := {| _global_application_commands := [(Some 3%Z, old)];
                 _guild_application_commands := [(Some 7%Z, [(Some 3%Z, old)])] |} in
  let r := _cache_application_commands (Raised HTTPException)
             (fun _ => Returned []) (bot_of true reg conn) in
  snd r = Returned tt /\ _connection (fst r) = conn.
Proof.
  intros pong reg old conn r. split; [|reflexivity].
  refine (proj1 (@cache_tolerates_fetch_errors (Raised HTTPException)
                   (fun _ => Returned []) (bot_of true reg conn) _ _)).
  - reflexivity.
  - intros g. exact I.
Defined.

(** ** More on the dispatcher *)

Section DispatchFacts.
Variable http_bulk_upsert_guild :
  option Z -> list ApplicationCommand -> py_result (list ApplicationCommand).
Variable send_message : Interaction -> string -> bool -> py_result unit.
Variable can_run : Interaction -> py_result bool.
Variable invoke : InvokableApplicationCommand -> Interaction -> py_result unit.
Variable dispatch_error :
  InvokableApplicationCommand -> Interaction -> py_exn -> py_result unit.

#[local] Abbreviation process :=
  (process_application_commands http_bulk_upsert_guild send_message
     can_run invoke dispatch_error).
#[local] Abbreviation route' := (route can_run invoke dispatch_error).
#[local] Abbreviation disciplined :=
  (invocation_discipline can_run invoke dispatch_error).

Lemma string_length_append (s t : string) :
  String.length (s ++ t) = (String.length s + String.length t)%nat.
Proof. induction s as [|a s IH]; simpl; [reflexivity | now rewrite IH]. Qed.

Lemma completion_neq (s : string) : (s ++ "_completion")%string <> s.
Proof.
  intros E. apply (f_equal String.length) in E.
  rewrite string_length_append in E. simpl in E. lia.
Qed.

Ltac split_in :=
  repeat match goal with
  | H : _ \/ _ |- _ => destruct H as [H|H]
  | H : False |- _ => destruct H
  | H : In _ (_ :: _) |- _ => destruct H as [H|H]
  | H : In _ [] |- _ => destruct H
  end.

Ltac same_effect :=
  repeat match goal with
  | H : Dispatch _ = Dispatch _ |- _ => inversion H; clear H; subst
  | H : Invoke _ = Invoke _ |- _ => inversion H; clear H; subst
  | H : DispatchError _ _ = DispatchError _ _ |- _ => inversion H; clear H; subst
  end.

Lemma route_state bot interaction :
  fst (fst (route' bot interaction)) = bot
  /\ calls (snd (fst (route' bot interaction))) = []
  /\ (forall m e, ~ In (SendMessage m e) (snd (fst (route' bot interaction))))
  /\ ((forall c, In c (PyDict.values (_all_app_commands bot)) ->
         id (body c) <> Some (data_id interaction)) ->
      route' bot interaction = (bot, [], Returned tt)).
Proof.
  unfold route.
  destruct (find _ (PyDict.values (_all_app_commands bot))) as [c|] eqn:F.
  - apply find_some in F. destruct F as [Hin Hid]. apply py_eqb_eq in Hid.
    destruct (event_name_of (data_type interaction)) as [ev|].
    + unfold invoke_guarded.
      destruct (can_run interaction) as [[|]|e];
        [destruct (invoke c interaction) as [u|e]| |];
        try destruct (is_command_error e); simpl;
        (repeat split; [intros m e0 H; simpl in H; split_in; discriminate
                       |intros N; exfalso; now apply (N c Hin)]).
    + simpl. repeat split; auto.
  - destruct (event_name_of (data_type interaction)); simpl; repeat split; auto.
Qed.

Lemma route_disciplined bot interaction :
  disciplined bot interaction (snd (fst (route' bot interaction)))
              (snd (route' bot interaction)).
Proof.
  unfold route, invocation_discipline.
  destruct (event_name_of (data_type interaction)) as [ev|] eqn:Ev.
  2:{ simpl. repeat split; intros; split_in; try discriminate; lia. }
  destruct (find _ (PyDict.values (_all_app_commands bot))) as [c|] eqn:F.
  2:{ simpl. repeat split; intros; split_in; try discriminate; lia. }
  apply find_some in F. destruct F as [Hin Hid]. apply py_eqb_eq in Hid.
  pose proof (@completion_neq ev) as Hne.
  assert (Hev : forall ev', Some ev = Some ev' -> ev' = ev) by (intros ? [= <-]; auto).
  unfold invoke_guarded.
  destruct (can_run interaction) as [[|]|e0] eqn:Cr;
    [destruct (invoke c interaction) as [[]|e1] eqn:Iv;
       [|destruct (is_command_error e1) eqn:Ce]
    | |destruct (is_command_error e0) eqn:Ce];
    simpl; repeat split; intros;
    repeat match goal with
           | H : Some ev = Some _ |- _ => apply Hev in H; subst
           end;
    split_in; try discriminate; same_effect;
    try (exfalso; now apply Hne);
    try (simpl; lia); try assumption; try reflexivity; try congruence;
    eauto 6.
  all: try (exists c; split; [simpl; auto | assumption]).
Qed.

Lemma resync_unknown_disciplined bot interaction :
  disciplined bot interaction
    (snd (fst (resync_unknown http_bulk_upsert_guild send_message bot interaction)))
    (snd (resync_unknown http_bulk_upsert_guild send_message bot interaction)).
Proof.
  unfold resync_unknown, invocation_discipline.
  destruct (bulk_overwrite_guild_commands _ _ _ _) as [conn res0].
  destruct (except_http_pass res0) as [[]|e0];
    [destruct (except_http_pass (send_message _ _ _)) as [[]|e1]|];
    simpl; repeat split; intros; split_in; try discriminate; lia.
Qed.

(** X16. Outside the corrective branch (synchronisation switched off, a
    synchronisation queued, or the id found in the global snapshot or in
    the snapshot of the interaction's guild) [process_application_commands]
    leaves the bot as it is, asks for no bulk overwrite and sends no
    message; and when no registered command body carries the id of the
    interaction, or the command type is none of the three, it returns
    without any effect at all. *)
Theorem process_outside_corrective_branch bot interaction :
  sync_commands (_command_sync bot) = false
  \/ _sync_queued bot = true
  \/ get_global_command bot (data_id interaction) <> None
  \/ get_guild_command bot (interaction_guild_id interaction)
                       (data_id interaction) <> None ->
  fst (fst (process bot interaction)) = bot
  /\ calls (snd (fst (process bot interaction))) = []
  /\ (forall m e, ~ In (SendMessage m e) (snd (fst (process bot interaction))))
  /\ ((forall c, In c (PyDict.values (_all_app_commands bot)) ->
          id (body c) <> Some (data_id interaction))
      \/ data_type interaction = None ->
      process bot interaction = (bot, [], Returned tt)).
Proof.
  intros Hout.
  assert (E : process bot interaction = route' bot interaction).
  { unfold process_application_commands.
    destruct (sync_commands (_command_sync bot)) eqn:S; [|reflexivity].
    destruct (_sync_queued bot) eqn:Q; [reflexivity|]. simpl.
    destruct (get_global_command bot (data_id interaction)) eqn:G; [reflexivity|].
    destruct (get_guild_command bot (interaction_guild_id interaction)
                                (data_id interaction)) eqn:G'; [reflexivity|].
    destruct Hout as [D|[D|[D|D]]]; try discriminate; now elim D. }
  rewrite E. destruct (route_state bot interaction) as [R1 [R2 [R3 R4]]].
  repeat split; [exact R1 | exact R2 | exact R3 |].
  intros [N|N]; [now apply R4|].
  unfold route. rewrite N. reflexivity.
Qed.

(** X17. Every run of [process_application_commands], whatever the checks,
    the command and the error handler answer, keeps to the invocation
    discipline: at most one command is invoked, and it is a registered
    command whose body carries the id of the interaction, invoked right
    after the event of its type was dispatched and only when the call-once
    checks returned true; an exception reaches [dispatch_error] only if it
    is a command error, and the run then ends as [dispatch_error] ends;
    the completion event is dispatched only after an invocation that
    returned; an exception of the invocation that is no command error
    leaves the coroutine. *)
Theorem process_keeps_invocation_discipline bot interaction :
  invocation_discipline can_run invoke dispatch_error bot interaction
    (snd (fst (process_application_commands http_bulk_upsert_guild send_message
                 can_run invoke dispatch_error bot interaction)))
    (snd (process_application_commands http_bulk_upsert_guild send_message
            can_run invoke dispatch_error bot interaction)).
Proof.
  unfold process_application_commands.
  destruct (sync_commands (_command_sync bot) && negb (_sync_queued bot));
    [|apply route_disciplined].
  destruct (get_global_command bot (data_id interaction));
    [apply route_disciplined|].
  destruct (get_guild_command bot (interaction_guild_id interaction)
                              (data_id interaction));
    [apply route_disciplined | apply resync_unknown_disciplined].
Qed.

End DispatchFacts.

Lemma process_outside_corrective_branch_witness :
  let pong := command "pong" chat_input None in
  let reg := fst (add_slash_command [] pong) in
  let remote := command_body "pong" chat_input "" (Some 3%Z) in
  let conn := {| _global_application_commands := [(Some 3%Z, remote)];
                 _guild_application_commands := [] |} in
  let bot := bot_of true reg conn in
  let interaction := {| data_id := 3; data_type := Some chat_input;
                        interaction_guild_id := Some 7%Z |} in
  process_application_commands http_guild_fails send_ok can_run_ok invoke_ok
    dispatch_error_ok bot interaction = (bot, [], Returned tt).
Proof.
  intros pong reg remote conn bot interaction.
  refine (proj2 (proj2 (proj2
    (@process_outside_corrective_branch http_guild_fails send_ok can_run_ok
       invoke_ok dispatch_error_ok bot interaction _))) _).
  - right. right. left. discriminate.
  - left. intros c Hin. simpl in Hin. destruct Hin as [<-|[]]. discriminate.
Defined.

(** ** Global checks *)

Section CheckFacts.
Context {CheckFn : Type} `{PyEq CheckFn}.
Variable run_check : CheckFn -> Interaction -> py_result bool.
Implicit Types (cl : @CheckLists CheckFn) (f : CheckFn) (l : list CheckFn).

#[local] Abbreviation can_run := (application_command_can_run run_check).

Lemma list_remove_absent l f : ~ In f l -> list_remove l f = None.
Proof.
  induction l as [|y r IH]; simpl; [reflexivity|]. intros N.
  destruct (py_eqb y f) eqn:E.
  - apply py_eqb_eq in E. exfalso. auto.
  - rewrite IH; auto.
Qed.

Lemma list_remove_snoc l f : ~ In f l -> list_remove (l ++ [f]) f = Some l.
Proof.
  induction l as [|y r IH]; simpl; intros N.
  - now rewrite py_eqb_refl.
  - destruct (py_eqb y f) eqn:E.
    + apply py_eqb_eq in E. exfalso. auto.
    + rewrite IH; auto.
Qed.

Lemma remove_or_pass_absent l f : ~ In f l -> remove_or_pass l f = l.
Proof. intros N. unfold remove_or_pass. now rewrite list_remove_absent. Qed.

Lemma remove_or_pass_snoc l f : ~ In f l -> remove_or_pass (l ++ [f]) f = l.
Proof. intros N. unfold remove_or_pass. now rewrite list_remove_snoc. Qed.

Lemma async_all_true l inter :
  async_all run_check l inter = Returned true
  <-> forall f, In f l -> run_check f inter = Returned true.
Proof.
  induction l as [|g r IH]; simpl.
  - split; [intros _ f [] | reflexivity].
  - destruct (run_check g inter) as [[|]|e] eqn:R.
    + rewrite IH. split.
      * intros A f [<-|Hin]; auto.
      * intros A f Hin. apply A. now right.
    + split; [discriminate|]. intros A.
      specialize (A g (or_introl eq_refl)). rewrite R in A. discriminate.
    + split; [discriminate|]. intros A.
      specialize (A g (or_introl eq_refl)). rewrite R in A. discriminate.
Qed.

Lemma async_all_stops pre f post inter :
  (forall g, In g pre -> run_check g inter = Returned true) ->
  run_check f inter <> Returned true ->
  async_all run_check (pre ++ f :: post) inter = run_check f inter.
Proof.
  induction pre as [|g r IH]; simpl; intros A N.
  - destruct (run_check f inter) as [[|]|e]; [now elim N | reflexivity | reflexivity].
  - rewrite (A g (or_introl eq_refl)). apply IH; auto.
Qed.

Lemma async_all_snoc l f inter :
  async_all run_check (l ++ [f]) inter
  = match async_all run_check l inter with
    | Returned true => run_check f inter
    | r => r
    end.
Proof.
  induction l as [|g r IH]; simpl.
  - destruct (run_check f inter) as [[|]|e]; reflexivity.
  - destruct (run_check g inter) as [[|]|e]; [exact IH | reflexivity | reflexivity].
Qed.

Lemma can_run_async_all cl inter once checks :
  selected_checks cl inter once = Some checks ->
  can_run cl inter once = async_all run_check checks inter.
Proof.
  intros S. unfold application_command_can_run. rewrite S.
  destruct checks; reflexivity.
Qed.

(** X18. A check registered with [add_app_command_check] lands at the end
    of exactly the lists its parameters name: the list
    [application_command_can_run] reads for an interaction grows by the
    check when the category of the interaction is switched on and
    [call_once] agrees, and is the old list otherwise, so that the verdict
    on such an interaction is unchanged.  The decorator
    [application_command_check] with no category switched on guards all
    three command types. *)
Theorem add_check_reaches_its_lists cl f once s u m inter once' :
  selected_checks (add_app_command_check cl f once s u m) inter once'
  = option_map
      (fun l => if reaches (data_type inter) once once' s u m
                then l ++ [f] else l)
      (selected_checks cl inter once')
  /\ (reaches (data_type inter) once once' s u m = false ->
      can_run (add_app_command_check cl f once s u m) inter once'
      = can_run cl inter once')
  /\ selected_checks (application_command_check cl f once false false false)
                     inter once
     = option_map (fun l => l ++ [f]) (selected_checks cl inter once).
Proof.
  assert (A : forall s u m once',
    selected_checks (add_app_command_check cl f once s u m) inter once'
    = option_map
        (fun l => if reaches (data_type inter) once once' s u m
                  then l ++ [f] else l)
        (selected_checks cl inter once')).
  { clear. intros s u m once'. unfold selected_checks, reaches.
    destruct cl, (data_type inter) as [[]|], once, once', s, u, m; reflexivity. }
  split; [apply A|]. split.
  - intros R. unfold application_command_can_run. rewrite A, R.
    destruct (selected_checks cl inter once'); reflexivity.
  - unfold application_command_check.
    change (negb (false || false || false)) with true. cbv iota. rewrite A.
    unfold reaches, selected_checks.
    destruct (data_type inter) as [[]|], once; reflexivity.
Qed.

(** X19. The verdict of [application_command_can_run], with
    [disnake.utils.async_all] taken as the in-order evaluation that stops
    at the first check that is not true: it returns true exactly when
    every check of the selected list returns true; the first check that
    returns false or raises decides the verdict, whatever the checks after
    it would answer; and a newly added check can only turn a pass into its
    own answer, every other verdict stays. *)
Theorem can_run_verdict cl inter once checks :
  selected_checks cl inter once = Some checks ->
  (can_run cl inter once = Returned true
   <-> forall f, In f checks -> run_check f inter = Returned true)
  /\ (forall pre f post,
        checks = pre ++ f :: post ->
        (forall g, In g pre -> run_check g inter = Returned true) ->
        run_check f inter <> Returned true ->
        can_run cl inter once = run_check f inter)
  /\ (forall f s u m,
        reaches (data_type inter) once once s u m = true ->
        can_run (add_app_command_check cl f once s u m) inter once
        = match can_run cl inter once with
          | Returned true => run_check f inter
          | r => r
          end).
Proof.
  intros S. rewrite (can_run_async_all _ _ _ S). repeat split.
  - apply async_all_true.
  - apply async_all_true.
  - intros pre f post -> A N. now apply async_all_stops.
  - intros f s u m R.
    assert (S' : selected_checks (add_app_command_check cl f once s u m) inter once
                 = Some (checks ++ [f])).
    { unfold selected_checks, reaches in *.
      destruct cl, (data_type inter) as [[]|], once, s, u, m;
        simpl in *; try discriminate; congruence. }
    rewrite (can_run_async_all _ _ _ S'). apply async_all_snoc.
Qed.

(** X20. Registering a check and removing it with the same parameters
    gives back the check lists, and removing a check that was never
    registered changes nothing, provided the check is in none of the
    lists the parameters name. *)
Theorem add_then_remove_check_restores cl f once s u m :
  (forall l, In l (touched_lists cl once s u m) -> ~ In f l) ->
  remove_app_command_check (add_app_command_check cl f once s u m) f once s u m
  = cl
  /\ remove_app_command_check cl f once s u m = cl.
Proof.
  intros N. destruct cl as [l1 l2 l3 l4 l5 l6].
  unfold touched_lists in N.
  destruct once, s, u, m; simpl in N |- *;
    repeat match goal with
           | |- context [remove_or_pass (?l ++ [f]) f] =>
               rewrite (@remove_or_pass_snoc l f) by (apply N; simpl; auto)
           | |- context [remove_or_pass ?l f] =>
               rewrite (@remove_or_pass_absent l f) by (apply N; simpl; auto)
           end;
    split; reflexivity.
Qed.

End CheckFacts.

Lemma add_check_reaches_its_lists_witness :
  let inter := {| data_id := 5; data_type := Some user;
                  interaction_guild_id := None |} in
  application_command_can_run sample_check
    (add_app_command_check no_checks 2%Z true true false false) inter true
  = application_command_can_run sample_check no_checks inter true.
Proof.
  intros inter.
  refine (proj1 (proj2 (add_check_reaches_its_lists sample_check no_checks
                          2%Z true true false false inter true)) _).
  reflexivity.
Defined.

Lemma can_run_verdict_witness :
  let cl := add_app_command_check
              (add_app_command_check
                 (add_app_command_check no_checks 1%Z true true false false)
                 2%Z true true false false)
              3%Z true true false false in
  let inter := {| data_id := 5; data_type := Some chat_input;
                  interaction_guild_id := None |} in
  application_command_can_run sample_check cl inter true = Returned false.
Proof.
  intros cl inter.
  assert (S : selected_checks cl inter true = Some [1%Z; 2%Z; 3%Z])
    by reflexivity.
  refine (proj1 (proj2 (can_run_verdict sample_check cl inter true S))
            [1%Z] 2%Z [3%Z] eq_refl _ _).
  - intros g [<-|[]]. reflexivity.
  - discriminate.
Defined.

Lemma add_then_remove_check_restores_witness :
  let cl := add_app_command_check no_checks 1%Z false true false false in
  remove_app_command_check
    (add_app_command_check cl 2%Z false true true false)
    2%Z false true true false = cl.
Proof.
  intros cl.
  refine (proj1 (@add_then_remove_check_restores Z _ cl 2%Z false true true false _)).
  intros l Hl. simpl in Hl. destruct Hl as [<-|[<-|[]]].
  - intros [E|[]]. discriminate E.
  - intros [].
Defined.

(** ** Autocompletion *)

Section AutocompleteFacts.
Variable _call_relevant_autocompleter :
  InvokableApplicationCommand -> py_result unit.

#[local] Abbreviation autocomplete :=
  (process_app_command_autocompletion _call_relevant_autocompleter).

Lemma guild_in_spec g gs : guild_in g gs = true <-> exists z, g = Some z /\ In z gs.
Proof.
  destruct g as [z|]; simpl.
  - rewrite existsb_exists. split.
    + intros [x [Hin E]]. apply Z.eqb_eq in E. subst x. eauto.
    + intros [x [[= <-] Hin]]. exists z. split; [exact Hin | apply Z.eqb_refl].
  - split; [discriminate | intros [z [E _]]; discriminate].
Qed.

(** X21. On a registry built by the registration API,
    [process_app_command_autocompletion] awaits the autocompleter exactly
    when the registry holds a slash command under the key made of
    [inter.data.name] and [inter.guild_id], and that command is not
    declared with an empty guild list.  The command it finds has that
    name, is a slash command and is declared for that scope: for an
    interaction that comes from a guild, only a command declared for this
    very guild is completed, a global command never.  When the
    autocompleter is not awaited the coroutine returns normally. *)
Theorem autocompletion_follows_registry_key reg n g :
  reachable reg ->
  (autocompleter_called (autocomplete reg n g) = true
   <-> exists c, PyDict.get reg (metadata n g chat_input) = Some c
                 /\ guild_ids c <> Some [])
  /\ (forall c, application_command (autocomplete reg n g) = Some c ->
        cmd_name c = n /\ cmd_type c = chat_input /\ In g (scopes c))
  /\ (forall z, g = Some z ->
        autocompleter_called (autocomplete reg n g) = true ->
        exists c gs, application_command (autocomplete reg n g) = Some c
                     /\ guild_ids c = Some gs /\ In z gs)
  /\ (autocompleter_called (autocomplete reg n g) = false ->
      autocompletion_result (autocomplete reg n g) = Returned tt).
Proof.
  intros R. apply reachable_consistent in R.
  unfold process_app_command_autocompletion.
  destruct (PyDict.get reg (metadata n g chat_input)) as [c|] eqn:G.
  2:{ simpl. split; [|split; [|split]].
      - split; [discriminate | intros [c [E _]]; discriminate].
      - intros c E. discriminate.
      - intros z _ E. discriminate.
      - reflexivity. }
  pose proof (get_Some_In _ _ G) as Hin.
  destruct (R _ _ Hin) as [g' [Hg K]].
  unfold key_of, metadata in K. injection K as En Eg Et. subst g'.
  assert (Sc : guild_ids c <> Some [] ->
               match guild_ids c with
               | None => true
               | Some gs => guild_in g gs
               end = true).
  { revert Hg. unfold scopes.
    destruct (guild_ids c) as [[|z gs]|]; cbn [truthy_seq]; intros S N.
    - now elim N.
    - apply in_map_iff in S. destruct S as [x [<- Hx]].
      apply guild_in_spec. eauto.
    - reflexivity. }
  assert (Found : forall c', Some c = Some c' ->
            cmd_name c' = n /\ cmd_type c' = chat_input /\ In g (scopes c')).
  { intros c' [= <-]. repeat split; [congruence | congruence | exact Hg]. }
  destruct (match guild_ids c with
            | None => true
            | Some gs => guild_in g gs
            end) eqn:Cond; simpl; (split; [|split; [exact Found|split]]).
  - split; [|reflexivity]. intros _. exists c. split; [reflexivity|].
    intros E. rewrite E in Cond. apply guild_in_spec in Cond.
    destruct Cond as [z [_ []]].
  - intros z -> _. destruct (guild_ids c) as [gs|] eqn:Gi.
    + apply guild_in_spec in Cond. destruct Cond as [z' [[= <-] Hz]].
      exists c, gs. split; [reflexivity|]. split; [exact Gi | exact Hz].
    + exfalso. unfold scopes in Hg. rewrite Gi in Hg. simpl in Hg.
      destruct Hg as [E|[]]. discriminate.
  - discriminate.
  - split; [discriminate|].
    intros [c' [[= <-] N]]. discriminate (Sc N).
  - intros z _ E. discriminate.
  - reflexivity.
Qed.

End AutocompleteFacts.

Lemma autocompletion_follows_registry_key_witness :
  let ping := command "ping" chat_input (Some [7%Z]) in
  let reg := fst (add_slash_command [] ping) in
  autocompleter_called
    (process_app_command_autocompletion (fun _ => Returned tt) reg "ping"
       (Some 7%Z)) = true.
Proof.
  intros ping reg.
  assert (R : reachable reg) by apply reach_add_slash, reach_empty.
  apply (proj1 (@autocompletion_follows_registry_key (fun _ => Returned tt)
                  reg "ping" (Some 7%Z) R)).
  exists ping. split; [reflexivity | discriminate].
Defined.
